(** * ScreenGuard content script: detection, masking and privacy score

    A shallow embedding of the content script of the extension
    (the file with [CONFIG], [PiiDetector], [state], [scanPage], ...):
    the privacy score, the regular-expression fallback detector, the
    model-backed detector, the overlay registry and the scan pass.

    Conventions.
    - A JavaScript string is the list of its UTF-16 code units ([list N]);
      property names (PII types, object keys) are Rocq strings.
    - The score is computed by the script on IEEE doubles.  It is embedded
      twice: on exact rationals ([Q]), which is what the theorems are about,
      and on binary64 floats ([F64.privacy_score]); the two are checked
      to agree on every combination of counts up to 5, from where on the
      penalty of a category is a full second weight.
    - The browser (DOM tree, layout, the language model) is external: it
      appears as the records [Dom] and [LanguageModel] of observations. *)

From Stdlib Require Import ZArith QArith Qround Qminmax Qabs Lqa Floats Ascii String.
From stdpp Require Import gmap strings list.

Open Scope string_scope.
Open Scope list_scope.

(** ** Configuration *)

Module CONFIG.

(** [CONFIG.SCORE_WEIGHTS], in the order of the object literal. *)
Definition SCORE_WEIGHTS : list (string * Q) :=
  [ ("password", 25%Q); ("ssn", 20%Q); ("credit_card", 20%Q); ("api_key", 15%Q);
    ("email", 10%Q); ("phone", 8%Q); ("address", 10%Q) ].

Definition PII_TYPES : list string :=
  [ "email"; "phone"; "ssn"; "credit_card"; "address"; "password"; "api_key" ].

Definition RESCAN_DELAY : N := 2000.
Definition MIN_TEXT_LENGTH : nat := 5.
Definition EXCLUDED_TAGS : list string := [ "script"; "style"; "noscript"; "iframe" ].

End CONFIG.

(** ** Objects with string keys in insertion order *)

(** [obj[key]] on an object literal: the first entry with that key. *)
Fixpoint prop_get {A} (obj : list (string * A)) (key : string) : option A :=
  match obj with
  | [] => None
  | (k, v) :: rest => if String.eqb k key then Some v else prop_get rest key
  end.

(** [obj.hasOwnProperty(key)]. *)
Definition hasOwnProperty {A} (obj : list (string * A)) (key : string) : bool :=
  match prop_get obj key with Some _ => true | None => false end.

(** [obj[key] = f(obj[key])] for a key the object already has; the entry
    keeps its place in the enumeration order. *)
Fixpoint prop_update {A} (f : A -> A) (obj : list (string * A)) (key : string)
  : list (string * A) :=
  match obj with
  | [] => []
  | (k, v) :: rest =>
      if String.eqb k key then (k, f v) :: rest else (k, v) :: prop_update f rest key
  end.

(** ** Privacy score *)

(** [state.piiCounts]: one entry per type of [CONFIG.PII_TYPES], as built by
    [Object.fromEntries(CONFIG.PII_TYPES.map(type => [type, 0]))]. *)
Definition counts_of (f : string -> N) : list (string * N) :=
  map (fun type => (type, f type)) CONFIG.PII_TYPES.

Definition zero_counts : list (string * N) := counts_of (fun _ => 0%N).

(** The count as a JavaScript number. *)
Definition num (count : N) : Q := inject_Z (Z.of_N count).

(** A number used as a condition: zero is falsy. *)
Definition truthyQ (x : Q) : bool := negb (Qeq_bool x 0).

(** One iteration of the [for (const [type, count] of Object.entries(...))]
    loop of [calculatePrivacyScore]. *)
Definition score_step (score : Q) (entry : string * N) : Q :=
  let '(type, count) := entry in
  match prop_get CONFIG.SCORE_WEIGHTS type with
  | Some w =>
      if (0 <? count)%N && truthyQ w then
        let score := (score - w)%Q in
        if (1 <? count)%N
        then (score - Qmin ((num count - 1) * (w * (3 # 10))) w)%Q
        else score
      else score
  | None => score
  end.

(** [Math.round]: the nearest integer, a tie going up. *)
Definition Math_round (x : Q) : Z := Qfloor (x + (1 # 2)).

(** The score before rounding and clamping. *)
Definition raw_score (piiCounts : list (string * N)) : Q :=
  fold_left score_step piiCounts 100%Q.

(** The value [calculatePrivacyScore] stores in [state.privacyScore] and
    returns: [Math.max(0, Math.min(100, Math.round(score)))]. *)
Definition privacy_score (piiCounts : list (string * N)) : Z :=
  Z.max 0 (Z.min 100 (Math_round (raw_score piiCounts))).

(** [getScoreColor], the label only. *)
Definition score_label (privacyScore : Z) : string :=
  if (80 <=? privacyScore)%Z then "SAFE"
  else if (50 <=? privacyScore)%Z then "MODERATE"
  else "HIGH RISK".

(** *** The same computation on binary64 numbers *)

Module F64.

Definition SCORE_WEIGHTS : list (string * float) :=
  [ ("password", 25%float); ("ssn", 20%float); ("credit_card", 20%float);
    ("api_key", 15%float); ("email", 10%float); ("phone", 8%float);
    ("address", 10%float) ].

(** The double nearest to the literal [0.3]. *)
Definition lit_0_3 : float := PrimFloat.div 3%float 10%float.

(** A count (below 2^53) as a double. *)
Definition num (count : N) : float :=
  PrimFloat.of_uint63 (Uint63.of_Z (Z.of_N count)).

(** [Math.min] on two numbers, neither of them NaN. *)
Definition Math_min (a b : float) : float := if PrimFloat.ltb b a then b else a.

Definition score_step (score : float) (entry : string * N) : float :=
  let '(type, count) := entry in
  match prop_get SCORE_WEIGHTS type with
  | Some w =>
      if (0 <? count)%N && negb (PrimFloat.eqb w 0%float) then
        let score := PrimFloat.sub score w in
        if (1 <? count)%N
        then PrimFloat.sub score
               (Math_min (PrimFloat.mul (PrimFloat.sub (num count) 1%float)
                                        (PrimFloat.mul w lit_0_3)) w)
        else score
      else score
  | None => score
  end.

(** An integer (of small absolute value) as a double. *)
Definition of_Z (z : Z) : float :=
  if (z <? 0)%Z then PrimFloat.opp (PrimFloat.of_uint63 (Uint63.of_Z (- z)))
  else PrimFloat.of_uint63 (Uint63.of_Z z).

(** [n - 0.5 <= x], the lower half of "[n] is the integer closest to [x], a
    tie going up". *)
Definition half_below (n : Z) (x : float) : bool :=
  PrimFloat.leb (PrimFloat.sub (of_Z n) (PrimFloat.div 1%float 2%float)) x.

(** The greatest [n] in [lo, lo + 2^bits) with [n - 0.5 <= x], by bisection. *)
Fixpoint round_search (bits : nat) (lo : Z) (x : float) : Z :=
  match bits with
  | O => lo
  | S bits' =>
      let mid := (lo + 2 ^ Z.of_nat bits')%Z in
      if half_below mid x then round_search bits' mid x else round_search bits' lo x
  end.

(** [Math.round(x)] for [-256.5 <= x < 255.5], which covers every score:
    the integer [n] with [n - 0.5 <= x < n + 0.5]. *)
Definition Math_round (x : float) : option Z :=
  let n := round_search 9 (-256) x in
  if half_below n x && negb (half_below (n + 1) x) then Some n else None.

(** [Math.max(0, Math.min(100, Math.round(score)))]. *)
Definition clamp_round (score : float) : option Z :=
  match Math_round score with
  | Some n => Some (Z.max 0 (Z.min 100 n))
  | None => None
  end.

Definition privacy_score (piiCounts : list (string * N)) : option Z :=
  clamp_round (fold_left score_step piiCounts 100%float).

End F64.

(** The two computations side by side: from the scores [sf] and [sq] reached
    so far, over every choice of a count between 0 and [bound] for each of
    the remaining [types], the rounded and clamped results are equal. *)
Fixpoint f64_agrees_from (types : list string) (bound : nat) (sf : float) (sq : Q) : bool :=
  match types with
  | [] =>
      match F64.clamp_round sf with
      | Some z => Z.eqb z (Z.max 0 (Z.min 100 (Math_round sq)))
      | None => false
      end
  | type :: types' =>
      forallb (fun c => f64_agrees_from types' bound
                          (F64.score_step sf (type, N.of_nat c))
                          (score_step sq (type, N.of_nat c)))
              (seq 0 (S bound))
  end.

(** ** JavaScript strings *)

Abbreviation jsstring := (list N) (only parsing).

(** A literal of the script as code units. *)
Fixpoint js (s : string) : jsstring :=
  match s with
  | EmptyString => []
  | String c s' => N_of_ascii c :: js s'
  end.

(** A set of code units, as a list of inclusive ranges. *)
Abbreviation charset := (list (N * N)) (only parsing).

Definition in_charset (cs : charset) (c : N) : bool :=
  existsb (fun '(lo, hi) => (lo <=? c)%N && (c <=? hi)%N) cs.

Definition chr (c : ascii) : N * N := (N_of_ascii c, N_of_ascii c).
Definition range (lo hi : ascii) : N * N := (N_of_ascii lo, N_of_ascii hi).

(** WhiteSpace and LineTerminator of ECMAScript: what [trim] strips and what
    [\s] matches.  TAB, LF, VT, FF, CR, SP, NBSP, U+1680, U+2000 to U+200A,
    U+2028, U+2029, U+202F, U+205F, U+3000, U+FEFF. *)
Definition white_space : charset :=
  [ (9, 13); (32, 32); (160, 160); (5760, 5760); (8192, 8202); (8232, 8233);
    (8239, 8239); (8287, 8287); (12288, 12288); (65279, 65279) ]%N.

Definition is_white_space (c : N) : bool := in_charset white_space c.

Fixpoint trimStart (s : jsstring) : jsstring :=
  match s with
  | [] => []
  | c :: s' => if is_white_space c then trimStart s' else s
  end.

Definition trimEnd (s : jsstring) : jsstring := rev (trimStart (rev s)).

(** [String.prototype.trim]. *)
Definition trim (s : jsstring) : jsstring := trimEnd (trimStart s).

(** [s.substring(a, b)] for [0 <= a <= b]. *)
Definition substring (s : jsstring) (a b : Z) : jsstring :=
  take (Z.to_nat (b - a)) (drop (Z.to_nat a) s).

(** [s.startsWith(v)]. *)
Fixpoint is_prefix (v s : jsstring) : bool :=
  match v, s with
  | [], _ => true
  | _ :: _, [] => false
  | a :: v', b :: s' => N.eqb a b && is_prefix v' s'
  end.

(** The search of [indexOf] in the suffix [s] that starts at the position [i]. *)
Fixpoint indexOf_from (v s : jsstring) (i : nat) : option nat :=
  if is_prefix v s then Some i
  else match s with
       | [] => None
       | _ :: s' => indexOf_from v s' (S i)
       end.

(** [s.indexOf(v)]: the least position where [v] occurs, [None] for -1. *)
Definition indexOf (s v : jsstring) : option nat := indexOf_from v s 0.

(** ** Regular expressions *)

(** The part of the pattern language the detector's patterns use.  A group,
    capturing or not, is the expression inside it: captures are never read. *)
Inductive regex : Type :=
| Chars (cs : charset)                            (* a class, an escape or a literal *)
| WordBoundary                                    (* \b *)
| Seq (r1 r2 : regex)
| Repeat (lo : nat) (hi : option nat) (r : regex) (* r{lo,hi}, greedy *).

Definition Plus (r : regex) : regex := Repeat 1 None r.
Definition Opt (r : regex) : regex := Repeat 0 (Some 1) r.
Definition Times (n : nat) (r : regex) : regex := Repeat n (Some n) r.
Definition AtLeast (n : nat) (r : regex) : regex := Repeat n None r.

Fixpoint SeqAll (rs : list regex) (last : regex) : regex :=
  match rs with
  | [] => last
  | r :: rs' => Seq r (SeqAll rs' last)
  end.

(** A position in the input: the code unit on its left, its index and the
    code units on its right. *)
Record cursor : Type := Cursor { before : option N; pos : nat; rest : jsstring }.

Definition word_chars : charset :=
  [ range "a" "z"; range "A" "Z"; range "0" "9"; chr "_" ].

Definition is_word_char (c : option N) : bool :=
  match c with
  | Some c => in_charset word_chars c
  | None => false
  end.

(** The optional iterations of a greedy quantifier, at most [n] of them: one
    more iteration is tried first, and an iteration that matches the empty
    string is refused. *)
Fixpoint repeat_opt (m : (cursor -> option cursor) -> cursor -> option cursor)
    (k : cursor -> option cursor) (n : nat) (x : cursor) : option cursor :=
  match n with
  | O => k x
  | S n' =>
      match m (fun y => if Nat.eqb (pos y) (pos x) then None else repeat_opt m k n' y) x with
      | Some e => Some e
      | None => k x
      end
  end.

(** The [lo] required iterations, then the optional ones.  An optional
    iteration consumes at least one code unit, so no more of them fit than
    there are code units left. *)
Fixpoint repeat_req (m : (cursor -> option cursor) -> cursor -> option cursor)
    (k : cursor -> option cursor) (hi : option nat) (lo j : nat) (x : cursor)
  : option cursor :=
  match j with
  | O =>
      let room := length (rest x) in
      repeat_opt m k (match hi with Some h => Nat.min (h - lo) room | None => room end) x
  | S j' => m (repeat_req m k hi lo j') x
  end.

(** The backtracking matcher: [rmatch r k x] matches [r] at [x] and hands the
    position reached to the continuation [k]; the result is the end of the
    whole match. *)
Fixpoint rmatch (r : regex) (k : cursor -> option cursor) (x : cursor) : option cursor :=
  match r with
  | Chars cs =>
      match rest x with
      | c :: rest' => if in_charset cs c then k (Cursor (Some c) (S (pos x)) rest') else None
      | [] => None
      end
  | WordBoundary =>
      if xorb (is_word_char (before x)) (is_word_char (head (rest x))) then k x else None
  | Seq r1 r2 => rmatch r1 (rmatch r2 k) x
  | Repeat lo hi r' => repeat_req (rmatch r') k hi lo lo x
  end.

(** One result of [matchAll]: [match.index] and [match[0]]. *)
Record RegExpMatch : Type := { index : nat; matched : jsstring }.

(** [text.matchAll(regex)] for a global, non-sticky regex, from the position
    [pos]: the matcher is tried at each position in turn; after a match the
    search resumes at the end of the match ([skip] counts the code units still
    to pass), one further on when the match is empty. *)
Fixpoint matchAll_at (r : regex) (prev : option N) (i : nat) (s : jsstring)
    (skip : nat) {struct s} : list RegExpMatch :=
  let next skip' :=
    match s with
    | [] => []
    | c :: s' => matchAll_at r (Some c) (S i) s' skip'
    end in
  match skip with
  | S skip' => next skip'
  | O =>
      match rmatch r Some (Cursor prev i s) with
      | Some e =>
          let len := (pos e - i)%nat in
          {| index := i; matched := take len s |} :: next (len - 1)%nat
      | None => next 0%nat
      end
  end.

Definition matchAll (text : jsstring) (r : regex) : list RegExpMatch :=
  matchAll_at r None 0 text 0.

(** ** The detector's patterns *)

Definition digit : regex := Chars [ range "0" "9" ].
Definition lit (c : ascii) : regex := Chars [ chr c ].

(** [/\b[a-zA-Z0-9._%+-]+@[a-zA-Z0-9.-]+\.[a-zA-Z]{2,}\b/g] *)
Definition email_pattern : regex :=
  SeqAll
    [ WordBoundary;
      Plus (Chars [ range "a" "z"; range "A" "Z"; range "0" "9";
                    chr "."; chr "_"; chr "%"; chr "+"; chr "-" ]);
      lit "@";
      Plus (Chars [ range "a" "z"; range "A" "Z"; range "0" "9"; chr "."; chr "-" ]);
      lit ".";
      AtLeast 2 (Chars [ range "a" "z"; range "A" "Z" ]) ]
    WordBoundary.

(** [[-.\s]] *)
Definition separator : regex := Chars (chr "-" :: chr "." :: white_space).

(** [/(\+?\d{1,3}[-.\s]?)?\(?\d{3}\)?[-.\s]?\d{3}[-.\s]?\d{4}\b/g] *)
Definition phone_pattern : regex :=
  SeqAll
    [ Opt (SeqAll [ Opt (lit "+"); Repeat 1 (Some 3) digit ] (Opt separator));
      Opt (lit "(");
      Times 3 digit;
      Opt (lit ")");
      Opt separator;
      Times 3 digit;
      Opt separator;
      Times 4 digit ]
    WordBoundary.

(** [/\b\d{3}-\d{2}-\d{4}\b/g] *)
Definition ssn_pattern : regex :=
  SeqAll
    [ WordBoundary; Times 3 digit; lit "-"; Times 2 digit; lit "-"; Times 4 digit ]
    WordBoundary.

(** [/\b(?:\d{4}[-\s]?){3}\d{4}\b/g] *)
Definition credit_card_pattern : regex :=
  SeqAll
    [ WordBoundary;
      Times 3 (Seq (Times 4 digit) (Opt (Chars (chr "-" :: white_space))));
      Times 4 digit ]
    WordBoundary.

(** [/\b[A-Za-z0-9]{32,}\b/g] *)
Definition api_key_pattern : regex :=
  SeqAll
    [ WordBoundary;
      AtLeast 32 (Chars [ range "A" "Z"; range "a" "z"; range "0" "9" ]) ]
    WordBoundary.

(** [this.patterns], in the order of the object literal. *)
Definition patterns : list (string * regex) :=
  [ ("email", email_pattern); ("phone", phone_pattern); ("ssn", ssn_pattern);
    ("credit_card", credit_card_pattern); ("api_key", api_key_pattern) ].

(** A finding [{type, value, start, end}]. *)
Record Finding : Type :=
  { type : string; value : jsstring; start : Z; end_ : Z }.

Definition finding_of_match (type : string) (m : RegExpMatch) : Finding :=
  {| type := type;
     value := matched m;
     start := Z.of_nat (index m);
     end_ := Z.of_nat (index m) + Z.of_nat (length (matched m)) |}.

(** [regexFallback(text)]. *)
Definition regexFallback (text : jsstring) : list Finding :=
  flat_map (fun '(type, regex) => map (finding_of_match type) (matchAll text regex))
           patterns.

(** ** The model-backed detector *)

(** What [JSON.parse(resultText)] gives, as far as [detectPII] looks at it. *)
Inductive Parsed : Type :=
| ParsedNull                                  (* null: reading [.pii_found] throws *)
| ParsedValue (pii_found : option (list Finding)).
    (* [Some items]: [pii_found] is an array; [None]: it is absent or no array *)

(** The host: the [LanguageModel] API, the session it creates, and
    [JSON.parse].  [None] is a rejected promise or a thrown exception. *)
Record Host : Type :=
  { availability : option string;
    create : option nat;
    prompt : nat -> jsstring -> option jsstring;
    JSON_parse : jsstring -> option Parsed }.

(** The fields of a [PiiDetector] that change; [detectorInitialized] is its
    [isInitialized] (the name is taken by the field of [state]). *)
Record PiiDetector : Type :=
  { session : option nat;
    useRegexFallback : bool;
    detectorInitialized : bool }.

(** [new PiiDetector()]. *)
Definition new_PiiDetector : PiiDetector :=
  {| session := None; useRegexFallback := false; detectorInitialized := false |}.

(** What a call of the detector does besides computing its result. *)
Inductive Call : Type :=
| CallAvailability
| CallCreate
| CallPrompt (input : jsstring)
| CallRegexFallback (text : jsstring).

(** A call that waits for the host, so that other events are handled meanwhile. *)
Definition is_host_call (c : Call) : bool :=
  match c with
  | CallRegexFallback _ => false
  | _ => true
  end.

(** [init()]. *)
Definition init (h : Host) (d : PiiDetector) : PiiDetector * list Call :=
  let failed := {| session := session d; useRegexFallback := true;
                   detectorInitialized := true |} in
  match availability h with
  | None => (failed, [CallAvailability])
  | Some a =>
      if String.eqb a "unavailable" then (failed, [CallAvailability])
      else match create h with
           | None => (failed, [CallAvailability; CallCreate])
           | Some s =>
               ({| session := Some s; useRegexFallback := false;
                   detectorInitialized := true |},
                [CallAvailability; CallCreate])
           end
  end.

(** The argument of [detectPII]. *)
Inductive JsText : Type :=
| Undefined
| Null
| Str (s : jsstring).

(** [!text || !text.trim()]. *)
Definition is_blank (text : JsText) : bool :=
  match text with
  | Undefined | Null => true
  | Str s =>
      match s with
      | [] => true
      | _ => match trim s with [] => true | _ => false end
      end
  end.

(** The template literal [`TEXT TO ANALYZE:\n${text}`]. *)
Definition prompt_input (text : jsstring) : jsstring :=
  (js "TEXT TO ANALYZE:" ++ [10%N] ++ text)%list.

(** The [try] block of [detectPII]; [None] when control reaches [catch]. *)
Definition try_prompt (h : Host) (s : nat) (text : jsstring) : option (list Finding) :=
  match prompt h s (prompt_input text) with
  | None => None
  | Some resultText =>
      match JSON_parse h resultText with
      | None => None
      | Some ParsedNull => None
      | Some (ParsedValue (Some items)) => Some items
      | Some (ParsedValue None) => Some []
      end
  end.

(** [detectPII(text)]: the findings, the detector afterwards and the calls
    made, in order. *)
Definition detectPII (h : Host) (d : PiiDetector) (text : JsText)
  : list Finding * PiiDetector * list Call :=
  let '(d, calls) := if detectorInitialized d then (d, []) else init h d in
  if is_blank text then ([], d, calls)
  else
    match text with
    | Str s =>
        match (if useRegexFallback d then None else session d) with
        | None => (regexFallback s, d, (calls ++ [CallRegexFallback s])%list)
        | Some sess =>
            match try_prompt h sess s with
            | Some items => (items, d, (calls ++ [CallPrompt (prompt_input s)])%list)
            | None =>
                (regexFallback s, d,
                 (calls ++ [CallPrompt (prompt_input s); CallRegexFallback s])%list)
            end
        end
    | _ => ([], d, calls)
    end.

(** ** The page *)

(** Content nodes and overlay elements are known by their identity. *)
Abbreviation node := nat (only parsing).
Abbreviation overlay_id := nat (only parsing).

Record Rect : Type := { left : Q; top : Q; width : Q; height : Q }.

(** [rect.width > 0 && rect.height > 0]. *)
Definition visible (rect : Rect) : bool :=
  negb (Qle_bool (width rect) 0) && negb (Qle_bool (height rect) 0).

(** What the script observes of the document: the content tree and its
    layout. *)
Record Dom : Type :=
  { nodeType : node -> N;
    parentElement : node -> option node;
    tagName : node -> string;                 (* [tagName.toLowerCase()] *)
    hasOverlayClass : node -> bool;           (* [classList.contains('screenguard-overlay')] *)
    documentContains : node -> bool;
    textContent : node -> jsstring;
    bodyTextNodes : list node;                (* the text nodes below [document.body], in tree order *)
    rangeClientRects : node -> nat -> nat -> list Rect;
        (* [getClientRects()] of the range from one offset to another in a text node *)
    boundingRect : node -> option Rect
        (* [getBoundingClientRect()] of the node's contents; [None] when it throws *) }.

(** An overlay element made by [createOverlay]: its [dataset.piiType] and the
    geometry in its style (the position is fixed, the pointer events none). *)
Record Overlay : Type := { piiType : string; style : Rect }.

Definition createOverlay (rect : Rect) (piiType : string) : Overlay :=
  {| piiType := piiType; style := rect |}.

(** [state]. *)
Record State : Type :=
  { detector : option PiiDetector;
    isEnabled : bool;
    isInitialized : bool;
    processedNodes : gset node;
    maskedElements : gmap node (list overlay_id);
    enabledFilters : gmap string bool;
    privacyScore : Z;
    piiCounts : list (string * N) }.

(** The privacy badge: the score, the label and the number of items shown. *)
Record Badge : Type := { badgeScore : Z; badgeLabel : string; badgeTotal : N }.

(** A [pii_detected] message. *)
Record Telemetry : Type :=
  { t_count : nat; t_privacyScore : Z; t_piiCounts : list (string * N) }.

(** The content script's state together with the document it works on. *)
Record Page : Type :=
  { state : State;
    document : Dom;
    overlayElements : gmap overlay_id Overlay;  (* the overlay elements created so far *)
    nextOverlay : overlay_id;                   (* the identity of the next one *)
    bodyOverlays : list overlay_id;             (* those that are children of [document.body] *)
    badge : option Badge;                       (* the element [#screenguard-privacy-badge] *)
    sent : list Telemetry                       (* [chrome.runtime.sendMessage] *) }.

Definition with_state (pg : Page) (st : State) : Page :=
  {| state := st; document := document pg; overlayElements := overlayElements pg;
     nextOverlay := nextOverlay pg; bodyOverlays := bodyOverlays pg;
     badge := badge pg; sent := sent pg |}.

Definition with_document (pg : Page) (d : Dom) : Page :=
  {| state := state pg; document := d; overlayElements := overlayElements pg;
     nextOverlay := nextOverlay pg; bodyOverlays := bodyOverlays pg;
     badge := badge pg; sent := sent pg |}.

Definition with_bodyOverlays (pg : Page) (l : list overlay_id) : Page :=
  {| state := state pg; document := document pg; overlayElements := overlayElements pg;
     nextOverlay := nextOverlay pg; bodyOverlays := l;
     badge := badge pg; sent := sent pg |}.

Definition with_overlayElements (pg : Page) (m : gmap overlay_id Overlay) : Page :=
  {| state := state pg; document := document pg; overlayElements := m;
     nextOverlay := nextOverlay pg; bodyOverlays := bodyOverlays pg;
     badge := badge pg; sent := sent pg |}.

Definition with_badge (pg : Page) (b : option Badge) : Page :=
  {| state := state pg; document := document pg; overlayElements := overlayElements pg;
     nextOverlay := nextOverlay pg; bodyOverlays := bodyOverlays pg;
     badge := b; sent := sent pg |}.

Definition with_sent (pg : Page) (l : list Telemetry) : Page :=
  {| state := state pg; document := document pg; overlayElements := overlayElements pg;
     nextOverlay := nextOverlay pg; bodyOverlays := bodyOverlays pg;
     badge := badge pg; sent := l |}.

Definition with_detector (st : State) (d : option PiiDetector) : State :=
  {| detector := d; isEnabled := isEnabled st; isInitialized := isInitialized st;
     processedNodes := processedNodes st; maskedElements := maskedElements st;
     enabledFilters := enabledFilters st; privacyScore := privacyScore st;
     piiCounts := piiCounts st |}.

Definition with_isEnabled (st : State) (b : bool) : State :=
  {| detector := detector st; isEnabled := b; isInitialized := isInitialized st;
     processedNodes := processedNodes st; maskedElements := maskedElements st;
     enabledFilters := enabledFilters st; privacyScore := privacyScore st;
     piiCounts := piiCounts st |}.

Definition with_processedNodes (st : State) (s : gset node) : State :=
  {| detector := detector st; isEnabled := isEnabled st; isInitialized := isInitialized st;
     processedNodes := s; maskedElements := maskedElements st;
     enabledFilters := enabledFilters st; privacyScore := privacyScore st;
     piiCounts := piiCounts st |}.

Definition with_maskedElements (st : State) (m : gmap node (list overlay_id)) : State :=
  {| detector := detector st; isEnabled := isEnabled st; isInitialized := isInitialized st;
     processedNodes := processedNodes st; maskedElements := m;
     enabledFilters := enabledFilters st; privacyScore := privacyScore st;
     piiCounts := piiCounts st |}.

Definition with_enabledFilters (st : State) (m : gmap string bool) : State :=
  {| detector := detector st; isEnabled := isEnabled st; isInitialized := isInitialized st;
     processedNodes := processedNodes st; maskedElements := maskedElements st;
     enabledFilters := m; privacyScore := privacyScore st;
     piiCounts := piiCounts st |}.

Definition with_privacy (st : State) (score : Z) (counts : list (string * N)) : State :=
  {| detector := detector st; isEnabled := isEnabled st; isInitialized := isInitialized st;
     processedNodes := processedNodes st; maskedElements := maskedElements st;
     enabledFilters := enabledFilters st; privacyScore := score;
     piiCounts := counts |}.

(** ** Extraction of the text units *)

(** The [acceptNode] filter of [getTextNodes]. *)
Definition acceptNode (d : Dom) (n : node) : bool :=
  match parentElement d n with
  | None => false
  | Some parent =>
      negb (existsb (String.eqb (tagName d parent)) CONFIG.EXCLUDED_TAGS)
      && negb (hasOverlayClass d parent)
      && (CONFIG.MIN_TEXT_LENGTH <=? length (trim (textContent d n)))%nat
  end.

(** [getTextNodes(document.body)]. *)
Definition getTextNodes (d : Dom) : list node :=
  List.filter (acceptNode d) (bodyTextNodes d).

(** ** Masks *)

(** [addOverlay(element, rect, type)]: a new overlay element is appended to
    the body and pushed on the element's list in [state.maskedElements]. *)
Definition addOverlay (pg : Page) (element : node) (rect : Rect) (type : string) : Page :=
  let id := nextOverlay pg in
  let st := state pg in
  let overlays := default [] (maskedElements st !! element) in
  {| state := with_maskedElements st (<[element := (overlays ++ [id])%list]> (maskedElements st));
     document := document pg;
     overlayElements := <[id := createOverlay rect type]> (overlayElements pg);
     nextOverlay := S id;
     bodyOverlays := (bodyOverlays pg ++ [id])%list;
     badge := badge pg;
     sent := sent pg |}.

(** The inner loop of [maskElement]: an overlay for each rectangle of the
    range that has a width and a height. *)
Definition mask_rects (element : node) (type : string) (pg : Page) (rects : list Rect)
  : Page :=
  fold_left (fun pg rect => if visible rect then addOverlay pg element rect type else pg)
            rects pg.

(** The body of the loop of [maskElement] for one finding: the value is
    looked up with [indexOf] in [text], the range from there over the length
    of the value gives the rectangles.  (The offsets stay within the text
    node, so that none of the range operations throws.) *)
Definition mask_finding (element : node) (text : jsstring) (pg : Page) (pii : Finding)
  : Page :=
  match indexOf text (value pii) with
  | None => pg
  | Some index =>
      mask_rects element (type pii) pg
        (rangeClientRects (document pg) element index (index + length (value pii)))
  end.

(** [maskElement(element, piiItems, true)].  The branch for images has no
    caller: [scanImages] is commented out. *)
Definition maskElement (pg : Page) (element : node) (piiItems : list Finding) : Page :=
  let text := textContent (document pg) element in
  fold_left (mask_finding element text) piiItems pg.

(** Every overlay of the registry. *)
Definition all_overlays (m : gmap node (list overlay_id)) : list overlay_id :=
  concat (map snd (map_to_list m)).

(** [o?.parentNode?.removeChild(o)] for each [o] of [ids]. *)
Definition removeChildren (ids body : list overlay_id) : list overlay_id :=
  List.filter (fun o => negb (bool_decide (o ∈ ids))) body.

(** [clearAllMasks()]. *)
Definition clearAllMasks (pg : Page) : Page :=
  let st := state pg in
  {| state := with_processedNodes (with_maskedElements st ∅) ∅;
     document := document pg;
     overlayElements := overlayElements pg;
     nextOverlay := nextOverlay pg;
     bodyOverlays := removeChildren (all_overlays (maskedElements st)) (bodyOverlays pg);
     badge := None;
     sent := sent pg |}.

(** [document.contains(node)] for an element, and of its parent for any
    other node. *)
Definition isAttached (d : Dom) (n : node) : bool :=
  if (nodeType d n =? 1)%N then documentContains d n
  else match parentElement d n with
       | Some parent => documentContains d parent
       | None => false
       end.

(** [Object.assign(overlay.style, {left, top, width, height})]. *)
Definition restyle (rect : Rect) (o : Overlay) : Overlay :=
  {| piiType := piiType o; style := rect |}.

(** The same for each overlay of [ids], as in [overlays.forEach]. *)
Definition move_overlays (rect : Rect) (ids : list overlay_id)
    (els : gmap overlay_id Overlay) : gmap overlay_id Overlay :=
  fold_left (fun els id => alter (restyle rect) id els) ids els.

(** The callback of [state.maskedElements.forEach] in
    [updateOverlayPositions]. *)
Definition reposition_entry (pg : Page) (entry : node * list overlay_id) : Page :=
  let '(n, overlays) := entry in
  if negb (isAttached (document pg) n) then
    with_bodyOverlays
      (with_state pg (with_maskedElements (state pg) (delete n (maskedElements (state pg)))))
      (removeChildren overlays (bodyOverlays pg))
  else
    match boundingRect (document pg) n with
    | Some rect =>
        if visible rect
        then with_overlayElements pg (move_overlays rect overlays (overlayElements pg))
        else pg
    | None => pg
    end.

(** [updateOverlayPositions()]. *)
Definition updateOverlayPositions (pg : Page) : Page :=
  fold_left reposition_entry (map_to_list (maskedElements (state pg))) pg.

(** ** The scan pass *)

(** [resetPrivacyData()]. *)
Definition resetPrivacyData (st : State) : State :=
  with_privacy st 100 (map (fun '(key, _) => (key, 0%N)) (piiCounts st)).

(** [calculatePrivacyScore()]. *)
Definition calculatePrivacyScore (st : State) : State :=
  with_privacy st (privacy_score (piiCounts st)) (piiCounts st).

(** [updatePrivacyBadge()]. *)
Definition updatePrivacyBadge (pg : Page) : Page :=
  let st := state pg in
  if isEnabled st then
    with_badge pg
      (Some {| badgeScore := privacyScore st;
               badgeLabel := score_label (privacyScore st);
               badgeTotal := fold_left (fun sum entry => (sum + snd entry)%N) (piiCounts st) 0%N |})
  else pg.

(** [updateBadge(count)]. *)
Definition updateBadge (pg : Page) (count : nat) : Page :=
  let st := state pg in
  with_sent pg
    (sent pg ++ [ {| t_count := count; t_privacyScore := privacyScore st;
                     t_piiCounts := piiCounts st |} ])%list.

(** The properties an object made by [Object.fromEntries] inherits from
    [Object.prototype].  Each of them is a function, but [__proto__], an
    accessor whose getter gives the prototype: all of them read as a truthy
    value. *)
Definition Object_prototype : list string :=
  [ "constructor"; "__defineGetter__"; "__defineSetter__"; "hasOwnProperty";
    "__lookupGetter__"; "__lookupSetter__"; "isPrototypeOf"; "propertyIsEnumerable";
    "toString"; "valueOf"; "__proto__"; "toLocaleString" ].

(** [obj[key]] as a condition, for an object whose own properties are
    booleans: the own property when there is one, else the property
    inherited from [Object.prototype], else [undefined]. *)
Definition truthy_at (obj : gmap string bool) (key : string) : bool :=
  match obj !! key with
  | Some b => b
  | None => existsb (String.eqb key) Object_prototype
  end.

(** [obj[key] = value] for a boolean: an own property is written or made,
    but for the key [__proto__] of an object that does not own it: there the
    assignment runs the setter of [Object.prototype], which ignores a value
    that is neither an object nor [null]. *)
Definition prop_assign (obj : gmap string bool) (key : string) (value : bool)
  : gmap string bool :=
  match obj !! key with
  | Some _ => <[key := value]> obj
  | None => if String.eqb key "__proto__" then obj else <[key := value]> obj
  end.

(** [state.enabledFilters[item.type]] as a condition. *)
Definition filter_enabled (st : State) (item : Finding) : bool :=
  truthy_at (enabledFilters st) (type item).

(** [if (state.piiCounts.hasOwnProperty(item.type)) state.piiCounts[item.type]++]. *)
Definition count_finding (counts : list (string * N)) (item : Finding) : list (string * N) :=
  if hasOwnProperty counts (type item) then prop_update N.succ counts (type item)
  else counts.

(** The body of the loop of [scanPage] once the detector has answered
    [piiItems] for the node [n]. *)
Definition scan_node_result (pg : Page) (n : node) (piiItems : list Finding)
    (totalFound : nat) : Page * nat :=
  let filteredItems := List.filter (filter_enabled (state pg)) piiItems in
  let '(pg, totalFound) :=
    match filteredItems with
    | [] => (pg, totalFound)
    | _ =>
        let pg := maskElement pg n filteredItems in
        let st := state pg in
        (with_state pg
           (with_privacy st (privacyScore st)
              (fold_left count_finding filteredItems (piiCounts st))),
         (totalFound + length filteredItems)%nat)
    end in
  let st := state pg in
  (with_state pg (with_processedNodes st ({[ n ]} ∪ processedNodes st)), totalFound).

(** What follows the loop of [scanPage]. *)
Definition scan_finish (pg : Page) (totalFound : nat) : Page :=
  let pg := with_state pg (calculatePrivacyScore (state pg)) in
  updateBadge (updatePrivacyBadge pg) totalFound.

(** A pass of [scanPage] suspended in [await state.detector.detectPII(text)]
    for the node [awaited]: [answer] is what the detector's promise resolves
    to, [todo] the nodes after it. *)
Record Pass : Type :=
  { awaited : node; answer : list Finding; todo : list node; totalFound : nat }.

(** The loop of [scanPage] from the node at the head of [nodes], up to the
    first [await] that waits for the host or to the end of the pass.  When
    the detector answers without the host (the text is blank, or the patterns
    are used), the pass goes on within the same turn of the event loop. *)
Fixpoint scan_loop (h : Host) (pg : Page) (nodes : list node) (totalFound : nat)
  : Page * option Pass :=
  match nodes with
  | [] => (scan_finish pg totalFound, None)
  | n :: nodes' =>
      let st := state pg in
      if bool_decide (n ∈ processedNodes st) then scan_loop h pg nodes' totalFound
      else
        let text := textContent (document pg) n in
        if (length (trim text) <? CONFIG.MIN_TEXT_LENGTH)%nat
        then scan_loop h pg nodes' totalFound
        else
          match detector st with
          | None => (pg, None)   (* a TypeError ends the pass *)
          | Some d =>
              let '(piiItems, d, calls) := detectPII h d (Str text) in
              let pg := with_state pg (with_detector st (Some d)) in
              if existsb is_host_call calls then
                (pg, Some {| awaited := n; answer := piiItems; todo := nodes';
                             totalFound := totalFound |})
              else
                let '(pg, totalFound) := scan_node_result pg n piiItems totalFound in
                scan_loop h pg nodes' totalFound
          end
  end.

(** The pass goes on when the detector's promise resolves. *)
Definition scan_resume (h : Host) (pg : Page) (p : Pass) : Page * option Pass :=
  let '(pg, totalFound) := scan_node_result pg (awaited p) (answer p) (totalFound p) in
  scan_loop h pg (todo p) totalFound.

(** [scanPage()], up to its first suspension. *)
Definition scanPage (h : Host) (pg : Page) : Page * option Pass :=
  if negb (isEnabled (state pg)) || negb (isInitialized (state pg)) then (pg, None)
  else
    let pg := clearAllMasks pg in
    let pg := with_state pg (resetPrivacyData (state pg)) in
    scan_loop h pg (getTextNodes (document pg)) 0.

(** ** The content script as a transition system *)

(** The page and the passes of [scanPage] that are suspended. *)
Record Sys : Type := { page : Page; running : list Pass }.

(** The messages of [chrome.runtime.onMessage]. *)
Inductive Request : Type :=
| get_status
| toggle (enabled : bool)
| rescan
| filter_change (piiType : string) (enabled : bool).

(** What the event loop runs, one event at a time. *)
Inductive Event : Type :=
| ScanTimer                    (* [scanPage] called at start-up or by the debounce timer *)
| Message (request : Request)
| Resolve (i : nat)            (* the detector answers the [i]-th suspended pass *)
| Reposition                   (* the animation frame after a scroll or a resize *)
| DomChange (d : Dom).         (* the document changes *)

Definition option_list {A} (o : option A) : list A :=
  match o with Some a => [a] | None => [] end.

(** A call of [scanPage()]: a pass that gets suspended joins the others. *)
Definition start_scan (h : Host) (s : Sys) : Sys :=
  let '(pg, p) := scanPage h (page s) in
  {| page := pg; running := (running s ++ option_list p)%list |}.

(** The handlers of the message listener. *)
Definition on_message (h : Host) (s : Sys) (request : Request) : Sys :=
  match request with
  | get_status => s
  | toggle enabled =>
      let pg := with_state (page s) (with_isEnabled (state (page s)) enabled) in
      if enabled then start_scan h {| page := pg; running := running s |}
      else {| page := clearAllMasks pg; running := running s |}
  | rescan => start_scan h s
  | filter_change piiType enabled =>
      let st := state (page s) in
      {| page := with_state (page s)
                   (with_enabledFilters st (prop_assign (enabledFilters st) piiType enabled));
         running := running s |}
  end.

Definition step (h : Host) (s : Sys) (e : Event) : Sys :=
  match e with
  | ScanTimer => start_scan h s
  | Message request => on_message h s request
  | Resolve i =>
      match running s !! i with
      | None => s
      | Some p =>
          let '(pg, p') := scan_resume h (page s) p in
          {| page := pg;
             running := (take i (running s) ++ option_list p' ++ drop (S i) (running s))%list |}
      end
  | Reposition => {| page := updateOverlayPositions (page s); running := running s |}
  | DomChange d => {| page := with_document (page s) d; running := running s |}
  end.

Definition run (h : Host) (s : Sys) (events : list Event) : Sys :=
  fold_left (step h) events s.

(** The response to [get_status]. *)
Record Status : Type :=
  { s_enabled : bool; s_initialized : bool; s_maskedCount : nat;
    s_privacyScore : Z; s_piiCounts : list (string * N) }.

Definition get_status_response (pg : Page) : Status :=
  let st := state pg in
  {| s_enabled := isEnabled st;
     s_initialized := isInitialized st;
     s_maskedCount :=
       fold_left (fun sum arr => (sum + length arr)%nat)
                 (map snd (map_to_list (maskedElements st))) 0%nat;
     s_privacyScore := privacyScore st;
     s_piiCounts := piiCounts st |}.

(** ** The score as the specification words it *)

(** What one iteration of the loop of [calculatePrivacyScore] subtracts for a
    type of weight [w] found [count] times. *)
Definition penalty (w : Q) (count : N) : Q :=
  if (0 <? count)%N then
    if (1 <? count)%N then (w + Qmin ((num count - 1) * (w * (3 # 10))) w)%Q else w
  else 0%Q.

(** The sum of what the loop subtracts over the entries of [state.piiCounts]. *)
Fixpoint penalties (l : list (string * N)) : Q :=
  match l with
  | [] => 0%Q
  | (type, count) :: l' =>
      match prop_get CONFIG.SCORE_WEIGHTS type with
      | Some w => (penalty w count + penalties l')%Q
      | None => penalties l'
      end
  end.

(** The same sum along a table of weights. *)
Fixpoint table_penalties (counts : string -> N) (table : list (string * Q)) : Q :=
  match table with
  | [] => 0%Q
  | (category, weight) :: table' =>
      (penalty weight (counts category) + table_penalties counts table')%Q
  end.

(** The weight table of the specification, in its order. *)
Definition spec_weights : list (string * Q) :=
  [ ("password", 25%Q); ("ssn", 20%Q); ("credit_card", 20%Q); ("api_key", 15%Q);
    ("address", 10%Q); ("email", 10%Q); ("phone", 8%Q) ].

(** "For each category with count > 0, subtract that category's fixed weight
    once; if count > 1, additionally subtract min((count-1) * weight * 0.3,
    weight)". *)
Definition spec_subtract (score : Q) (weight : Q) (count : N) : Q :=
  let score := if (0 <? count)%N then (score - weight)%Q else score in
  if (1 <? count)%N
  then (score - Qmin ((num count - 1) * weight * (3 # 10)) weight)%Q
  else score.

(** "Clamp the result to [0,100]". *)
Definition clamp (x : Q) : Q := Qmax 0 (Qmin 100 x).

(** "Start at 100 ... Clamp the result to [0,100] and round to the nearest
    integer". *)
Definition spec_score (counts : string -> N) : Z :=
  let score :=
    fold_left (fun score '(category, weight) => spec_subtract score weight (counts category))
              spec_weights 100%Q in
  Math_round (clamp score).

(** The counts [{type: n}], every other type at 0. *)
Definition only (type : string) (n : N) : string -> N :=
  fun t => if String.eqb t type then n else 0%N.

(** The counts [counts] with the count of [type] set to [n]. *)
Definition set_count (counts : string -> N) (type : string) (n : N) : string -> N :=
  fun t => if String.eqb t type then n else counts t.

(** ** Predicates on matches *)

(** [y] is [x] moved to the right over some code units. *)
Definition extends (x y : cursor) : Prop :=
  exists w, rest x = (w ++ rest y)%list /\ pos y = (pos x + length w)%nat.

(** The expression can match the empty string. *)
Fixpoint nullable (r : regex) : bool :=
  match r with
  | Chars _ => false
  | WordBoundary => true
  | Seq r1 r2 => nullable r1 && nullable r2
  | Repeat lo _ r' => Nat.eqb lo 0 || nullable r'
  end.

(** A matcher that hands to its continuation a position to the right of where
    it starts, strictly so when [empty] is false. *)
Definition advancing (empty : bool)
    (m : (cursor -> option cursor) -> cursor -> option cursor) : Prop :=
  forall k x e,
    m k x = Some e ->
    exists y, extends x y /\ (empty = false -> (pos x < pos y)%nat) /\ k y = Some e.

(** The invariant of a finding of the specification's data model. *)
Definition finding_within (text : jsstring) (f : Finding) : Prop :=
  value f = substring text (start f) (end_ f)
  /\ (0 <= start f < end_ f)%Z
  /\ (end_ f <= Z.of_nat (length text))%Z
  /\ end_ f = (start f + Z.of_nat (length (value f)))%Z.

(** A result of [matchAll] lies in the input, at or after the position [i]
    of a suffix [s] of it. *)
Definition match_within (i : nat) (s : jsstring) (m : RegExpMatch) : Prop :=
  (i <= index m)%nat
  /\ matched m = take (length (matched m)) (drop (index m - i) s)
  /\ (0 < length (matched m))%nat
  /\ (index m + length (matched m) <= i + length s)%nat.

(** ** Inputs of the detector *)

(** "The empty string, null/undefined, or only whitespace characters". *)
Definition blank_input (text : JsText) : Prop :=
  match text with
  | Undefined | Null => True
  | Str s => Forall (fun c => is_white_space c = true) s
  end.

(** A call that is neither a prompt of the model nor a run of the patterns. *)
Definition quiet_call (c : Call) : Prop :=
  match c with
  | CallPrompt _ | CallRegexFallback _ => False
  | _ => True
  end.

(** A detector in the model-backed mode, with its session. *)
Definition model_backed (d : PiiDetector) (sess : nat) : Prop :=
  detectorInitialized d = true /\ useRegexFallback d = false /\ session d = Some sess.

(** A host whose session never answers: every prompt is rejected. *)
Definition host_rejecting : Host :=
  {| availability := Some "available";
     create := Some 0%nat;
     prompt := fun _ _ => None;
     JSON_parse := fun _ => None |}.

(** A host whose session answers with text that is not JSON. *)
Definition host_garbled : Host :=
  {| availability := Some "available";
     create := Some 0%nat;
     prompt := fun _ _ => Some (js "I found one email address.");
     JSON_parse := fun _ => None |}.

(** The detector after a successful [init()] on such a host. *)
Definition detector_ready : PiiDetector :=
  {| session := Some 0%nat; useRegexFallback := false; detectorInitialized := true |}.

(** ** Occurrences of a value in a text *)

(** [v] occurs in [text] at the offset [j]. *)
Definition occurs (text v : jsstring) (j : nat) : Prop :=
  take (length v) (drop j text) = v.

(** A layout whose rectangles tell the range they cover: one line, a code
    unit one pixel wide. *)
Definition dom_line (text : jsstring) : Dom :=
  {| nodeType := fun _ => 3%N;
     parentElement := fun _ => Some 0%nat;
     tagName := fun _ => "p";
     hasOverlayClass := fun _ => false;
     documentContains := fun _ => true;
     textContent := fun _ => text;
     bodyTextNodes := [1%nat];
     rangeClientRects := fun _ a b =>
       [ {| left := inject_Z (Z.of_nat a); top := 0;
            width := inject_Z (Z.of_nat b - Z.of_nat a); height := 1 |} ];
     boundingRect := fun _ =>
       Some {| left := 0; top := 0; width := inject_Z (Z.of_nat (length text));
               height := 1 |} |}.

Definition state_initial (d : option PiiDetector) : State :=
  {| detector := d;
     isEnabled := true;
     isInitialized := true;
     processedNodes := ∅;
     maskedElements := ∅;
     enabledFilters := list_to_map (map (fun type => (type, true)) CONFIG.PII_TYPES);
     privacyScore := 100;
     piiCounts := zero_counts |}.

(** A page with one paragraph of text, after start-up. *)
Definition page_line (text : jsstring) (d : option PiiDetector) : Page :=
  {| state := state_initial d;
     document := dom_line text;
     overlayElements := ∅;
     nextOverlay := 0;
     bodyOverlays := [];
     badge := None;
     sent := [] |}.

(** A finding whose value occurs twice in the text, with the offsets of the
    second occurrence. *)
Definition text_twice : jsstring := js "ab ab".
Definition finding_second : Finding :=
  {| type := "email"; value := js "ab"; start := 3; end_ := 5 |}.

(** ** Frames *)

(** [pg'] is [pg] with some more overlays, each of a type satisfying [P]:
    nothing but the overlay registry, the body's overlays and the overlay
    elements differ, and an overlay element is as before or new with such a
    type. *)
Definition adds_masks (P : string -> Prop) (pg pg' : Page) : Prop :=
  state pg' = with_maskedElements (state pg) (maskedElements (state pg'))
  /\ document pg' = document pg
  /\ badge pg' = badge pg
  /\ sent pg' = sent pg
  /\ forall id o,
       overlayElements pg' !! id = Some o ->
       overlayElements pg !! id = Some o \/ P (piiType o).

(** ** Repositioning *)

(** The rectangle the overlays of an attached unit are moved to, when there
    is one with a width and a height. *)
Definition target_rect (d : Dom) (n : node) : option Rect :=
  match boundingRect d n with
  | Some rect => if visible rect then Some rect else None
  | None => None
  end.

(** The overlay [o] is on the list of no unit but [n]. *)
Definition sole_owner (m : gmap node (list overlay_id)) (o : overlay_id) (n : node) : Prop :=
  forall n' overlays', m !! n' = Some overlays' -> o ∈ overlays' -> n' = n.

(** A unit that is attached and laid out with no width: its rectangle is
    recomputed as the empty rectangle at (5, 7). *)
Definition dom_collapsed : Dom :=
  {| nodeType := fun _ => 3%N;
     parentElement := fun _ => Some 0%nat;
     tagName := fun _ => "p";
     hasOverlayClass := fun _ => false;
     documentContains := fun _ => true;
     textContent := fun _ => js "a.b@example.com";
     bodyTextNodes := [1%nat];
     rangeClientRects := fun _ _ _ => [];
     boundingRect := fun _ => Some {| left := 5; top := 7; width := 0; height := 0 |} |}.

(** The page after a scan masked the unit 1 with the overlay 0, and after the
    unit collapsed. *)
Definition page_collapsed : Page :=
  {| state :=
       with_maskedElements (state_initial (Some detector_ready)) {[ 1%nat := [0%nat] ]};
     document := dom_collapsed;
     overlayElements :=
       {[ 0%nat := {| piiType := "email";
                      style := {| left := 0; top := 0; width := 15; height := 1 |} |} ]};
     nextOverlay := 1;
     bodyOverlays := [0%nat];
     badge := None;
     sent := [] |}.

(** ** Triggers *)

(** The events that call [scanPage]: the timer, a rescan request and a
    toggle to the enabled state. *)
Definition calls_scanPage (e : Event) : bool :=
  match e with
  | ScanTimer | Message rescan | Message (toggle true) => true
  | _ => false
  end.

(** The content script after start-up on a page with one paragraph, the
    detector in the model-backed mode. *)
Definition sys_model (text : jsstring) : Sys :=
  {| page := page_line text (Some detector_ready); running := [] |}.

(** The same with the detector fallen back to the patterns. *)
Definition detector_fallback : PiiDetector :=
  {| session := None; useRegexFallback := true; detectorInitialized := true |}.

Definition sys_fallback (text : jsstring) : Sys :=
  {| page := page_line text (Some detector_fallback); running := [] |}.

Definition text_email : jsstring := js "write to a.b@example.com".


(** ** Tactics *)

(** Membership in a list given by its head and tail. *)
Ltac in_cons := rewrite ?elem_of_cons, ?elem_of_nil; intuition congruence.

(** A matcher that looks at its continuation only at positions to the right
    of where it starts. *)
Definition local_matcher (m : (cursor -> option cursor) -> cursor -> option cursor) : Prop :=
  forall k1 k2 x, (forall y, extends x y -> k1 y = k2 y) -> m k1 x = m k2 x.

(** ** The overlay registry is well formed *)

(** The overlays of the registry were made before, and no overlay is on the
    lists of two units. *)
Definition registry_wf (pg : Page) : Prop :=
  (forall n overlays o,
      maskedElements (state pg) !! n = Some overlays -> o ∈ overlays ->
      (o < nextOverlay pg)%nat)
  /\ (forall n n' overlays overlays' o,
         maskedElements (state pg) !! n = Some overlays ->
         maskedElements (state pg) !! n' = Some overlays' ->
         o ∈ overlays -> o ∈ overlays' -> n = n').

(** ** The language of a pattern *)

(** The words a pattern matches, its word boundaries left aside.  A
    quantifier [{lo,hi}] with [hi < lo], which JavaScript rejects, stands for
    exactly [lo] iterations, as in the matcher. *)
Fixpoint lang (r : regex) (w : list N) : Prop :=
  match r with
  | Chars cs => exists c, w = [c] /\ in_charset cs c = true
  | WordBoundary => w = []
  | Seq r1 r2 => exists w1 w2, w = w1 ++ w2 /\ lang r1 w1 /\ lang r2 w2
  | Repeat lo hi r' =>
      exists ws, w = concat ws /\ Forall (lang r') ws /\ (lo <= length ws)%nat
                 /\ match hi with
                    | Some h => (length ws <= Nat.max lo h)%nat
                    | None => True
                    end
  end.

(** A matcher whose matches are words of the language of [r]. *)
Definition matches_lang (r : regex)
    (m : (cursor -> option cursor) -> cursor -> option cursor) : Prop :=
  forall k x e,
    m k x = Some e ->
    exists y w, rest x = w ++ rest y /\ pos y = (pos x + length w)%nat
                /\ lang r w /\ k y = Some e.

(** The least and the greatest length of a word of a pattern ([None]: no
    bound). *)
Fixpoint min_len (r : regex) : nat :=
  match r with
  | Chars _ => 1
  | WordBoundary => 0
  | Seq r1 r2 => min_len r1 + min_len r2
  | Repeat lo _ r' => lo * min_len r'
  end.

Fixpoint max_len (r : regex) : option nat :=
  match r with
  | Chars _ => Some 1%nat
  | WordBoundary => Some 0%nat
  | Seq r1 r2 =>
      match max_len r1, max_len r2 with
      | Some a, Some b => Some (a + b)%nat
      | _, _ => None
      end
  | Repeat lo hi r' =>
      match hi, max_len r' with
      | Some h, Some a => Some (Nat.max lo h * a)%nat
      | _, _ => None
      end
  end.

(** The code units that occur in the words of a pattern. *)
Fixpoint alphabet (r : regex) : list (N * N) :=
  match r with
  | Chars cs => cs
  | WordBoundary => []
  | Seq r1 r2 => alphabet r1 ++ alphabet r2
  | Repeat _ _ r' => alphabet r'
  end.

(** The matches of [matchAll] follow one another from the position [i] on:
    each starts at or after the end of the one before. *)
Fixpoint chained (i : nat) (ms : list RegExpMatch) : Prop :=
  match ms with
  | [] => True
  | m :: ms' => (i <= index m)%nat /\ chained (index m + length (matched m)) ms'
  end.

(** The same for findings, on their offsets. *)
Fixpoint findings_chained (i : Z) (fs : list Finding) : Prop :=
  match fs with
  | [] => True
  | f :: fs' => (i <= start f)%Z /\ findings_chained (end_ f) fs'
  end.

(** The findings of one type, in the order of the result. *)
Definition of_type (t : string) (fs : list Finding) : list Finding :=
  List.filter (fun f => String.eqb (type f) t) fs.

(** ** The rest of the detector *)

(** [destroy()]: the session, when there is one, is released and forgotten
    (an error of [session.destroy()] is caught and logged). *)
Definition destroy (d : PiiDetector) : PiiDetector :=
  match session d with
  | Some _ => {| session := None; useRegexFallback := useRegexFallback d;
                 detectorInitialized := detectorInitialized d |}
  | None => d
  end.

(** A call of [init()]: [LanguageModel.availability] or [LanguageModel.create]. *)
Definition init_call (c : Call) : Prop :=
  match c with
  | CallAvailability | CallCreate => True
  | _ => False
  end.

(** [init()] fails: the availability is rejected or ['unavailable'], or the
    session cannot be created. *)
Definition init_fails (h : Host) : Prop :=
  availability h = None \/ availability h = Some "unavailable" \/ create h = None.

(** A host without a model. *)
Definition host_unavailable : Host :=
  {| availability := Some "unavailable";
     create := Some 0%nat;
     prompt := fun _ _ => Some (js "{}");
     JSON_parse := fun _ => Some (ParsedValue (Some [])) |}.

(** ** The page is well formed *)

(** The overlay registry and the overlays of the body go together: the
    registry is well formed, no list holds an overlay twice, and the overlays
    of the body are those of the registry, each once and each an element
    made by [createOverlay]. *)
Definition page_wf (pg : Page) : Prop :=
  registry_wf pg
  /\ (forall n overlays, maskedElements (state pg) !! n = Some overlays -> NoDup overlays)
  /\ NoDup (bodyOverlays pg)
  /\ (forall o, o ∈ bodyOverlays pg
                <-> exists n overlays,
                      maskedElements (state pg) !! n = Some overlays /\ o ∈ overlays)
  /\ (forall o, o ∈ bodyOverlays pg -> is_Some (overlayElements pg !! o)).

(** [addOverlay] for each rectangle and type of a list, in order. *)
Definition add_all (pg : Page) (element : node) (plan : list (Rect * string)) : Page :=
  fold_left (fun pg '(rect, type) => addOverlay pg element rect type) plan pg.

(** The overlays [maskElement] makes for a unit: for each finding whose value
    occurs in the text, the rectangles of its first occurrence that have a
    width and a height. *)
Definition mask_plan (d : Dom) (element : node) (text : jsstring) (piiItems : list Finding)
  : list (Rect * string) :=
  flat_map
    (fun pii =>
       match indexOf text (value pii) with
       | None => []
       | Some index =>
           map (fun rect => (rect, type pii))
               (List.filter visible
                  (rangeClientRects d element index (index + length (value pii))))
       end)
    piiItems.

(** A page without masks, as the script finds it when it starts: the
    registry is [new Map()] and the body has no overlay. *)
Definition no_masks (pg : Page) : Prop :=
  maskedElements (state pg) = ∅ /\ bodyOverlays pg = [].

(** ** The detector without the model *)

(** A detector that is initialised and answers from the patterns: the model
    is given up, or there is no session. *)
Definition answers_locally (d : PiiDetector) : Prop :=
  detectorInitialized d = true /\ (useRegexFallback d = true \/ session d = None).

(** ** A pass with the patterns, in closed form *)

(** The findings of the patterns that the filters keep, for a unit. *)
Definition kept_findings (filters : gmap string bool) (d : Dom) (n : node) : list Finding :=
  List.filter (fun item => truthy_at filters (type item)) (regexFallback (textContent d n)).

(** The findings kept in a pass over [nodes], in the order of the pass. *)
Definition pass_findings (filters : gmap string bool) (d : Dom) (nodes : list node)
  : list Finding :=
  flat_map (kept_findings filters d) nodes.

(** The overlays of a pass over [nodes], in the order of the pass. *)
Definition pass_plan (filters : gmap string bool) (d : Dom) (nodes : list node)
  : list (Rect * string) :=
  flat_map (fun n => mask_plan d n (textContent d n) (kept_findings filters d n)) nodes.

(** [state.piiCounts] with every count at 0, as [resetPrivacyData] leaves it. *)
Definition zeroed (counts : list (string * N)) : list (string * N) :=
  map (fun '(key, _) => (key, 0%N)) counts.

(** The badge [updatePrivacyBadge] shows for a score and counts. *)
Definition badge_of (score : Z) (counts : list (string * N)) : Badge :=
  {| badgeScore := score;
     badgeLabel := score_label score;
     badgeTotal := fold_left (fun sum entry => (sum + snd entry)%N) counts 0%N |}.

(** * Properties *)

(** ** The privacy score *)

Section Score.

Local Open Scope Q_scope.

Lemma score_step_penalty (score : Q) (type : string) (count : N) (w : Q) :
  prop_get CONFIG.SCORE_WEIGHTS type = Some w ->
  ~ w == 0 ->
  score_step score (type, count) == score - penalty w count.
Proof.
  intros Hw Hnz. unfold score_step, penalty. rewrite Hw.
  assert (truthyQ w = true) as ->.
  { unfold truthyQ. destruct (Qeq_bool w 0) eqn:E; [|reflexivity].
    apply Qeq_bool_iff in E. contradiction. }
  rewrite andb_true_r.
  destruct (0 <? count)%N; [|ring].
  destruct (1 <? count)%N; ring.
Qed.

Lemma score_step_unknown (score : Q) (type : string) (count : N) :
  prop_get CONFIG.SCORE_WEIGHTS type = None ->
  score_step score (type, count) = score.
Proof. intros Hw. unfold score_step. now rewrite Hw. Qed.

(** Every weight of the table is positive. *)
Lemma weight_positive (type : string) (w : Q) :
  prop_get CONFIG.SCORE_WEIGHTS type = Some w -> 0 < w.
Proof.
  unfold CONFIG.SCORE_WEIGHTS. cbn [prop_get].
  repeat (match goal with
          | |- context [String.eqb ?a ?b] => destruct (String.eqb a b)
          end; [intros [= <-]; reflexivity|]).
  discriminate.
Qed.

Lemma num_le (a b : N) : (a <= b)%N -> num a <= num b.
Proof. intros H. unfold num. rewrite <- Zle_Qle. lia. Qed.

Lemma num_pred_nonneg (count : N) : (1 <= count)%N -> 0 <= num count - 1.
Proof.
  intros H. apply (num_le 1 count) in H. change (num 1) with 1 in H. lra.
Qed.

Lemma repeat_term_nonneg (w : Q) (count : N) :
  0 <= w -> (1 <= count)%N -> 0 <= (num count - 1) * (w * (3 # 10)).
Proof.
  intros Hw H. apply Qmult_le_0_compat; [now apply num_pred_nonneg|].
  apply Qmult_le_0_compat; [assumption|discriminate].
Qed.

Lemma penalty_nonneg (w : Q) (count : N) : 0 <= w -> 0 <= penalty w count.
Proof.
  intros Hw. unfold penalty.
  destruct (N.ltb_spec 0 count); [|apply Qle_refl].
  destruct (N.ltb_spec 1 count); [|exact Hw].
  pose proof (repeat_term_nonneg w count Hw ltac:(lia)) as Hr.
  pose proof (Q.min_glb _ _ _ Hr Hw). lra.
Qed.

(** The penalty of a type grows with its count. *)
Lemma penalty_mono (w : Q) (a b : N) :
  0 <= w -> (a <= b)%N -> penalty w a <= penalty w b.
Proof.
  intros Hw Hab.
  destruct (N.ltb_spec 0 a) as [Ha|Ha].
  2:{ replace a with 0%N by lia. apply (penalty_nonneg w b Hw). }
  unfold penalty.
  destruct (N.ltb_spec 0 a); [|lia].
  destruct (N.ltb_spec 0 b); [|lia].
  assert (Hk : 0 <= w * (3 # 10)) by (apply Qmult_le_0_compat; [assumption|discriminate]).
  destruct (N.ltb_spec 1 a) as [Ha1|Ha1]; destruct (N.ltb_spec 1 b) as [Hb1|Hb1]; try lia.
  - apply Qplus_le_r. apply Q.min_le_compat_r.
    apply Qmult_le_compat_r; [|assumption].
    apply Qplus_le_l. apply num_le. lia.
  - pose proof (repeat_term_nonneg w b Hw ltac:(lia)) as Hr.
    pose proof (Q.min_glb _ _ _ Hr Hw). lra.
  - apply Qle_refl.
Qed.

Lemma score_step_mono (s s' : Q) (type : string) (a b : N) :
  s' <= s -> (a <= b)%N -> score_step s' (type, b) <= score_step s (type, a).
Proof.
  intros Hs Hab.
  destruct (prop_get CONFIG.SCORE_WEIGHTS type) as [w|] eqn:Hw.
  - pose proof (weight_positive type w Hw) as Hpos.
    assert (~ w == 0) as Hnz by (intros E; rewrite E in Hpos; discriminate).
    rewrite !(score_step_penalty _ type _ w Hw Hnz).
    apply Qplus_le_compat; [assumption|].
    apply Qopp_le_compat. apply penalty_mono; [apply Qlt_le_weak|]; assumption.
  - rewrite !score_step_unknown by assumption. assumption.
Qed.

(** Counts that grow entry by entry lower the score before rounding. *)
Lemma raw_score_mono (l l' : list (string * N)) :
  Forall2 (fun e e' => fst e = fst e' /\ (snd e <= snd e')%N) l l' ->
  forall s s', s' <= s -> fold_left score_step l' s' <= fold_left score_step l s.
Proof.
  induction 1 as [|[t a] [t' b] l l' [Ht Hab] _ IH]; intros s s' Hs; cbn [fold_left].
  - assumption.
  - cbn in Ht, Hab. subst t'. apply IH. apply score_step_mono; assumption.
Qed.

Lemma Math_round_mono (x y : Q) : x <= y -> (Math_round x <= Math_round y)%Z.
Proof.
  intros H. unfold Math_round. apply Qfloor_resp_le. apply Qplus_le_l. assumption.
Qed.

Lemma privacy_score_mono (l l' : list (string * N)) :
  Forall2 (fun e e' => fst e = fst e' /\ (snd e <= snd e')%N) l l' ->
  (privacy_score l' <= privacy_score l)%Z.
Proof.
  intros H. unfold privacy_score, raw_score.
  pose proof (Math_round_mono _ _ (raw_score_mono l l' H 100 100 (Qle_refl _))).
  lia.
Qed.

Lemma privacy_score_range (l : list (string * N)) : (0 <= privacy_score l <= 100)%Z.
Proof. unfold privacy_score. lia. Qed.

Lemma counts_of_set_le (f : string -> N) (type : string) (n m : N) :
  (n <= m)%N ->
  Forall2 (fun e e' => fst e = fst e' /\ (snd e <= snd e')%N)
          (counts_of (set_count f type n)) (counts_of (set_count f type m)).
Proof.
  intros H. unfold counts_of.
  induction CONFIG.PII_TYPES as [|t ts IH]; cbn [map]; constructor; [|exact IH].
  cbn. split; [reflexivity|]. unfold set_count. destruct (String.eqb t type); lia.
Qed.

Lemma fold_score_step (l : list (string * N)) :
  forall s, fold_left score_step l s == s - penalties l.
Proof.
  induction l as [|[t c] l IH]; intros s; cbn [fold_left penalties].
  - ring.
  - rewrite IH. destruct (prop_get CONFIG.SCORE_WEIGHTS t) as [w|] eqn:Hw.
    + rewrite (score_step_penalty s t c w Hw).
      * ring.
      * pose proof (weight_positive t w Hw) as Hpos. intros E.
        rewrite E in Hpos. discriminate.
    + rewrite (score_step_unknown s t c Hw). ring.
Qed.

Lemma spec_subtract_penalty (s w : Q) (c : N) :
  spec_subtract s w c == s - penalty w c.
Proof.
  unfold spec_subtract, penalty.
  destruct (N.ltb_spec 0 c) as [H0|H0]; destruct (N.ltb_spec 1 c) as [H1|H1];
    try lia; try ring.
  assert ((num c - 1) * w * (3 # 10) == (num c - 1) * (w * (3 # 10))) as -> by ring.
  ring.
Qed.

Lemma fold_spec_subtract (f : string -> N) (l : list (string * Q)) :
  forall s,
    fold_left (fun score '(category, weight) => spec_subtract score weight (f category)) l s
    == s - table_penalties f l.
Proof.
  induction l as [|[t w] l IH]; intros s; cbn [fold_left table_penalties].
  - ring.
  - rewrite IH, spec_subtract_penalty. ring.
Qed.

Lemma clamp_compat (x y : Q) : x == y -> clamp x == clamp y.
Proof. intros E. unfold clamp. now rewrite E. Qed.

Lemma Math_round_compat (x y : Q) : x == y -> Math_round x = Math_round y.
Proof. intros E. unfold Math_round. apply Qfloor_comp. now rewrite E. Qed.

(** Rounding and then clamping to the integers 0 and 100 is clamping and
    then rounding. *)
Lemma round_then_clamp (x : Q) :
  Z.max 0 (Z.min 100 (Math_round x)) = Math_round (clamp x).
Proof.
  unfold clamp.
  destruct (Qlt_le_dec x 0) as [Hneg|Hpos].
  - assert (Qmax 0 (Qmin 100 x) == 0) as E.
    { apply Q.max_l. apply Qle_trans with x; [apply Q.le_min_r|now apply Qlt_le_weak]. }
    rewrite (Math_round_compat _ _ E).
    assert (Math_round x <= Math_round 0)%Z
      by (apply Math_round_mono; now apply Qlt_le_weak).
    change (Math_round 0) with 0%Z in *. lia.
  - destruct (Qlt_le_dec 100 x) as [Hbig|Hsmall].
    + assert (Qmax 0 (Qmin 100 x) == 100) as E.
      { rewrite Q.min_l by now apply Qlt_le_weak. apply Q.max_r. discriminate. }
      rewrite (Math_round_compat _ _ E).
      assert (Math_round 100 <= Math_round x)%Z
        by (apply Math_round_mono; now apply Qlt_le_weak).
      change (Math_round 100) with 100%Z in *. lia.
    + assert (Qmax 0 (Qmin 100 x) == x) as E.
      { rewrite Q.min_r by assumption. now apply Q.max_r. }
      rewrite (Math_round_compat _ _ E).
      pose proof (Math_round_mono _ _ Hpos). pose proof (Math_round_mono _ _ Hsmall).
      change (Math_round 0) with 0%Z in *. change (Math_round 100) with 100%Z in *. lia.
Qed.

(** [Math.round] gives an integer at distance at most one half. *)
Lemma Math_round_nearest (x : Q) : Qabs (inject_Z (Math_round x) - x) <= 1 # 2.
Proof.
  unfold Math_round. apply Qabs_Qle_condition.
  pose proof (Qfloor_le (x + (1 # 2))). pose proof (Qlt_floor (x + (1 # 2))) as Hlt.
  rewrite inject_Z_plus in Hlt. change (inject_Z 1) with 1 in Hlt.
  split; lra.
Qed.

End Score.

(** C1.  For counts of the seven PII types, [calculatePrivacyScore] returns
    what the algorithm of the specification gives: from 100, each type found
    costs its weight once and, found more than once,
    [min((count-1) * weight * 0.3, weight)] more; the result is clamped to
    [0,100] and rounded to a nearest integer.  No counts give 100, one
    password 75, two SSNs 74. *)
Theorem privacy_score_algorithm (counts : string -> N) :
  privacy_score (counts_of counts) = spec_score counts
  /\ (Qabs (inject_Z (privacy_score (counts_of counts))
            - clamp (raw_score (counts_of counts))) <= 1 # 2)%Q
  /\ privacy_score (counts_of (fun _ => 0%N)) = 100%Z
  /\ privacy_score (counts_of (only "password" 1)) = 75%Z
  /\ privacy_score (counts_of (only "ssn" 2)) = 74%Z.
Proof.
  split; [|split; [|repeat split; reflexivity]].
  - unfold privacy_score, spec_score. rewrite round_then_clamp.
    apply Math_round_compat, clamp_compat.
    unfold raw_score. rewrite fold_score_step, fold_spec_subtract.
    unfold counts_of, CONFIG.PII_TYPES, spec_weights.
    cbn [map penalties table_penalties prop_get CONFIG.SCORE_WEIGHTS String.eqb
         Ascii.eqb Bool.eqb].
    ring.
  - unfold privacy_score. rewrite round_then_clamp. apply Math_round_nearest.
Qed.

(** C6.  Raising the count of one type, the others fixed, never raises the
    score, and the score is an integer between 0 and 100. *)
Theorem privacy_score_monotone (counts : string -> N) (type : string) (n m : N) :
  (n <= m)%N ->
  (privacy_score (counts_of (set_count counts type m))
   <= privacy_score (counts_of (set_count counts type n)))%Z
  /\ (0 <= privacy_score (counts_of counts) <= 100)%Z.
Proof.
  intros H. split.
  - apply privacy_score_mono, counts_of_set_le, H.
  - apply privacy_score_range.
Qed.

Lemma privacy_score_monotone_witness :
  (1 <= 3)%N
  /\ (privacy_score (counts_of (set_count (only "email" 2) "ssn" 3))
      <= privacy_score (counts_of (set_count (only "email" 2) "ssn" 1)))%Z
  /\ privacy_score (counts_of (set_count (only "email" 2) "ssn" 3)) = 55%Z
  /\ privacy_score (counts_of (set_count (only "email" 2) "ssn" 1)) = 67%Z.
Proof.
  split; [lia|]. split.
  - apply (privacy_score_monotone (only "email" 2) "ssn" 1 3). lia.
  - split; reflexivity.
Defined.

(** ** The regular-expression fallback *)

Section Matcher.

Lemma extends_refl (x : cursor) : extends x x.
Proof. exists []. split; [reflexivity | cbn; lia]. Qed.

Lemma extends_trans (x y z : cursor) : extends x y -> extends y z -> extends x z.
Proof.
  intros (w1 & E1 & P1) (w2 & E2 & P2). exists (w1 ++ w2)%list. split.
  - rewrite E1, E2. now rewrite <- app_assoc.
  - rewrite length_app. lia.
Qed.

Lemma extends_pos (x y : cursor) : extends x y -> (pos x <= pos y)%nat.
Proof. intros (w & _ & P). lia. Qed.

Lemma repeat_opt_advancing m (k : cursor -> option cursor) (n : nat) :
  advancing true m ->
  forall x e, repeat_opt m k n x = Some e -> exists y, extends x y /\ k y = Some e.
Proof.
  intros Hm. induction n as [|n IH]; intros x e H; cbn [repeat_opt] in H.
  - exists x. split; [apply extends_refl | exact H].
  - destruct (m _ x) as [e'|] eqn:Hrun.
    + injection H as ->. apply Hm in Hrun as (y & Hxy & _ & Hk).
      destruct (Nat.eqb (pos y) (pos x)); [discriminate|].
      apply IH in Hk as (z & Hyz & Hz). exists z. split; [|exact Hz].
      eapply extends_trans; eassumption.
    + exists x. split; [apply extends_refl | exact H].
Qed.

Lemma advancing_weaken empty m : advancing empty m -> advancing true m.
Proof.
  intros Hm k x e H. apply Hm in H as (y & Hxy & _ & Hk).
  exists y. repeat split; [exact Hxy | discriminate | exact Hk].
Qed.

Lemma repeat_req_advancing empty m (k : cursor -> option cursor) hi lo (j : nat) :
  advancing empty m ->
  forall x e,
    repeat_req m k hi lo j x = Some e ->
    exists y, extends x y
              /\ (Nat.eqb j 0 || empty = false -> (pos x < pos y)%nat)
              /\ k y = Some e.
Proof.
  intros Hm. induction j as [|j IH]; intros x e H; cbn [repeat_req] in H.
  - apply (repeat_opt_advancing m k _ (advancing_weaken _ _ Hm)) in H as (y & Hxy & Hk).
    exists y. repeat split; [exact Hxy | discriminate | exact Hk].
  - apply Hm in H as (y & Hxy & Hstrict & Hk).
    apply IH in Hk as (z & Hyz & _ & Hz).
    exists z. repeat split; [eapply extends_trans; eassumption | | exact Hz].
    cbn. intros ->. specialize (Hstrict eq_refl). apply extends_pos in Hyz. lia.
Qed.

(** The matcher only moves to the right, and strictly so for an expression
    that does not match the empty string. *)
Lemma rmatch_advancing (r : regex) : advancing (nullable r) (rmatch r).
Proof.
  induction r as [cs| |r1 IH1 r2 IH2|lo hi r IH]; intros k x e H; cbn [rmatch] in H.
  - destruct x as [b i [|c s]]; cbn in H; [discriminate|].
    destruct (in_charset cs c); [|discriminate].
    exists (Cursor (Some c) (S i) s). repeat split; cbn; [|lia|exact H].
    exists [c]. cbn. split; [reflexivity|lia].
  - destruct (xorb _ _); [|discriminate].
    exists x. repeat split; [apply extends_refl | discriminate | exact H].
  - apply IH1 in H as (y & Hxy & S1 & Hk). apply IH2 in Hk as (z & Hyz & S2 & Hz).
    exists z. repeat split; [eapply extends_trans; eassumption| |exact Hz].
    cbn [nullable]. intros Hn. apply andb_false_iff in Hn as [Hn|Hn].
    + specialize (S1 Hn). apply extends_pos in Hyz. lia.
    + specialize (S2 Hn). apply extends_pos in Hxy. lia.
  - apply (repeat_req_advancing _ _ k hi lo lo IH) in H as (y & Hxy & Hs & Hk).
    exists y. repeat split; [exact Hxy| |exact Hk].
    cbn [nullable]. intros Hn. apply Hs.
    apply orb_false_iff in Hn as [-> ->]. reflexivity.
Qed.

Lemma extends_length (x y : cursor) :
  extends x y -> pos y <> pos x -> (length (rest y) < length (rest x))%nat.
Proof. intros (w & E & P) Hne. rewrite E, length_app. destruct w; cbn in *; lia. Qed.

Lemma repeat_opt_local m (n : nat) :
  local_matcher m ->
  forall k1 k2 x, (forall y, extends x y -> k1 y = k2 y) ->
                  repeat_opt m k1 n x = repeat_opt m k2 n x.
Proof.
  intros Hm. induction n as [|n IH]; intros k1 k2 x Hk; cbn [repeat_opt].
  - apply Hk, extends_refl.
  - rewrite (Hk x (extends_refl x)).
    erewrite (Hm _ (fun y => if Nat.eqb (pos y) (pos x) then None else repeat_opt m k2 n y));
      [reflexivity|].
    intros y Hxy. destruct (Nat.eqb (pos y) (pos x)); [reflexivity|].
    apply IH. intros z Hyz. apply Hk. eapply extends_trans; eassumption.
Qed.

Lemma repeat_req_local m hi lo (j : nat) :
  local_matcher m ->
  forall k1 k2 x, (forall y, extends x y -> k1 y = k2 y) ->
                  repeat_req m k1 hi lo j x = repeat_req m k2 hi lo j x.
Proof.
  intros Hm. induction j as [|j IH]; intros k1 k2 x Hk; cbn [repeat_req].
  - now apply repeat_opt_local.
  - apply Hm. intros y Hxy. apply IH. intros z Hyz. apply Hk.
    eapply extends_trans; eassumption.
Qed.

Lemma rmatch_local (r : regex) : local_matcher (rmatch r).
Proof.
  induction r as [cs| |r1 IH1 r2 IH2|lo hi r IH]; intros k1 k2 x Hk; cbn [rmatch].
  - destruct x as [b i [|c s]]; cbn; [reflexivity|].
    destruct (in_charset cs c); [|reflexivity].
    apply Hk. exists [c]. cbn. split; [reflexivity|lia].
  - destruct (xorb _ _); [|reflexivity]. apply Hk, extends_refl.
  - apply IH1. intros y Hxy. apply IH2. intros z Hyz. apply Hk.
    eapply extends_trans; eassumption.
  - now apply repeat_req_local.
Qed.

(** The bound of the optional iterations is no restriction: once it is the
    number of code units left, a greater bound gives the same match. *)
Lemma repeat_opt_room m (k : cursor -> option cursor) :
  advancing true m ->
  local_matcher m ->
  forall n x, (length (rest x) <= n)%nat ->
              repeat_opt m k n x = repeat_opt m k (length (rest x)) x.
Proof.
  intros Ha Hl.
  assert (forall n x, (length (rest x) <= n)%nat ->
                      repeat_opt m k (S n) x = repeat_opt m k n x) as Hstep.
  { induction n as [|n IH]; intros x Hx.
    - cbn [repeat_opt].
      destruct (m _ x) as [e|] eqn:Hrun; [|reflexivity].
      apply Ha in Hrun as (y & (w & E & P) & _ & Hy).
      destruct (rest x); [|cbn in Hx; lia].
      symmetry in E. apply app_eq_nil in E as [-> _]. cbn in P.
      rewrite Nat.add_0_r in P. rewrite P, Nat.eqb_refl in Hy. discriminate.
    - change (repeat_opt m k (S (S n)) x)
        with (match m (fun y => if Nat.eqb (pos y) (pos x) then None
                                else repeat_opt m k (S n) y) x with
              | Some e => Some e
              | None => k x
              end).
      rewrite (Hl _ (fun y => if Nat.eqb (pos y) (pos x) then None
                              else repeat_opt m k n y)); [reflexivity|].
      intros y Hxy. destruct (Nat.eqb_spec (pos y) (pos x)) as [|Hne]; [reflexivity|].
      apply IH. pose proof (extends_length x y Hxy Hne). lia. }
  intros n x Hx. induction Hx as [|n Hx IH]; [reflexivity|].
  rewrite Hstep by exact Hx. exact IH.
Qed.

Lemma rmatch_repeat_unbounded (r : regex) (k : cursor -> option cursor) (n : nat) (x : cursor) :
  (length (rest x) <= n)%nat ->
  repeat_opt (rmatch r) k n x = repeat_opt (rmatch r) k (length (rest x)) x.
Proof.
  apply repeat_opt_room.
  - eapply advancing_weaken, rmatch_advancing.
  - apply rmatch_local.
Qed.

End Matcher.

Section Fallback.

Lemma match_within_shift (c : N) (i : nat) (s : jsstring) (m : RegExpMatch) :
  match_within (S i) s m -> match_within i (c :: s) m.
Proof.
  intros (Hi & Hm & Hpos & Hend). repeat split; [lia| |exact Hpos|cbn [length]; lia].
  replace (index m - i)%nat with (S (index m - S i)) by lia. exact Hm.
Qed.

(** Every match of an expression that cannot match the empty string is a
    non-empty piece of the input, found at its own index. *)
Lemma matchAll_at_within (r : regex) :
  nullable r = false ->
  forall s prev i skip, Forall (match_within i s) (matchAll_at r prev i s skip).
Proof.
  intros Hr. induction s as [|c s IH]; intros prev i skip.
  - cbn [matchAll_at]. destruct skip; [|constructor].
    destruct (rmatch r Some (Cursor prev i [])) as [e|] eqn:Hrun; [|constructor].
    exfalso. apply rmatch_advancing in Hrun as (y & (w & Hw & Hp) & Hs & [= ->]).
    specialize (Hs Hr). cbn in Hw, Hp, Hs.
    symmetry in Hw. apply app_eq_nil in Hw as [-> _]. cbn in Hp. lia.
  - cbn [matchAll_at].
    assert (forall k, Forall (match_within i (c :: s)) (matchAll_at r (Some c) (S i) s k))
      as Hnext.
    { intros k. eapply Forall_impl; [apply IH|]. intros m. apply match_within_shift. }
    destruct skip; [|apply Hnext].
    destruct (rmatch r Some (Cursor prev i (c :: s))) as [e|] eqn:Hrun; [|apply Hnext].
    constructor; [|apply Hnext].
    apply rmatch_advancing in Hrun as (y & (w & Hw & Hp) & Hs & [= ->]).
    specialize (Hs Hr). cbn in Hw, Hp, Hs.
    assert (take (pos e - i) (c :: s) = w) as Hv.
    { rewrite Hw. replace (pos e - i)%nat with (length w) by lia.
      now rewrite take_app_length. }
    unfold match_within. cbn [index matched]. rewrite Hv.
    repeat split; [lia| |lia|].
    + rewrite Nat.sub_diag. cbn [drop]. rewrite Hw. now rewrite take_app_length.
    + rewrite Hw, length_app. lia.
Qed.

Lemma finding_of_match_within (text : jsstring) (type : string) (m : RegExpMatch) :
  match_within 0 text m -> finding_within text (finding_of_match type m).
Proof.
  intros (_ & Hm & Hpos & Hend). unfold finding_within, finding_of_match, substring.
  cbn [value start end_]. repeat split; try lia.
  rewrite Nat.sub_0_r in Hm.
  replace (Z.to_nat (Z.of_nat (index m) + Z.of_nat (length (matched m)) - Z.of_nat (index m)))
    with (length (matched m)) by lia.
  rewrite Nat2Z.id. exact Hm.
Qed.

Lemma patterns_not_nullable :
  Forall (fun p : string * regex => nullable (snd p) = false) patterns.
Proof. repeat constructor. Qed.

End Fallback.

(** C7.  Every finding of the pattern fallback is a piece of the text it was
    found in: its value is the text from [start] to [end], with
    [0 <= start < end <= length(text)] and [end = start + length(value)]. *)
Theorem regexFallback_findings_within (text : jsstring) :
  Forall (fun f =>
            value f = substring text (start f) (end_ f)
            /\ (0 <= start f < end_ f)%Z
            /\ (end_ f <= Z.of_nat (length text))%Z
            /\ end_ f = (start f + Z.of_nat (length (value f)))%Z)
         (regexFallback text).
Proof.
  unfold regexFallback.
  pose proof patterns_not_nullable as Hp.
  induction Hp as [|[type r] ps Hr _ IH]; cbn [flat_map].
  - constructor.
  - apply Forall_app. split; [|exact IH].
    apply Forall_map. eapply Forall_impl; [apply (matchAll_at_within r Hr text None 0 0)|].
    intros m Hm. apply (finding_of_match_within text type m Hm).
Qed.

(** ** The detector *)

Section Detector.

Context (h : Host).

Lemma trimStart_white (s : jsstring) :
  Forall (fun c => is_white_space c = true) s -> trimStart s = [].
Proof. induction 1 as [|c s Hc _ IH]; cbn [trimStart]; [reflexivity | now rewrite Hc]. Qed.

Lemma blank_input_is_blank (text : JsText) : blank_input text -> is_blank text = true.
Proof.
  destruct text as [| |s]; cbn; try reflexivity.
  intros H. destruct s; [reflexivity|].
  unfold trim. now rewrite (trimStart_white _ H).
Qed.

Lemma init_calls_quiet (d : PiiDetector) : Forall quiet_call (snd (init h d)).
Proof.
  unfold init. destruct (availability h) as [a|]; [|repeat constructor].
  destruct (String.eqb a "unavailable"); [repeat constructor|].
  destruct (create h); repeat constructor.
Qed.

Lemma init_initialized (d : PiiDetector) : detectorInitialized (fst (init h d)) = true.
Proof.
  unfold init. destruct (availability h) as [a|]; [|reflexivity].
  destruct (String.eqb a "unavailable"); [reflexivity|].
  destruct (create h); reflexivity.
Qed.

(** On a blank input the only thing [detectPII] can do is the one-time
    [init()]. *)
Lemma detectPII_blank_eq (d : PiiDetector) (text : JsText) :
  is_blank text = true ->
  detectPII h d text
  = if detectorInitialized d then ([], d, []) else ([], fst (init h d), snd (init h d)).
Proof.
  intros Hb. unfold detectPII.
  destruct (detectorInitialized d); [|destruct (init h d) as [d' calls]]; now rewrite Hb.
Qed.

(** In the model-backed mode a non-blank text is sent to the model. *)
Lemma detectPII_model_backed (d : PiiDetector) (sess : nat) (s : jsstring) :
  model_backed d sess ->
  is_blank (Str s) = false ->
  detectPII h d (Str s)
  = match try_prompt h sess s with
    | Some items => (items, d, [CallPrompt (prompt_input s)])
    | None => (regexFallback s, d, [CallPrompt (prompt_input s); CallRegexFallback s])
    end.
Proof.
  intros (Hi & Hf & Hs) Hb. unfold detectPII. rewrite Hi, Hb, Hf, Hs.
  destruct (try_prompt h sess s); reflexivity.
Qed.

End Detector.

(** C10.  For an input that is undefined, null, empty or made of whitespace
    only, [detectPII] returns the empty list, whatever the mode of the detector:
    no prompt is sent to the model and the patterns are not run.  A detector
    that is initialised does nothing at all and is left as it was. *)
Theorem detectPII_blank (h : Host) (d : PiiDetector) (text : JsText) :
  blank_input text ->
  let '(items, d', calls) := detectPII h d text in
  items = []
  /\ Forall quiet_call calls
  /\ (detectorInitialized d = true -> calls = [] /\ d' = d).
Proof.
  intros Hb. rewrite (detectPII_blank_eq h d text (blank_input_is_blank text Hb)).
  destruct (detectorInitialized d) eqn:Hi.
  - repeat split. constructor.
  - repeat split; [apply init_calls_quiet | discriminate | discriminate].
Qed.

Lemma detectPII_blank_witness :
  blank_input (Str [32; 9; 160; 10]%N)
  /\ detectPII host_garbled detector_ready (Str [32; 9; 160; 10]%N) = ([], detector_ready, []).
Proof.
  assert (Hb : blank_input (Str [32; 9; 160; 10]%N)) by (repeat constructor).
  split; [exact Hb|].
  pose proof (detectPII_blank host_garbled detector_ready _ Hb) as H.
  destruct (detectPII host_garbled detector_ready (Str [32; 9; 160; 10]%N))
    as [[items d'] calls].
  destruct H as (-> & _ & H). destruct (H eq_refl) as [-> ->]. reflexivity.
Defined.

(** C2 as the code has it.  In the model-backed mode, when the prompt is
    rejected or its result is not JSON, [detectPII] returns what the pattern
    fallback finds in that text; the detector is left as it was, so that the
    failure does not change any later call. *)
Theorem detectPII_failure_falls_back (h : Host) (d : PiiDetector) (sess : nat) (s : jsstring) :
  model_backed d sess ->
  is_blank (Str s) = false ->
  (prompt h sess (prompt_input s) = None
   \/ exists resultText,
        prompt h sess (prompt_input s) = Some resultText
        /\ JSON_parse h resultText = None) ->
  detectPII h d (Str s)
  = (regexFallback s, d, [CallPrompt (prompt_input s); CallRegexFallback s]).
Proof.
  intros Hd Hb Hfail. rewrite (detectPII_model_backed h d sess s Hd Hb).
  unfold try_prompt. destruct Hfail as [-> | (r & -> & ->)]; reflexivity.
Qed.

Lemma detectPII_failure_falls_back_witness :
  detectPII host_garbled detector_ready (Str (js "write to a.b@example.com"))
  = (regexFallback (js "write to a.b@example.com"), detector_ready,
     [CallPrompt (prompt_input (js "write to a.b@example.com"));
      CallRegexFallback (js "write to a.b@example.com")]).
Proof.
  apply (detectPII_failure_falls_back host_garbled detector_ready 0).
  - repeat split.
  - reflexivity.
  - right. exists (js "I found one email address."). split; reflexivity.
Defined.

(** C2 as the specification states it fails: the model's answer is not JSON,
    and the call returns a finding, not the empty list. *)
Lemma detectPII_failure_not_empty :
  JSON_parse host_garbled (js "I found one email address.") = None
  /\ fst (fst (detectPII host_garbled detector_ready (Str (js "write to a.b@example.com"))))
     = [ {| type := "email"; value := js "a.b@example.com"; start := 9; end_ := 24 |} ].
Proof. split; reflexivity. Qed.

(** ** Masking *)

Section IndexOf.

Lemma is_prefix_occurs (v s : jsstring) :
  is_prefix v s = true <-> take (length v) s = v.
Proof.
  revert s. induction v as [|a v IH]; intros s; cbn [is_prefix length].
  - now rewrite take_0.
  - destruct s as [|b s]; cbn [take]; [split; discriminate|].
    rewrite andb_true_iff, N.eqb_eq, IH. split.
    + intros [-> ->]. reflexivity.
    + intros [= -> E]. split; [reflexivity|]. now rewrite E.
Qed.

Lemma indexOf_from_Some (v : jsstring) :
  forall s i k,
    indexOf_from v s i = Some k ->
    (i <= k)%nat /\ occurs s v (k - i) /\ forall j, (j < k - i)%nat -> ~ occurs s v j.
Proof.
  induction s as [|c s IH]; intros i k; cbn [indexOf_from];
    destruct (is_prefix v _) eqn:Hp.
  - intros [= <-]. rewrite Nat.sub_diag. repeat split; [lia| |intros j; lia].
    now apply is_prefix_occurs.
  - discriminate.
  - intros [= <-]. rewrite Nat.sub_diag. repeat split; [lia| |intros j; lia].
    now apply is_prefix_occurs.
  - intros H. apply IH in H as (Hi & Hocc & Hmin).
    replace (k - i)%nat with (S (k - S i)) by lia. repeat split; [lia|exact Hocc|].
    intros [|j] Hj.
    + unfold occurs. cbn [drop]. intros E. apply is_prefix_occurs in E. congruence.
    + unfold occurs. cbn [drop]. apply Hmin. lia.
Qed.

Lemma indexOf_from_None (v : jsstring) :
  forall s i, indexOf_from v s i = None -> forall j, ~ occurs s v j.
Proof.
  induction s as [|c s IH]; intros i; cbn [indexOf_from];
    destruct (is_prefix v _) eqn:Hp; try discriminate.
  - intros _ j. unfold occurs. rewrite drop_nil. intros E.
    apply is_prefix_occurs in E. congruence.
  - intros H [|j].
    + unfold occurs. cbn [drop]. intros E. apply is_prefix_occurs in E. congruence.
    + unfold occurs. cbn [drop]. apply (IH _ H).
Qed.

(** [indexOf] gives the first occurrence, or nothing when there is none. *)
Lemma indexOf_spec (text v : jsstring) :
  match indexOf text v with
  | Some index => occurs text v index /\ forall j, (j < index)%nat -> ~ occurs text v j
  | None => forall j, ~ occurs text v j
  end.
Proof.
  unfold indexOf. destruct (indexOf_from v text 0) as [k|] eqn:H.
  - apply indexOf_from_Some in H as (_ & Hocc & Hmin).
    rewrite Nat.sub_0_r in Hocc, Hmin. split; assumption.
  - exact (indexOf_from_None v text 0 H).
Qed.

End IndexOf.

(** C5 as the code has it.  The masking step looks the value of the finding
    up in the current text of the unit and masks its first occurrence, over
    the length of the value; the recorded offsets are never read; a finding
    whose value occurs nowhere in the text is skipped. *)
Theorem mask_finding_first_occurrence
    (element : nat) (text : list N) (pg : Page) (pii : Finding) :
  (forall start' end',
      mask_finding element text pg
        {| type := type pii; value := value pii; start := start'; end_ := end' |}
      = mask_finding element text pg pii)
  /\ match indexOf text (value pii) with
     | Some index =>
         occurs text (value pii) index
         /\ (forall j, (j < index)%nat -> ~ occurs text (value pii) j)
         /\ mask_finding element text pg pii
            = mask_rects element (type pii) pg
                (rangeClientRects (document pg) element index (index + length (value pii)))
     | None =>
         (forall j, ~ occurs text (value pii) j)
         /\ mask_finding element text pg pii = pg
     end.
Proof.
  split; [reflexivity|].
  pose proof (indexOf_spec text (value pii)) as H. unfold mask_finding.
  destruct (indexOf text (value pii)) as [index|].
  - destruct H as [Hocc Hmin]. repeat split; assumption.
  - split; [exact H | reflexivity].
Qed.

(** C5 as the specification states it fails: the value occurs twice, the
    offsets point at the second occurrence, and the mask covers the first. *)
Lemma mask_ignores_offsets :
  occurs text_twice (value finding_second) 0
  /\ occurs text_twice (value finding_second) 3
  /\ substring text_twice (start finding_second) (end_ finding_second) = value finding_second
  /\ rangeClientRects (dom_line text_twice) 1 3 5
     = [ {| left := 3; top := 0; width := 2; height := 1 |} ]
  /\ overlayElements (maskElement (page_line text_twice None) 1 [finding_second]) !! 0%nat
     = Some {| piiType := "email";
               style := {| left := 0; top := 0; width := 2; height := 1 |} |}
  /\ bodyOverlays (maskElement (page_line text_twice None) 1 [finding_second]) = [0%nat].
Proof. repeat split; vm_compute; reflexivity. Qed.

(** ** Filters *)

Section Frames.

Lemma with_maskedElements_same (st : State) :
  st = with_maskedElements st (maskedElements st).
Proof. now destruct st. Qed.

Lemma adds_masks_refl (P : string -> Prop) (pg : Page) : adds_masks P pg pg.
Proof.
  repeat split; [apply with_maskedElements_same|]. intros id o H. now left.
Qed.

Lemma adds_masks_trans (P : string -> Prop) (a b c : Page) :
  adds_masks P a b -> adds_masks P b c -> adds_masks P a c.
Proof.
  intros (S1 & D1 & B1 & T1 & O1) (S2 & D2 & B2 & T2 & O2). repeat split.
  - rewrite S2, S1. reflexivity.
  - congruence.
  - congruence.
  - congruence.
  - intros id o H. apply O2 in H as [H|H]; [apply O1 in H|]; tauto.
Qed.

Lemma adds_masks_weaken (P Q : string -> Prop) (a b : Page) :
  (forall t, P t -> Q t) -> adds_masks P a b -> adds_masks Q a b.
Proof.
  intros HPQ (S1 & D1 & B1 & T1 & O1). repeat split; try assumption.
  intros id o H. apply O1 in H as [H|H]; [now left | right; now apply HPQ].
Qed.

Lemma addOverlay_adds (pg : Page) (element : nat) (rect : Rect) (type : string) :
  adds_masks (eq type) pg (addOverlay pg element rect type).
Proof.
  repeat split. intros id o. cbn [addOverlay overlayElements].
  destruct (decide (nextOverlay pg = id)) as [<-|Hne].
  - rewrite lookup_insert_eq. intros [= <-]. now right.
  - rewrite lookup_insert_ne by assumption. now left.
Qed.

Lemma mask_rects_adds (element : nat) (type : string) (rects : list Rect) :
  forall pg, adds_masks (eq type) pg (mask_rects element type pg rects).
Proof.
  unfold mask_rects. induction rects as [|rect rects IH]; intros pg; cbn [fold_left].
  - apply adds_masks_refl.
  - eapply adds_masks_trans; [|apply IH].
    destruct (visible rect); [apply addOverlay_adds | apply adds_masks_refl].
Qed.

Lemma mask_finding_adds (element : nat) (text : list N) (pg : Page) (pii : Finding) :
  adds_masks (eq (type pii)) pg (mask_finding element text pg pii).
Proof.
  unfold mask_finding. destruct (indexOf text (value pii));
    [apply mask_rects_adds | apply adds_masks_refl].
Qed.

Lemma fold_mask_finding_adds (P : string -> Prop) (element : nat) (text : list N)
    (piiItems : list Finding) :
  Forall (fun item => P (type item)) piiItems ->
  forall pg, adds_masks P pg (fold_left (mask_finding element text) piiItems pg).
Proof.
  induction 1 as [|item items Hitem _ IH]; intros pg; cbn [fold_left].
  - apply adds_masks_refl.
  - eapply adds_masks_trans; [|apply IH].
    eapply adds_masks_weaken; [|apply mask_finding_adds]. now intros t <-.
Qed.

(** [maskElement] only adds overlays, of the types of the findings given. *)
Lemma maskElement_adds (P : string -> Prop) (pg : Page) (element : nat)
    (piiItems : list Finding) :
  Forall (fun item => P (type item)) piiItems ->
  adds_masks P pg (maskElement pg element piiItems).
Proof. intros H. unfold maskElement. now apply fold_mask_finding_adds. Qed.

End Frames.

Section Counts.

Lemma prop_get_update_other {A} (f : A -> A) (obj : list (string * A)) (k t : string) :
  k <> t -> prop_get (prop_update f obj k) t = prop_get obj t.
Proof.
  intros Hne. induction obj as [|[k' v] obj IH]; cbn [prop_update prop_get]; [reflexivity|].
  destruct (String.eqb_spec k' k) as [->|Hk]; cbn [prop_get].
  - destruct (String.eqb_spec k t); [contradiction | reflexivity].
  - destruct (String.eqb k' t); [reflexivity | exact IH].
Qed.

Lemma count_finding_other (counts : list (string * N)) (item : Finding) (t : string) :
  type item <> t -> prop_get (count_finding counts item) t = prop_get counts t.
Proof.
  intros Hne. unfold count_finding. destruct (hasOwnProperty counts (type item));
    [now apply prop_get_update_other | reflexivity].
Qed.

Lemma fold_count_finding_other (items : list Finding) (t : string) :
  Forall (fun item => type item <> t) items ->
  forall counts, prop_get (fold_left count_finding items counts) t = prop_get counts t.
Proof.
  induction 1 as [|item items Hitem _ IH]; intros counts; cbn [fold_left]; [reflexivity|].
  rewrite IH. now apply count_finding_other.
Qed.

Lemma filter_idem {A} (f : A -> bool) (l : list A) :
  List.filter f (List.filter f l) = List.filter f l.
Proof.
  induction l as [|a l IH]; cbn [List.filter]; [reflexivity|].
  destruct (f a) eqn:Ha; [|exact IH]. cbn [List.filter]. now rewrite Ha, IH.
Qed.

Lemma filter_none {A} (f : A -> bool) (l : list A) :
  Forall (fun a => f a = false) l -> List.filter f l = [].
Proof. induction 1 as [|a l Ha _ IH]; cbn [List.filter]; [reflexivity | now rewrite Ha]. Qed.

Lemma filter_all {A} (f : A -> bool) (l : list A) :
  Forall (fun a => f a = true) (List.filter f l).
Proof.
  induction l as [|a l IH]; cbn [List.filter]; [constructor|].
  destruct (f a) eqn:Ha; [constructor; assumption | exact IH].
Qed.

End Counts.

Lemma truthy_at_disabled (obj : gmap string bool) (key : string) :
  obj !! key = Some false -> truthy_at obj key = false.
Proof. intros H. unfold truthy_at. now rewrite H. Qed.

Lemma truthy_at_true (obj : gmap string bool) (key : string) :
  truthy_at obj key = true
  <-> obj !! key = Some true \/ (obj !! key = None /\ In key Object_prototype).
Proof.
  unfold truthy_at. destruct (obj !! key) as [b|].
  - split; [intros ->; now left | intros [H|[H _]]; congruence].
  - rewrite existsb_exists. split.
    + intros (k & Hk & E). apply String.eqb_eq in E. subst k. now right.
    + intros [H|[_ H]]; [discriminate|]. exists key. split; [exact H | apply String.eqb_refl].
Qed.

(** X17.  In the loop of a scan pass, the findings for which
    [state.enabledFilters[item.type]] is not truthy are dropped before
    masking and counting: so are those of a type whose own entry is [false].
    The step is the one for the kept findings alone, the count of a type
    that is dropped does not move, every overlay made carries a type that is
    kept, and when no finding is kept nothing is masked or counted. *)
Theorem scan_node_result_filtered
    (pg : Page) (n : nat) (piiItems : list Finding) (total : nat) :
  let enabled := filter_enabled (state pg) in
  let '(pg', total') := scan_node_result pg n piiItems total in
  scan_node_result pg n (List.filter enabled piiItems) total = (pg', total')
  /\ (forall t, truthy_at (enabledFilters (state pg)) t = false ->
                prop_get (piiCounts (state pg')) t = prop_get (piiCounts (state pg)) t)
  /\ (forall id o, overlayElements pg' !! id = Some o ->
                   overlayElements pg !! id = Some o
                   \/ truthy_at (enabledFilters (state pg)) (piiType o) = true)
  /\ total' = (total + length (List.filter enabled piiItems))%nat
  /\ (Forall (fun item => enabled item = false) piiItems ->
      overlayElements pg' = overlayElements pg
      /\ bodyOverlays pg' = bodyOverlays pg
      /\ maskedElements (state pg') = maskedElements (state pg)
      /\ piiCounts (state pg') = piiCounts (state pg)).
Proof.
  intros enabled. unfold scan_node_result. rewrite filter_idem. fold enabled.
  pose proof (filter_all enabled piiItems) as Hall.
  destruct (List.filter enabled piiItems) as [|item items] eqn:Hf.
  - cbn. repeat split; try tauto. lia.
  - pose proof (maskElement_adds
                  (fun t => truthy_at (enabledFilters (state pg)) t = true)
                  pg n (item :: items) Hall) as (HS & HD & HB & HT & HO).
    set (pg1 := maskElement pg n (item :: items)) in *. clearbody pg1.
    split; [reflexivity|].
    cbn [state with_state piiCounts with_processedNodes with_privacy
         overlayElements bodyOverlays maskedElements].
    split; [|split; [exact HO|split; [reflexivity|]]].
    + intros t Ht. rewrite HS. cbn [piiCounts with_maskedElements].
      apply fold_count_finding_other.
      eapply Forall_impl; [exact Hall|]. intros i Hi E. subst t.
      unfold enabled, filter_enabled in Hi. congruence.
    + intros Hnone. apply filter_none in Hnone. fold enabled in Hnone. congruence.
Qed.


(** ** Repositioning *)

Section Reposition.

Lemma removeChildren_elem (ids body : list nat) (o : nat) :
  o ∈ removeChildren ids body <-> o ∈ body /\ o ∉ ids.
Proof.
  unfold removeChildren. rewrite !list_elem_of_In, filter_In, <- !list_elem_of_In.
  rewrite negb_true_iff, bool_decide_eq_false. reflexivity.
Qed.

Lemma move_overlays_lookup (rect : Rect) (ids : list nat) :
  forall (els : gmap nat Overlay) (o : nat),
    move_overlays rect ids els !! o
    = if bool_decide (o ∈ ids) then restyle rect <$> els !! o else els !! o.
Proof.
  unfold move_overlays. induction ids as [|i ids IH]; intros els o; cbn [fold_left].
  - reflexivity.
  - rewrite IH, lookup_alter.
    destruct (decide (i = o)) as [->|Hne].
    + rewrite (bool_decide_eq_true_2 (o ∈ o :: ids)) by in_cons.
      destruct (bool_decide (o ∈ ids)); [|reflexivity].
      now destruct (els !! o).
    + destruct (decide (o ∈ ids)) as [Hin|Hout].
      * rewrite !bool_decide_eq_true_2 by in_cons. reflexivity.
      * rewrite !bool_decide_eq_false_2 by in_cons. reflexivity.
Qed.

Lemma move_overlays_dom (rect : Rect) (ids : list nat) :
  forall els : gmap nat Overlay, dom (move_overlays rect ids els) = dom els.
Proof.
  unfold move_overlays. induction ids as [|i ids IH]; intros els; cbn [fold_left].
  - reflexivity.
  - now rewrite IH, dom_alter_L.
Qed.

(** The callback of [forEach], by cases. *)
Lemma reposition_entry_cases (pg : Page) (n : nat) (overlays : list nat) :
  reposition_entry pg (n, overlays)
  = if isAttached (document pg) n then
      match target_rect (document pg) n with
      | Some rect =>
          with_overlayElements pg (move_overlays rect overlays (overlayElements pg))
      | None => pg
      end
    else
      with_bodyOverlays
        (with_state pg
           (with_maskedElements (state pg) (delete n (maskedElements (state pg)))))
        (removeChildren overlays (bodyOverlays pg)).
Proof.
  unfold reposition_entry, target_rect. destruct (isAttached (document pg) n); cbn [negb].
  - destruct (boundingRect (document pg) n) as [rect|]; [|reflexivity].
    now destruct (visible rect).
  - reflexivity.
Qed.

(** What one call of the callback leaves. *)
Lemma reposition_entry_effect (pg : Page) (n : nat) (overlays : list nat) :
  let pg' := reposition_entry pg (n, overlays) in
  document pg' = document pg
  /\ nextOverlay pg' = nextOverlay pg
  /\ dom (overlayElements pg') = dom (overlayElements pg)
  /\ (forall k,
         maskedElements (state pg') !! k
         = if bool_decide (k = n) && negb (isAttached (document pg) n)
           then None else maskedElements (state pg) !! k)
  /\ (forall o,
         o ∈ bodyOverlays pg'
         <-> o ∈ bodyOverlays pg
             /\ ~ (isAttached (document pg) n = false /\ o ∈ overlays))
  /\ (forall o, o ∉ overlays -> overlayElements pg' !! o = overlayElements pg !! o).
Proof.
  cbn zeta. rewrite reposition_entry_cases.
  destruct (isAttached (document pg) n) eqn:Hatt.
  - destruct (target_rect (document pg) n) as [rect|]; cbn.
    + split; [reflexivity|]. split; [reflexivity|]. split; [apply move_overlays_dom|].
      split; [intros k; now rewrite andb_false_r|].
      split; [intros o; intuition congruence|].
      intros o Ho. rewrite move_overlays_lookup. now rewrite bool_decide_eq_false_2.
    + split; [reflexivity|]. split; [reflexivity|]. split; [reflexivity|].
      split; [intros k; now rewrite andb_false_r|].
      split; [intros o; intuition congruence|]. reflexivity.
  - cbn. split; [reflexivity|]. split; [reflexivity|]. split; [reflexivity|].
    split; [|split; [|reflexivity]].
    + intros k. rewrite andb_true_r. destruct (decide (k = n)) as [->|Hk].
      * rewrite bool_decide_eq_true_2 by reflexivity. apply lookup_delete_eq.
      * rewrite bool_decide_eq_false_2 by assumption. now apply lookup_delete_ne.
    + intros o. rewrite removeChildren_elem. intuition.
Qed.

(** What a run of the callback over the entries [l] leaves. *)
Lemma reposition_fold (l : list (nat * list nat)) :
  forall pg,
    let pg' := fold_left reposition_entry l pg in
    document pg' = document pg
    /\ nextOverlay pg' = nextOverlay pg
    /\ dom (overlayElements pg') = dom (overlayElements pg)
    /\ (forall n,
           maskedElements (state pg') !! n
           = if bool_decide (n ∈ l.*1) && negb (isAttached (document pg) n)
             then None else maskedElements (state pg) !! n)
    /\ (forall o,
           o ∈ bodyOverlays pg'
           <-> o ∈ bodyOverlays pg
               /\ ~ exists e, e ∈ l /\ isAttached (document pg) e.1 = false /\ o ∈ e.2)
    /\ (forall o, (forall e, e ∈ l -> o ∉ e.2) ->
                  overlayElements pg' !! o = overlayElements pg !! o).
Proof.
  induction l as [|[n overlays] l IH]; intros pg; cbn zeta; cbn [fold_left].
  - split; [reflexivity|]. split; [reflexivity|]. split; [reflexivity|].
    split; [reflexivity|]. split; [|reflexivity].
    intros o. split; [|tauto]. intros H. split; [exact H|].
    intros (e & He & _). now apply elem_of_nil in He.
  - destruct (IH (reposition_entry pg (n, overlays))) as (ID & IN & IE & IM & IB & IO).
    destruct (reposition_entry_effect pg n overlays) as (SD & SN & SE & SM & SB & SO).
    cbn zeta in *. rewrite SD in IM, IB.
    split; [congruence|]. split; [congruence|]. split; [congruence|].
    split; [|split].
    + intros k. rewrite IM, SM. cbn [fmap list_fmap fst].
      destruct (decide (k = n)) as [->|Hk].
      * rewrite (bool_decide_eq_true_2 (n = n)) by reflexivity.
        rewrite (bool_decide_eq_true_2 (n ∈ n :: l.*1)) by in_cons.
        cbn [andb]. destruct (negb (isAttached (document pg) n));
          [now rewrite andb_true_r; destruct (bool_decide _) | now rewrite andb_false_r].
      * rewrite (bool_decide_eq_false_2 (k = n)) by assumption. cbn [andb].
        destruct (decide (k ∈ l.*1)) as [Hin|Hout].
        -- rewrite !bool_decide_eq_true_2 by in_cons. reflexivity.
        -- rewrite !bool_decide_eq_false_2 by in_cons. reflexivity.
    + intros o. rewrite IB, SB. split.
      * intros [[Hb Hn] Hl]. split; [exact Hb|]. intros (e & He & Hd & Ho).
        apply elem_of_cons in He as [->|He]; [apply Hn; now split|].
        apply Hl. exists e. now repeat split.
      * intros [Hb Hno]. split; [split; [exact Hb|]|].
        -- intros [Hd Ho]. apply Hno. exists (n, overlays). split; [in_cons|now split].
        -- intros (e & He & Hd & Ho). apply Hno. exists e. split; [in_cons|now split].
    + intros o Ho. rewrite IO by (intros e He; apply Ho; in_cons).
      apply SO. apply (Ho (n, overlays)). in_cons.
Qed.

Lemma reposition_fold_owned (l1 l2 : list (nat * list nat)) (n : nat)
    (overlays : list nat) (pg : Page) (o : nat) :
  o ∈ overlays ->
  (forall e, e ∈ l1 ++ l2 -> o ∉ e.2) ->
  isAttached (document pg) n = true ->
  overlayElements (fold_left reposition_entry (l1 ++ (n, overlays) :: l2) pg) !! o
  = match target_rect (document pg) n with
    | Some rect => restyle rect <$> overlayElements pg !! o
    | None => overlayElements pg !! o
    end.
Proof.
  intros Ho Hothers Hatt. rewrite fold_left_app. cbn [fold_left].
  destruct (reposition_fold l1 pg) as (D1 & _ & _ & _ & _ & O1).
  cbn zeta in D1, O1. set (pg1 := fold_left reposition_entry l1 pg) in *.
  destruct (reposition_fold l2 (reposition_entry pg1 (n, overlays)))
    as (_ & _ & _ & _ & _ & O2).
  cbn zeta in O2. rewrite O2.
  2:{ intros e He. apply Hothers. apply elem_of_app. now right. }
  rewrite reposition_entry_cases, D1, Hatt.
  rewrite <- (O1 o).
  2:{ intros e He. apply Hothers. apply elem_of_app. now left. }
  destruct (target_rect (document pg) n) as [rect|]; [|reflexivity].
  cbn [with_overlayElements overlayElements]. rewrite move_overlays_lookup.
  now rewrite bool_decide_eq_true_2.
Qed.

End Reposition.

(** C9 as the code has it.  [updateOverlayPositions] makes and destroys no
    overlay element.  A unit that is still attached keeps its list of
    overlays, which stay in the body; they take the recomputed rectangle of
    the unit when it has a width and a height, and stay where they are
    otherwise.  A unit that is no longer attached loses its entry of the
    registry and its overlays leave the body. *)
Theorem updateOverlayPositions_effect (pg : Page) :
  let pg' := updateOverlayPositions pg in
  let m := maskedElements (state pg) in
  dom (overlayElements pg') = dom (overlayElements pg)
  /\ nextOverlay pg' = nextOverlay pg
  /\ (forall n overlays,
         m !! n = Some overlays ->
         if isAttached (document pg) n then
           maskedElements (state pg') !! n = Some overlays
           /\ forall o,
                o ∈ overlays ->
                sole_owner m o n ->
                (o ∈ bodyOverlays pg' <-> o ∈ bodyOverlays pg)
                /\ overlayElements pg' !! o
                   = match target_rect (document pg) n with
                     | Some rect => restyle rect <$> overlayElements pg !! o
                     | None => overlayElements pg !! o
                     end
         else
           maskedElements (state pg') !! n = None
           /\ forall o, o ∈ overlays -> o ∉ bodyOverlays pg')
  /\ (forall n, m !! n = None -> maskedElements (state pg') !! n = None).
Proof.
  intros pg' m. subst pg'. unfold updateOverlayPositions. fold m.
  destruct (reposition_fold (map_to_list m) pg) as (_ & HN & HE & HM & HB & _).
  fold m in HM.
  cbn zeta in HN, HE, HM, HB.
  split; [exact HE|]. split; [exact HN|]. split.
  - intros n overlays Hn.
    assert (Hin : (n, overlays) ∈ map_to_list m) by now apply elem_of_map_to_list.
    assert (Hkey : n ∈ (map_to_list m).*1).
    { apply list_elem_of_fmap. exists (n, overlays). now split. }
    specialize (HM n). rewrite (bool_decide_eq_true_2 _ Hkey) in HM. cbn [andb] in HM.
    destruct (isAttached (document pg) n) eqn:Hatt; cbn [negb] in HM.
    + split; [now rewrite HM|]. intros o Ho Hsole. split.
      * rewrite HB. split; [tauto|]. intros Hb. split; [exact Hb|].
        intros ([n' overlays'] & He & Hd & Ho'). cbn in Hd, Ho'.
        apply elem_of_map_to_list in He. rewrite (Hsole n' overlays' He Ho') in Hd.
        congruence.
      * destruct (list_elem_of_split _ _ Hin) as (l1 & l2 & Hl).
        pose proof (NoDup_fst_map_to_list m) as Hnd. rewrite Hl in Hnd |- *.
        apply reposition_fold_owned; [exact Ho| |exact Hatt].
        intros [n' overlays'] He Ho'. cbn in Ho'.
        assert ((n', overlays') ∈ map_to_list m) as He'.
        { rewrite Hl. apply elem_of_app in He as [He|He]; apply elem_of_app;
            [now left | right; now apply list_elem_of_further]. }
        apply elem_of_map_to_list in He'. pose proof (Hsole n' overlays' He' Ho') as ->.
        rewrite fmap_app, fmap_cons in Hnd. cbn [fst] in Hnd.
        apply NoDup_app in Hnd as (_ & Hdisj & Hnd).
        apply NoDup_cons in Hnd as [Hn2 _].
        apply elem_of_app in He as [He|He].
        -- apply (Hdisj n); [|apply list_elem_of_here].
           apply list_elem_of_fmap. exists (n, overlays'). now split.
        -- apply Hn2. apply list_elem_of_fmap. exists (n, overlays'). now split.
    + split; [exact HM|]. intros o Ho Hb. apply HB in Hb as [_ Hb]. apply Hb.
      exists (n, overlays). now repeat split.
  - intros n Hn. rewrite HM, Hn. now destruct (_ && _).
Qed.

(** C9 as the specification states it fails: the unit is attached, its
    recomputed rectangle is the empty one at (5, 7), and its overlay stays at
    (0, 0) with its old width. *)
Lemma reposition_leaves_collapsed_unit :
  maskedElements (state page_collapsed) !! 1%nat = Some [0%nat]
  /\ isAttached (document page_collapsed) 1 = true
  /\ boundingRect (document page_collapsed) 1
     = Some {| left := 5; top := 7; width := 0; height := 0 |}
  /\ overlayElements (updateOverlayPositions page_collapsed) !! 0%nat
     = Some {| piiType := "email";
               style := {| left := 0; top := 0; width := 15; height := 1 |} |}.
Proof. repeat split; vm_compute; reflexivity. Qed.

(** ** The scan pass and its triggers *)

Section Scan.

Context (h : Host).

Lemma trim_nil : trim [] = [].
Proof. reflexivity. Qed.

Lemma long_text_not_blank (text : list N) :
  (CONFIG.MIN_TEXT_LENGTH <= length (trim text))%nat -> is_blank (Str text) = false.
Proof.
  unfold CONFIG.MIN_TEXT_LENGTH. intros H. cbn [is_blank].
  destruct text as [|c text]; [rewrite trim_nil in H; cbn in H; lia|].
  destruct (trim (c :: text)); [cbn in H; lia | reflexivity].
Qed.

(** With a model-backed detector the loop of [scanPage] is suspended at the
    first unit that is long enough and not yet processed. *)
Lemma scan_loop_suspends (pg : Page) (d : PiiDetector) (sess : nat)
    (n : nat) (nodes : list nat) (total : nat) :
  detector (state pg) = Some d ->
  model_backed d sess ->
  n ∉ processedNodes (state pg) ->
  (CONFIG.MIN_TEXT_LENGTH <= length (trim (textContent (document pg) n)))%nat ->
  exists pg' p, scan_loop h pg (n :: nodes) total = (pg', Some p)
                /\ awaited p = n /\ todo p = nodes.
Proof.
  intros Hd Hm Hn Hlen. cbn [scan_loop].
  rewrite bool_decide_eq_false_2 by assumption.
  destruct (Nat.ltb_spec (length (trim (textContent (document pg) n)))
                         CONFIG.MIN_TEXT_LENGTH) as [Hlt|_]; [lia|].
  rewrite Hd.
  rewrite (detectPII_model_backed h d sess _ Hm (long_text_not_blank _ Hlen)).
  destruct (try_prompt h sess _); cbn [existsb is_host_call orb];
    eexists _, _; (split; [reflexivity|split; reflexivity]).
Qed.

Lemma getTextNodes_accepted (d : Dom) (n : nat) (nodes : list nat) :
  getTextNodes d = n :: nodes ->
  (CONFIG.MIN_TEXT_LENGTH <= length (trim (textContent d n)))%nat.
Proof.
  intros H. assert (In n (getTextNodes d)) as Hin by (rewrite H; now left).
  apply filter_In in Hin as [_ Hacc]. unfold acceptNode in Hacc.
  destruct (parentElement d n); [|discriminate].
  apply andb_true_iff in Hacc as [_ Hacc]. now apply Nat.leb_le.
Qed.

(** [scanPage] with a model-backed detector and a unit to scan: a pass is
    started and suspended. *)
Lemma scanPage_suspends (pg : Page) (d : PiiDetector) (sess : nat) :
  isEnabled (state pg) = true ->
  isInitialized (state pg) = true ->
  detector (state pg) = Some d ->
  model_backed d sess ->
  getTextNodes (document pg) <> [] ->
  exists pg' p, scanPage h pg = (pg', Some p).
Proof.
  intros He Hi Hd Hm Hnodes. unfold scanPage. rewrite He, Hi. cbn [negb orb].
  cbn [document with_state clearAllMasks].
  destruct (getTextNodes (document pg)) as [|n nodes] eqn:Hl; [contradiction|].
  edestruct (scan_loop_suspends
               (with_state (clearAllMasks pg) (resetPrivacyData (state (clearAllMasks pg))))
               d sess n nodes 0) as (pg' & p & Hrun & _).
  - exact Hd.
  - exact Hm.
  - cbn. apply not_elem_of_empty.
  - cbn [document with_state clearAllMasks]. eapply getTextNodes_accepted, Hl.
  - exists pg', p. exact Hrun.
Qed.

(** While the script is disabled or not initialised, [scanPage] returns at
    once. *)
Lemma scanPage_dropped (pg : Page) :
  isEnabled (state pg) = false \/ isInitialized (state pg) = false ->
  scanPage h pg = (pg, None).
Proof.
  intros [H|H]; unfold scanPage; rewrite H; [reflexivity|].
  now rewrite orb_true_r.
Qed.

Lemma with_isEnabled_same (st : State) (b : bool) :
  isEnabled st = b -> with_isEnabled st b = st.
Proof. intros <-. now destruct st. Qed.

Lemma with_state_same (pg : Page) : with_state pg (state pg) = pg.
Proof. now destruct pg. Qed.

End Scan.

(** C3 as the code has it.  Nothing records that a pass is in flight.  With
    the script enabled and initialised, a model-backed detector and a unit to
    scan, every call of [scanPage] (the timer, a rescan request, a toggle to
    the enabled state) adds a suspended pass to those already running; a
    call is dropped only while the script is disabled or not initialised; a
    filter change starts no pass. *)
Theorem trigger_starts_pass (h : Host) (s : Sys) (d : PiiDetector) (sess : nat) :
  isEnabled (state (page s)) = true ->
  isInitialized (state (page s)) = true ->
  detector (state (page s)) = Some d ->
  model_backed d sess ->
  getTextNodes (document (page s)) <> [] ->
  (forall e, calls_scanPage e = true ->
             exists p, running (step h s e) = running s ++ [p])
  /\ (forall s' : Sys,
         isEnabled (state (page s')) = false \/ isInitialized (state (page s')) = false ->
         step h s' ScanTimer = s' /\ step h s' (Message rescan) = s')
  /\ (forall piiType enabled,
         running (step h s (Message (filter_change piiType enabled))) = running s).
Proof.
  intros He Hi Hd Hm Hnodes. split; [|split].
  - assert (exists p, running (start_scan h s) = running s ++ [p]) as Hstart.
    { unfold start_scan.
      destruct (scanPage_suspends h (page s) d sess He Hi Hd Hm Hnodes) as (pg' & p & ->).
      now exists p. }
    intros [ | [ | [|] | | ] | | | ]; cbn [calls_scanPage]; try discriminate; intros _.
    + exact Hstart.
    + cbn [step on_message]. rewrite (with_isEnabled_same _ _ He), with_state_same.
      now destruct s.
    + exact Hstart.
  - intros s' Hoff. cbn [step on_message]. unfold start_scan.
    rewrite (scanPage_dropped h (page s') Hoff). cbn [option_list].
    rewrite app_nil_r. now destruct s'.
  - reflexivity.
Qed.

Lemma trigger_starts_pass_witness :
  length (running (step host_garbled (sys_model text_email) ScanTimer)) = 1%nat
  /\ exists p,
       running (step host_garbled (step host_garbled (sys_model text_email) ScanTimer)
                     (Message rescan))
       = running (step host_garbled (sys_model text_email) ScanTimer) ++ [p].
Proof.
  split; [reflexivity|].
  refine (proj1 (trigger_starts_pass host_garbled
                   (step host_garbled (sys_model text_email) ScanTimer)
                   detector_ready 0 _ _ _ _ _) (Message rescan) _);
    try reflexivity.
  - repeat split.
  - vm_compute. discriminate.
Defined.

(** C3 as the specification states it fails: a rescan request that arrives
    while the first pass waits for the model starts a second pass; both run to
    their end, and the one e-mail address of the page is masked and counted
    twice. *)
Lemma two_passes_in_flight :
  length (running (run host_garbled (sys_model text_email) [ScanTimer; Message rescan]))
  = 2%nat
  /\ bodyOverlays
       (page (run host_garbled (sys_model text_email)
                  [ScanTimer; Message rescan; Resolve 0; Resolve 0]))
     = [0%nat; 1%nat]
  /\ prop_get
       (piiCounts
          (state (page (run host_garbled (sys_model text_email)
                            [ScanTimer; Message rescan; Resolve 0; Resolve 0]))))
       "email"
     = Some 2%N
  /\ length (regexFallback text_email) = 1%nat.
Proof. repeat split; vm_compute; reflexivity. Qed.

(** C4 as the code has it.  The toggle to the disabled state empties the
    overlay registry, takes its overlays and the badge out of the body and
    stops [scanPage] from starting a pass; the counts and the score stay as
    they are; the registry of processed nodes is emptied, as on every call
    of [clearAllMasks]; the passes that are suspended stay so. *)
Theorem toggle_off_effect (h : Host) (s : Sys) :
  let s' := on_message h s (toggle false) in
  maskedElements (state (page s')) = ∅
  /\ (forall o, o ∈ all_overlays (maskedElements (state (page s))) ->
                o ∉ bodyOverlays (page s'))
  /\ badge (page s') = None
  /\ isEnabled (state (page s')) = false
  /\ step h s' ScanTimer = s'
  /\ step h s' (Message rescan) = s'
  /\ piiCounts (state (page s')) = piiCounts (state (page s))
  /\ privacyScore (state (page s')) = privacyScore (state (page s))
  /\ processedNodes (state (page s')) = ∅
  /\ running s' = running s.
Proof.
  cbn zeta. cbn [on_message].
  set (s' := {| page := clearAllMasks
                          (with_state (page s) (with_isEnabled (state (page s)) false));
                running := running s |}).
  assert (Hoff : isEnabled (state (page s')) = false) by reflexivity.
  assert (Hdrop : start_scan h s' = s').
  { unfold start_scan. rewrite (scanPage_dropped h (page s') (or_introl Hoff)).
    cbn [option_list]. now rewrite app_nil_r. }
  split; [reflexivity|]. split.
  { intros o Ho Hb. apply removeChildren_elem in Hb as [_ Hb]. contradiction. }
  split; [reflexivity|]. split; [exact Hoff|].
  split; [exact Hdrop|]. split; [exact Hdrop|].
  repeat split.
Qed.

(** C4 as the specification states it fails: after a scan the unit 1 is in
    the registry of processed nodes, and the toggle to the disabled state
    takes it out. *)
Lemma toggle_off_empties_registry :
  bool_decide
    (1%nat ∈ processedNodes
       (state (page (run host_garbled (sys_fallback text_email) [ScanTimer]))))
  = true
  /\ bool_decide
       (1%nat ∈ processedNodes
          (state (page (run host_garbled (sys_fallback text_email)
                            [ScanTimer; Message (toggle false)]))))
     = false.
Proof. split; vm_compute; reflexivity. Qed.

(** ** An invariant of the overlay registry *)

Section Registry.

Context (h : Host).

Lemma registry_wf_same (pg pg' : Page) :
  maskedElements (state pg') = maskedElements (state pg) ->
  nextOverlay pg' = nextOverlay pg ->
  registry_wf pg -> registry_wf pg'.
Proof. intros Hm Hn [H1 H2]. unfold registry_wf. rewrite Hm, Hn. now split. Qed.

Lemma addOverlay_wf (pg : Page) (element : nat) (rect : Rect) (type : string) :
  registry_wf pg -> registry_wf (addOverlay pg element rect type).
Proof.
  intros [Hlt Huniq].
  assert (forall o, o ∈ default [] (maskedElements (state pg) !! element) ->
                    exists overlays, maskedElements (state pg) !! element = Some overlays
                                     /\ o ∈ overlays) as Hold.
  { intros o Ho. destruct (maskedElements (state pg) !! element) as [overlays|];
      [now exists overlays | now apply elem_of_nil in Ho]. }
  split; cbn [addOverlay state maskedElements with_maskedElements nextOverlay].
  - intros n overlays o Hn Ho.
    destruct (decide (element = n)) as [<-|Hne].
    + rewrite lookup_insert_eq in Hn. injection Hn as <-.
      apply elem_of_app in Ho as [Ho|Ho].
      * apply Hold in Ho as (ov & Hov & Ho). specialize (Hlt _ _ _ Hov Ho). lia.
      * apply list_elem_of_singleton in Ho. lia.
    + rewrite lookup_insert_ne in Hn by assumption. specialize (Hlt _ _ _ Hn Ho). lia.
  - intros n n' overlays overlays' o Hn Hn' Ho Ho'.
    destruct (decide (element = n)) as [<-|Hne];
      destruct (decide (element = n')) as [<-|Hne']; [reflexivity| | |].
    + exfalso. rewrite lookup_insert_eq in Hn. injection Hn as <-.
      rewrite lookup_insert_ne in Hn' by assumption.
      apply elem_of_app in Ho as [Ho|Ho].
      * apply Hold in Ho as (ov & Hov & Ho). apply Hne'. eapply Huniq; eassumption.
      * apply list_elem_of_singleton in Ho. specialize (Hlt _ _ _ Hn' Ho'). lia.
    + exfalso. rewrite lookup_insert_eq in Hn'. injection Hn' as <-.
      rewrite lookup_insert_ne in Hn by assumption.
      apply elem_of_app in Ho' as [Ho'|Ho'].
      * apply Hold in Ho' as (ov & Hov & Ho'). apply Hne. eapply Huniq; eassumption.
      * apply list_elem_of_singleton in Ho'. specialize (Hlt _ _ _ Hn Ho). lia.
    + rewrite lookup_insert_ne in Hn, Hn' by assumption. eapply Huniq; eassumption.
Qed.

Lemma mask_rects_wf (element : nat) (type : string) (rects : list Rect) :
  forall pg, registry_wf pg -> registry_wf (mask_rects element type pg rects).
Proof.
  unfold mask_rects. induction rects as [|rect rects IH]; intros pg Hwf; cbn [fold_left].
  - exact Hwf.
  - apply IH. destruct (visible rect); [now apply addOverlay_wf | exact Hwf].
Qed.

Lemma maskElement_wf (pg : Page) (element : nat) (piiItems : list Finding) :
  registry_wf pg -> registry_wf (maskElement pg element piiItems).
Proof.
  unfold maskElement. generalize (textContent (document pg) element). intros text.
  revert pg. induction piiItems as [|pii items IH]; intros pg Hwf; cbn [fold_left].
  - exact Hwf.
  - apply IH. unfold mask_finding.
    destruct (indexOf text (value pii)); [now apply mask_rects_wf | exact Hwf].
Qed.

Lemma clearAllMasks_wf (pg : Page) : registry_wf (clearAllMasks pg).
Proof.
  split; cbn [clearAllMasks state maskedElements with_processedNodes with_maskedElements].
  - intros n overlays o Hn. now rewrite lookup_empty in Hn.
  - intros n n' overlays overlays' o Hn. now rewrite lookup_empty in Hn.
Qed.

Lemma reposition_entry_wf (pg : Page) (entry : nat * list nat) :
  registry_wf pg -> registry_wf (reposition_entry pg entry).
Proof.
  destruct entry as [n overlays]. intros [Hlt Huniq]. rewrite reposition_entry_cases.
  destruct (isAttached (document pg) n).
  - destruct (target_rect (document pg) n); now split.
  - split; cbn [state maskedElements with_bodyOverlays with_state with_maskedElements
                nextOverlay].
    + intros k ov o Hk Ho. apply lookup_delete_Some in Hk as [_ Hk]. eapply Hlt; eassumption.
    + intros k k' ov ov' o Hk Hk' Ho Ho'.
      apply lookup_delete_Some in Hk as [_ Hk]. apply lookup_delete_Some in Hk' as [_ Hk'].
      eapply Huniq; eassumption.
Qed.

Lemma updateOverlayPositions_wf (pg : Page) :
  registry_wf pg -> registry_wf (updateOverlayPositions pg).
Proof.
  unfold updateOverlayPositions. generalize (map_to_list (maskedElements (state pg))).
  intros l. revert pg. induction l as [|e l IH]; intros pg Hwf; cbn [fold_left].
  - exact Hwf.
  - apply IH. now apply reposition_entry_wf.
Qed.

Lemma scan_node_result_wf (pg : Page) (n : nat) (piiItems : list Finding) (total : nat) :
  registry_wf pg -> registry_wf (scan_node_result pg n piiItems total).1.
Proof.
  intros Hwf. unfold scan_node_result.
  destruct (List.filter (filter_enabled (state pg)) piiItems) as [|item items].
  - cbn. eapply registry_wf_same; [| |exact Hwf]; reflexivity.
  - cbn [fst]. eapply registry_wf_same; [| |apply (maskElement_wf pg n (item :: items) Hwf)];
      reflexivity.
Qed.

Lemma scan_finish_wf (pg : Page) (total : nat) :
  registry_wf pg -> registry_wf (scan_finish pg total).
Proof.
  intros Hwf. eapply registry_wf_same; [| |exact Hwf]; unfold scan_finish, updatePrivacyBadge;
    cbn [state with_state]; destruct (isEnabled _); reflexivity.
Qed.

Lemma scan_loop_wf (nodes : list nat) :
  forall pg total, registry_wf pg -> registry_wf (scan_loop h pg nodes total).1.
Proof.
  induction nodes as [|n nodes IH]; intros pg total Hwf; cbn [scan_loop].
  - now apply scan_finish_wf.
  - destruct (bool_decide _); [now apply IH|].
    destruct (_ <? _)%nat; [now apply IH|].
    destruct (detector (state pg)) as [d|]; [|exact Hwf].
    destruct (detectPII h d _) as [[piiItems d'] calls].
    set (pg1 := with_state pg (with_detector (state pg) (Some d'))).
    assert (registry_wf pg1) as Hwf1
      by (eapply registry_wf_same; [| |exact Hwf]; reflexivity).
    destruct (existsb is_host_call calls); [exact Hwf1|].
    pose proof (scan_node_result_wf pg1 n piiItems total Hwf1) as Hwf2.
    destruct (scan_node_result pg1 n piiItems total) as [pg2 total2]. now apply IH.
Qed.

Lemma scanPage_wf (pg : Page) : registry_wf pg -> registry_wf (scanPage h pg).1.
Proof.
  intros Hwf. unfold scanPage. destruct (_ || _); [exact Hwf|].
  apply scan_loop_wf. eapply registry_wf_same; [| |apply (clearAllMasks_wf pg)]; reflexivity.
Qed.

Lemma start_scan_wf (s : Sys) : registry_wf (page s) -> registry_wf (page (start_scan h s)).
Proof.
  intros Hwf. unfold start_scan. pose proof (scanPage_wf (page s) Hwf) as H.
  now destruct (scanPage h (page s)).
Qed.

Lemma step_wf (s : Sys) (e : Event) :
  registry_wf (page s) -> registry_wf (page (step h s e)).
Proof.
  intros Hwf. destruct e as [ |[ |enabled| |piiType enabled]|i| |d]; cbn [step on_message].
  - now apply start_scan_wf.
  - exact Hwf.
  - destruct enabled.
    + apply start_scan_wf. cbn [page]. eapply registry_wf_same; [| |exact Hwf]; reflexivity.
    + apply clearAllMasks_wf.
  - now apply start_scan_wf.
  - eapply registry_wf_same; [| |exact Hwf]; reflexivity.
  - destruct (running s !! i) as [p|]; [|exact Hwf]. unfold scan_resume.
    pose proof (scan_node_result_wf (page s) (awaited p) (answer p) (totalFound p) Hwf) as H1.
    destruct (scan_node_result _ _ _ _) as [pg1 total1].
    pose proof (scan_loop_wf (todo p) pg1 total1 H1) as H2.
    now destruct (scan_loop h pg1 (todo p) total1).
  - now apply updateOverlayPositions_wf.
  - eapply registry_wf_same; [| |exact Hwf]; reflexivity.
Qed.

(** Whatever happens, no overlay is on the lists of two units. *)
Lemma run_wf (events : list Event) :
  forall s, registry_wf (page s) -> registry_wf (page (run h s events)).
Proof.
  unfold run. induction events as [|e events IH]; intros s Hwf; cbn [fold_left].
  - exact Hwf.
  - apply IH. now apply step_wf.
Qed.

Lemma registry_wf_sole_owner (pg : Page) (n : nat) (overlays : list nat) (o : nat) :
  registry_wf pg ->
  maskedElements (state pg) !! n = Some overlays ->
  o ∈ overlays ->
  sole_owner (maskedElements (state pg)) o n.
Proof.
  intros [_ Huniq] Hn Ho n' overlays' Hn' Ho'. eapply Huniq; eassumption.
Qed.

End Registry.

(** ** The two embeddings of the score agree *)

Lemma f64_agrees_from_sound (bound : nat) (counts : string -> N) (types : list string) :
  (forall t, In t types -> (counts t <= N.of_nat bound)%N) ->
  forall sf sq,
    f64_agrees_from types bound sf sq = true ->
    F64.clamp_round (fold_left F64.score_step (map (fun t => (t, counts t)) types) sf)
    = Some (Z.max 0 (Z.min 100
              (Math_round (fold_left score_step (map (fun t => (t, counts t)) types) sq)))).
Proof.
  induction types as [|t types IH]; intros Hb sf sq H; cbn [f64_agrees_from map fold_left] in *.
  - destruct (F64.clamp_round sf) as [z|]; [|discriminate].
    apply Z.eqb_eq in H. now subst z.
  - apply IH; [intros t' Ht'; apply Hb; now right|].
    rewrite forallb_forall in H. specialize (H (N.to_nat (counts t))).
    rewrite N2Nat.id in H. apply H. apply in_seq.
    specialize (Hb t (or_introl eq_refl)). lia.
Qed.

Lemma f64_agrees_on_box : f64_agrees_from CONFIG.PII_TYPES 5 100%float 100%Q = true.
Proof. vm_cast_no_check (eq_refl true). Qed.

(** X6.  For counts up to 5 each, the score computed on binary64 numbers, as
    the script does, is the score computed on rationals, the one the other
    theorems are about. *)
Lemma f64_privacy_score (counts : string -> N) :
  (forall t, In t CONFIG.PII_TYPES -> (counts t <= 5)%N) ->
  F64.privacy_score (counts_of counts) = Some (privacy_score (counts_of counts)).
Proof.
  intros Hb. unfold F64.privacy_score, privacy_score, raw_score, counts_of.
  apply (f64_agrees_from_sound 5 counts CONFIG.PII_TYPES Hb _ _ f64_agrees_on_box).
Qed.

Lemma f64_privacy_score_witness :
  F64.privacy_score (counts_of (set_count (only "phone" 3) "password" 2)) = Some 55%Z
  /\ privacy_score (counts_of (set_count (only "phone" 3) "password" 2)) = 55%Z.
Proof.
  assert (forall t, In t CONFIG.PII_TYPES ->
                    (set_count (only "phone" 3) "password" 2 t <= 5)%N) as Hb.
  { intros t Ht. unfold CONFIG.PII_TYPES in Ht. cbn [In] in Ht.
    repeat (destruct Ht as [<-|Ht]; [vm_compute; discriminate|]). contradiction. }
  pose proof (f64_privacy_score _ Hb) as H.
  split; [rewrite H; reflexivity | reflexivity].
Defined.

(** ** Checks on concrete inputs *)

Example fallback_email :
  regexFallback (js "contact me at a.b@example.com please")
  = [ {| type := "email"; value := js "a.b@example.com"; start := 14; end_ := 29 |} ].
Proof. reflexivity. Qed.

Example fallback_card :
  map (fun f => (type f, start f, end_ f)) (regexFallback (js "4111 1111 1111 1111"))
  = [ ("credit_card", 0%Z, 19%Z) ].
Proof. reflexivity. Qed.

Example fallback_phone_ssn :
  map (fun f => (type f, start f, end_ f))
      (regexFallback (js "tel 5551234567 and 123-45-6789"))
  = [ ("phone", 4%Z, 14%Z); ("ssn", 19%Z, 30%Z) ].
Proof. reflexivity. Qed.

Example fallback_long_digits :
  map (fun f => (type f, start f, end_ f)) (regexFallback (js "12345678901234567890"))
  = [ ("phone", 7%Z, 20%Z) ].
Proof. reflexivity. Qed.

Example init_succeeds :
  init host_garbled new_PiiDetector = (detector_ready, [CallAvailability; CallCreate]).
Proof. reflexivity. Qed.

Example init_unavailable :
  init {| availability := Some "unavailable"; create := Some 0%nat;
          prompt := fun _ _ => None; JSON_parse := fun _ => None |}
       new_PiiDetector
  = (detector_fallback, [CallAvailability]).
Proof. reflexivity. Qed.

Example detect_not_array :
  detectPII {| availability := Some "available"; create := Some 0%nat;
               prompt := fun _ _ => Some (js "{}");
               JSON_parse := fun _ => Some (ParsedValue None) |}
            detector_ready (Str text_email)
  = ([], detector_ready, [CallPrompt (prompt_input text_email)]).
Proof. reflexivity. Qed.

Example labels :
  score_label 100 = "SAFE" /\ score_label 80 = "SAFE" /\ score_label 75 = "MODERATE"
  /\ score_label 74 = "MODERATE" /\ score_label 49 = "HIGH RISK".
Proof. repeat split. Qed.

Example score_saturates :
  privacy_score (counts_of (fun _ => 9%N)) = 0%Z
  /\ privacy_score (counts_of (only "phone" 2)) = 90%Z
  /\ privacy_score (counts_of (only "password" 2)) = 68%Z.
Proof. repeat split. Qed.

(** A scan with the patterns, the filter for e-mail addresses switched off
    before: nothing is masked, nothing is counted. *)
Example filtered_scan :
  bodyOverlays
    (page (run host_garbled (sys_fallback text_email)
               [Message (filter_change "email" false); ScanTimer])) = []
  /\ privacyScore
       (state (page (run host_garbled (sys_fallback text_email)
                         [Message (filter_change "email" false); ScanTimer]))) = 100%Z
  /\ bodyOverlays (page (run host_garbled (sys_fallback text_email) [ScanTimer])) = [0%nat].
Proof. repeat split; vm_compute; reflexivity. Qed.

(** After a scan, a scroll moves the overlay of the unit to the rectangle of
    the unit; once the unit is detached, the overlay and the entry go. *)
Example reposition_moves :
  overlayElements
    (page (run host_garbled (sys_fallback text_email) [ScanTimer; Reposition])) !! 0%nat
  = Some {| piiType := "email";
            style := {| left := 0; top := 0; width := 24; height := 1 |} |}.
Proof. vm_compute. reflexivity. Qed.

Example reposition_detached :
  bodyOverlays
    (page (run host_garbled (sys_fallback text_email)
               [ScanTimer;
                DomChange {| nodeType := fun _ => 3%N;
                             parentElement := fun _ => None;
                             tagName := fun _ => "p";
                             hasOverlayClass := fun _ => false;
                             documentContains := fun _ => false;
                             textContent := fun _ => text_email;
                             bodyTextNodes := [];
                             rangeClientRects := fun _ _ _ => [];
                             boundingRect := fun _ => None |};
                Reposition])) = []
  /\ maskedElements
       (state (page (run host_garbled (sys_fallback text_email)
                         [ScanTimer;
                          DomChange {| nodeType := fun _ => 3%N;
                                       parentElement := fun _ => None;
                                       tagName := fun _ => "p";
                                       hasOverlayClass := fun _ => false;
                                       documentContains := fun _ => false;
                                       textContent := fun _ => text_email;
                                       bodyTextNodes := [];
                                       rangeClientRects := fun _ _ _ => [];
                                       boundingRect := fun _ => None |};
                          Reposition]))) !! 1%nat = None.
Proof. split; vm_compute; reflexivity. Qed.

(** * Further properties *)

(** ** What the fallback's findings look like *)

Section Language.

Lemma repeat_opt_lang (r : regex) m (k : cursor -> option cursor) (n : nat) :
  matches_lang r m ->
  forall x e,
    repeat_opt m k n x = Some e ->
    exists y ws, rest x = concat ws ++ rest y
                 /\ pos y = (pos x + length (concat ws))%nat
                 /\ Forall (lang r) ws /\ (length ws <= n)%nat /\ k y = Some e.
Proof.
  intros Hm. induction n as [|n IH]; intros x e H; cbn [repeat_opt] in H.
  - exists x, []. cbn. repeat split; [lia|constructor|lia|exact H].
  - destruct (m _ x) as [e'|] eqn:Hrun.
    + injection H as ->. apply Hm in Hrun as (y & w & Hw & Hp & Hl & Hk).
      destruct (Nat.eqb (pos y) (pos x)); [discriminate|].
      apply IH in Hk as (z & ws & Hws & Hpz & Hall & Hlen & Hz).
      exists z, (w :: ws). cbn [concat length]. repeat split.
      * rewrite Hw, Hws. now rewrite app_assoc.
      * rewrite length_app. lia.
      * now constructor.
      * lia.
      * exact Hz.
    + exists x, []. cbn. repeat split; [lia|constructor|lia|exact H].
Qed.

Lemma repeat_req_lang (r : regex) m (k : cursor -> option cursor) hi lo (j : nat) :
  matches_lang r m ->
  forall x e,
    repeat_req m k hi lo j x = Some e ->
    exists y ws, rest x = concat ws ++ rest y
                 /\ pos y = (pos x + length (concat ws))%nat
                 /\ Forall (lang r) ws /\ (j <= length ws)%nat
                 /\ match hi with
                    | Some h => (length ws <= j + (h - lo))%nat
                    | None => True
                    end
                 /\ k y = Some e.
Proof.
  intros Hm. induction j as [|j IH]; intros x e H; cbn [repeat_req] in H.
  - apply (repeat_opt_lang r m k _ Hm) in H as (y & ws & Hws & Hp & Hall & Hlen & Hk).
    exists y, ws. repeat split; try assumption; [lia|].
    destruct hi as [h|]; [lia|exact I].
  - apply Hm in H as (y & w & Hw & Hp & Hl & Hk).
    apply IH in Hk as (z & ws & Hws & Hpz & Hall & Hlen & Hhi & Hz).
    exists z, (w :: ws). cbn [concat length]. repeat split.
    + rewrite Hw, Hws. now rewrite app_assoc.
    + rewrite length_app. lia.
    + now constructor.
    + lia.
    + destruct hi as [h|]; [lia|exact I].
    + exact Hz.
Qed.

(** The matcher is sound: what it matches is a word of the pattern. *)
Lemma rmatch_lang (r : regex) : matches_lang r (rmatch r).
Proof.
  induction r as [cs| |r1 IH1 r2 IH2|lo hi r IH]; intros k x e H; cbn [rmatch] in H.
  - destruct x as [b i [|c s]]; cbn in H; [discriminate|].
    destruct (in_charset cs c) eqn:Hc; [|discriminate].
    exists (Cursor (Some c) (S i) s), [c]. cbn. repeat split; [lia| |exact H].
    now exists c.
  - destruct (xorb _ _); [|discriminate].
    exists x, []. cbn. repeat split; [lia|exact H].
  - apply IH1 in H as (y & w1 & Hw1 & Hp1 & Hl1 & Hk).
    apply IH2 in Hk as (z & w2 & Hw2 & Hp2 & Hl2 & Hz).
    exists z, (w1 ++ w2). repeat split.
    + rewrite Hw1, Hw2. now rewrite app_assoc.
    + rewrite length_app. lia.
    + now exists w1, w2.
    + exact Hz.
  - apply (repeat_req_lang r _ k hi lo lo IH) in H
      as (y & ws & Hws & Hp & Hall & Hlen & Hhi & Hk).
    exists y, (concat ws). repeat split; try assumption.
    exists ws. repeat split; try assumption.
    destruct hi as [h|]; [lia|exact I].
Qed.

(** Every match of [matchAll] is a word of the pattern. *)
Lemma matchAll_at_lang (r : regex) :
  forall s prev i skip,
    Forall (fun m => lang r (matched m)) (matchAll_at r prev i s skip).
Proof.
  assert (forall prev i s e,
             rmatch r Some (Cursor prev i s) = Some e ->
             lang r (take (pos e - i) s)) as Hone.
  { intros prev i s e H. apply rmatch_lang in H as (y & w & Hw & Hp & Hl & [= ->]).
    cbn in Hw, Hp. rewrite Hw. replace (pos e - i)%nat with (length w) by lia.
    now rewrite take_app_length. }
  induction s as [|c s IH]; intros prev i skip; cbn [matchAll_at].
  - destruct skip; [|constructor].
    destruct (rmatch r Some _) as [e|] eqn:Hrun; constructor; [|constructor].
    cbn [matched]. eapply Hone, Hrun.
  - destruct skip; [|apply IH].
    destruct (rmatch r Some _) as [e|] eqn:Hrun; [|apply IH].
    constructor; [|apply IH]. cbn [matched]. eapply Hone, Hrun.
Qed.

Lemma concat_length_bounds (P : list N -> Prop) (a : nat) (ws : list (list N)) :
  (forall w, P w -> (a <= length w)%nat) ->
  Forall P ws -> (length ws * a <= length (concat ws))%nat.
Proof.
  intros Ha. induction 1 as [|w ws Hw _ IH]; cbn [concat length]; [lia|].
  rewrite length_app. specialize (Ha w Hw). lia.
Qed.

Lemma concat_length_upper (P : list N -> Prop) (b : nat) (ws : list (list N)) :
  (forall w, P w -> (length w <= b)%nat) ->
  Forall P ws -> (length (concat ws) <= length ws * b)%nat.
Proof.
  intros Hb. induction 1 as [|w ws Hw _ IH]; cbn [concat length]; [lia|].
  rewrite length_app. specialize (Hb w Hw). lia.
Qed.

Lemma lang_min_len (r : regex) : forall w, lang r w -> (min_len r <= length w)%nat.
Proof.
  induction r as [cs| |r1 IH1 r2 IH2|lo hi r IH]; intros w H; cbn [lang min_len] in *.
  - destruct H as (c & -> & _). cbn. lia.
  - subst w. cbn. lia.
  - destruct H as (w1 & w2 & -> & H1 & H2). rewrite length_app.
    specialize (IH1 _ H1). specialize (IH2 _ H2). lia.
  - destruct H as (ws & -> & Hall & Hlo & _).
    pose proof (concat_length_bounds (lang r) (min_len r) ws IH Hall). nia.
Qed.

Lemma lang_max_len (r : regex) :
  forall w b, lang r w -> max_len r = Some b -> (length w <= b)%nat.
Proof.
  induction r as [cs| |r1 IH1 r2 IH2|lo hi r IH]; intros w b H Hb; cbn [lang max_len] in *.
  - destruct H as (c & -> & _). injection Hb as <-. cbn. lia.
  - subst w. cbn. lia.
  - destruct H as (w1 & w2 & -> & H1 & H2). rewrite length_app.
    destruct (max_len r1) as [a1|]; [|discriminate].
    destruct (max_len r2) as [a2|]; [|discriminate]. injection Hb as <-.
    specialize (IH1 _ _ H1 eq_refl). specialize (IH2 _ _ H2 eq_refl). lia.
  - destruct H as (ws & -> & Hall & _ & Hhi).
    destruct hi as [h|]; [|discriminate].
    destruct (max_len r) as [a|]; [|discriminate]. injection Hb as <-.
    pose proof (concat_length_upper (lang r) a ws (fun w Hw => IH w a Hw eq_refl) Hall).
    nia.
Qed.

Lemma in_charset_app (cs1 cs2 : list (N * N)) (c : N) :
  in_charset (cs1 ++ cs2) c = in_charset cs1 c || in_charset cs2 c.
Proof. unfold in_charset. apply existsb_app. Qed.

Lemma lang_alphabet (r : regex) :
  forall w, lang r w -> Forall (fun c => in_charset (alphabet r) c = true) w.
Proof.
  induction r as [cs| |r1 IH1 r2 IH2|lo hi r IH]; intros w H; cbn [lang alphabet] in *.
  - destruct H as (c & -> & Hc). now repeat constructor.
  - subst w. constructor.
  - destruct H as (w1 & w2 & -> & H1 & H2). apply Forall_app. split.
    + eapply Forall_impl; [apply (IH1 _ H1)|]. intros c Hc. cbn in Hc.
      rewrite in_charset_app, Hc. reflexivity.
    + eapply Forall_impl; [apply (IH2 _ H2)|]. intros c Hc. cbn in Hc.
      rewrite in_charset_app, Hc. apply orb_true_r.
  - destruct H as (ws & -> & Hall & _). induction Hall as [|w ws Hw _ IHws]; cbn [concat].
    + constructor.
    + apply Forall_app. split; [now apply IH | exact IHws].
Qed.

End Language.

Section FallbackShape.

Lemma regexFallback_lang (text : list N) :
  Forall (fun f => exists r, prop_get patterns (type f) = Some r /\ lang r (value f))
         (regexFallback text).
Proof.
  unfold regexFallback, patterns. cbn [flat_map]. rewrite app_nil_r.
  repeat (apply Forall_app; split);
    (apply Forall_map; eapply Forall_impl; [apply matchAll_at_lang|];
     intros m Hm; cbn [finding_of_match type value]; eexists; split;
     [reflexivity | exact Hm]).
Qed.

Lemma regexFallback_within (text : list N) :
  Forall (finding_within text) (regexFallback text).
Proof.
  unfold regexFallback.
  pose proof patterns_not_nullable as Hp.
  induction Hp as [|[ty r] ps Hr _ IH]; cbn [flat_map]; [constructor|].
  apply Forall_app. split; [|exact IH].
  apply Forall_map. eapply Forall_impl; [apply (matchAll_at_within r Hr text None 0 0)|].
  intros m Hm. now apply finding_of_match_within.
Qed.

Lemma in_charset_incl (cs1 cs2 : list (N * N)) (c : N) :
  (forall p, In p cs1 -> In p cs2) ->
  in_charset cs1 c = true -> in_charset cs2 c = true.
Proof.
  unfold in_charset. rewrite !existsb_exists. intros Hincl (p & Hp & Hc).
  exists p. split; [now apply Hincl | exact Hc].
Qed.

Lemma chained_weaken (ms : list RegExpMatch) (i j : nat) :
  (i <= j)%nat -> chained j ms -> chained i ms.
Proof. destruct ms as [|m ms]; cbn; [tauto|]. intros Hij [H1 H2]. split; [lia|exact H2]. Qed.

(** The matches of a pattern that cannot match the empty string do not
    overlap and come from left to right. *)
Lemma matchAll_at_chained (r : regex) :
  nullable r = false ->
  forall s prev i skip, chained (i + skip) (matchAll_at r prev i s skip).
Proof.
  intros Hr. induction s as [|c s IH]; intros prev i skip; cbn [matchAll_at].
  - destruct skip; [|exact I].
    destruct (rmatch r Some (Cursor prev i [])) as [e|] eqn:Hrun; [|exact I].
    exfalso. apply rmatch_advancing in Hrun as (y & (w & Hw & Hp) & Hs & [= ->]).
    specialize (Hs Hr). cbn in Hw, Hp, Hs.
    symmetry in Hw. apply app_eq_nil in Hw as [-> _]. cbn in Hp. lia.
  - destruct skip as [|skip].
    + destruct (rmatch r Some (Cursor prev i (c :: s))) as [e|] eqn:Hrun.
      * apply rmatch_advancing in Hrun as (y & (w & Hw & Hp) & Hs & [= ->]).
        specialize (Hs Hr). cbn in Hw, Hp, Hs.
        cbn [chained index matched]. split; [lia|].
        assert (length (take (pos e - i) (c :: s)) = (pos e - i)%nat) as ->.
        { rewrite length_take. rewrite Hw, length_app. lia. }
        specialize (IH (Some c) (S i) (pos e - i - 1)%nat).
        replace (S i + (pos e - i - 1))%nat with (i + (pos e - i))%nat in IH by lia.
        exact IH.
      * eapply chained_weaken; [|apply (IH (Some c) (S i) 0%nat)]. lia.
    + specialize (IH (Some c) (S i) skip).
      replace (S i + skip)%nat with (i + S skip)%nat in IH by lia. exact IH.
Qed.

Lemma findings_of_matches_chained (ty : string) (ms : list RegExpMatch) :
  forall i, chained i ms -> findings_chained (Z.of_nat i) (map (finding_of_match ty) ms).
Proof.
  induction ms as [|m ms IH]; intros i; cbn [chained map findings_chained]; [tauto|].
  intros [H1 H2]. split; [cbn; lia|]. cbn [end_ finding_of_match].
  rewrite <- Nat2Z.inj_add. now apply IH.
Qed.

Lemma of_type_map_same (ty : string) (ms : list RegExpMatch) :
  of_type ty (map (finding_of_match ty) ms) = map (finding_of_match ty) ms.
Proof.
  unfold of_type. induction ms as [|m ms IH]; cbn [map List.filter]; [reflexivity|].
  cbn [type finding_of_match]. rewrite String.eqb_refl. now rewrite IH.
Qed.

Lemma of_type_map_other (ty t : string) (ms : list RegExpMatch) :
  String.eqb ty t = false -> of_type t (map (finding_of_match ty) ms) = [].
Proof.
  intros Hne. unfold of_type. induction ms as [|m ms IH]; cbn [map List.filter]; [reflexivity|].
  cbn [type finding_of_match]. now rewrite Hne.
Qed.

Lemma of_type_map (ty t : string) (ms : list RegExpMatch) :
  of_type t (map (finding_of_match ty) ms)
  = if String.eqb ty t then map (finding_of_match ty) ms else [].
Proof.
  destruct (String.eqb ty t) eqn:E.
  - apply String.eqb_eq in E. subst t. apply of_type_map_same.
  - now apply of_type_map_other.
Qed.

Lemma of_type_app (t : string) (l1 l2 : list Finding) :
  of_type t (l1 ++ l2) = of_type t l1 ++ of_type t l2.
Proof. unfold of_type. apply List.filter_app. Qed.

End FallbackShape.

(** X1.  Every finding of the pattern fallback carries one of the five types
    that have a pattern (never [password] or [address]), and its value is a
    word of the language of that pattern. *)
Theorem regexFallback_values_match_pattern (text : list N) :
  Forall (fun f =>
            In (type f) ["email"; "phone"; "ssn"; "credit_card"; "api_key"]
            /\ exists r, prop_get patterns (type f) = Some r /\ lang r (value f))
         (regexFallback text).
Proof.
  eapply Forall_impl; [apply regexFallback_lang|].
  intros f (r & Hr & Hl). split; [|now exists r].
  unfold patterns in Hr. cbn [prop_get] in Hr. cbn [In].
  repeat match type of Hr with
         | context [String.eqb ?a ?b] =>
             destruct (String.eqb_spec a b) as [E|_]; [rewrite <- E; tauto|]
         end.
  discriminate.
Qed.

(** X2.  The length of a finding of the pattern fallback is bounded by its
    pattern: an SSN has 11 code units, a credit card number 16 to 19, a phone
    number 10 to 19, an e-mail address at least 6 and an API key at least
    32. *)
Theorem regexFallback_value_lengths (text : list N) :
  Forall (fun f =>
            (type f = "ssn" -> length (value f) = 11%nat)
            /\ (type f = "credit_card" -> (16 <= length (value f) <= 19)%nat)
            /\ (type f = "phone" -> (10 <= length (value f) <= 19)%nat)
            /\ (type f = "email" -> (6 <= length (value f))%nat)
            /\ (type f = "api_key" -> (32 <= length (value f))%nat))
         (regexFallback text).
Proof.
  eapply Forall_impl; [apply regexFallback_lang|].
  intros f (r & Hr & Hl).
  pose proof (lang_min_len r _ Hl) as Hmin.
  pose proof (fun b => lang_max_len r _ b Hl) as Hmax.
  split; [|split; [|split; [|split]]]; intros Ht; rewrite Ht in Hr; injection Hr as <-;
    try (specialize (Hmax _ eq_refl)); cbn in Hmin, Hmax; lia.
Qed.

(** X3.  The characters of a finding of the pattern fallback are those of its
    pattern: an SSN is made of digits and dashes, a credit card number of
    digits, dashes and white space, a phone number of digits, [+ ( ) - .] and
    white space, an API key of letters and digits, and an e-mail address
    contains an [@]. *)
Theorem regexFallback_value_characters (text : list N) :
  Forall (fun f =>
            (type f = "ssn" ->
             Forall (fun c => in_charset [range "0" "9"; chr "-"] c = true) (value f))
            /\ (type f = "credit_card" ->
                Forall (fun c => in_charset (range "0" "9" :: chr "-" :: white_space) c = true)
                       (value f))
            /\ (type f = "phone" ->
                Forall (fun c => in_charset (range "0" "9" :: chr "+" :: chr "(" :: chr ")"
                                               :: chr "-" :: chr "." :: white_space) c = true)
                       (value f))
            /\ (type f = "api_key" ->
                Forall (fun c => in_charset [range "A" "Z"; range "a" "z"; range "0" "9"] c
                                 = true)
                       (value f))
            /\ (type f = "email" -> In 64%N (value f)))
         (regexFallback text).
Proof.
  eapply Forall_impl; [apply regexFallback_lang|].
  intros f (r & Hr & Hl).
  pose proof (lang_alphabet r _ Hl) as Ha.
  split; [|split; [|split; [|split]]]; intros Ht; rewrite Ht in Hr; injection Hr as <-.
  1-4: eapply Forall_impl; [exact Ha|]; intros c; apply in_charset_incl;
       intros p Hp; vm_compute in Hp; vm_compute;
       repeat (destruct Hp as [E|Hp];
               [subst p; repeat (first [left; reflexivity | right])|]);
       contradiction.
  clear Ha. cbn in Hl.
  destruct Hl as (w1 & w2 & E & _ & w3 & w4 & -> & _ & w5 & w6 & -> & (c & -> & Hc) & _).
  unfold in_charset in Hc. cbn in Hc. rewrite orb_false_r in Hc.
  apply andb_true_iff in Hc as [H1 H2]. apply N.leb_le in H1, H2.
  assert (c = 64%N) as -> by lia.
  rewrite E. apply in_or_app. right. apply in_or_app. right. apply in_or_app. left. now left.
Qed.

(** X4.  The findings of one type do not overlap, and the result lists them
    from left to right: each starts at or after the end of the one before. *)
Theorem regexFallback_same_type_disjoint (text : list N) (t : string) :
  findings_chained 0 (of_type t (regexFallback text)).
Proof.
  assert (forall ty r,
             nullable r = false ->
             findings_chained 0 (map (finding_of_match ty) (matchAll text r))) as Hseg.
  { intros ty r Hr. apply (findings_of_matches_chained ty _ 0%nat).
    apply (matchAll_at_chained r Hr text None 0%nat 0%nat). }
  unfold regexFallback, patterns. cbn [flat_map]. rewrite app_nil_r, !of_type_app.
  rewrite !of_type_map.
  repeat (match goal with
          | |- context [String.eqb ?a t] => destruct (String.eqb_spec a t) as [<-|_]
          end;
          [repeat match goal with
                  | |- context [String.eqb ?a ?b] =>
                      let v := eval vm_compute in (String.eqb a b) in
                      change (String.eqb a b) with v
                  end;
           cbn [app]; rewrite ?app_nil_r; now apply Hseg|]).
  exact I.
Qed.

(** X5.  Detection and masking compose: on the text it was found in, the
    value of a finding of the pattern fallback is always located by
    [indexOf], at its own start or at an earlier occurrence of the same
    value; such a finding is never skipped by [maskElement]. *)
Theorem regexFallback_findings_located (text : list N) :
  Forall (fun f =>
            exists i, indexOf text (value f) = Some i
                      /\ (Z.of_nat i <= start f)%Z
                      /\ occurs text (value f) i
                      /\ forall element pg,
                           mask_finding element text pg f
                           = mask_rects element (type f) pg
                               (rangeClientRects (document pg) element i
                                  (i + length (value f))))
         (regexFallback text).
Proof.
  eapply Forall_impl; [apply regexFallback_within|].
  intros f (Hv & Hs & He & Hl).
  assert (occurs text (value f) (Z.to_nat (start f))) as Hocc.
  { unfold occurs. rewrite Hv at 2. unfold substring. f_equal. lia. }
  pose proof (indexOf_spec text (value f)) as Hspec. unfold mask_finding.
  destruct (indexOf text (value f)) as [i|].
  - destruct Hspec as [Hi Hmin]. exists i. repeat split; try assumption.
    destruct (Z_le_gt_dec (Z.of_nat i) (start f)) as [|Hgt]; [assumption|].
    exfalso. apply (Hmin (Z.to_nat (start f))); [lia|exact Hocc].
  - exfalso. exact (Hspec _ Hocc).
Qed.

(** ** More on the privacy score *)

Section ScoreMore.

Local Open Scope Q_scope.

Lemma penalty_saturated (w : Q) (c : N) : 0 <= w -> (5 <= c)%N -> penalty w c == w + w.
Proof.
  intros Hw Hc. unfold penalty.
  destruct (N.ltb_spec 0 c); [|lia]. destruct (N.ltb_spec 1 c); [|lia].
  rewrite Q.min_r; [reflexivity|].
  pose proof (num_le 5 c Hc) as H5. change (num 5) with 5 in H5.
  assert (0 <= (num c - 5) * (w * (3 # 10))) as Hx.
  { apply Qmult_le_0_compat; [lra|]. apply Qmult_le_0_compat; [assumption|discriminate]. }
  assert ((num c - 1) * (w * (3 # 10)) == (num c - 5) * (w * (3 # 10)) + w * (12 # 10)) as ->
    by ring.
  lra.
Qed.

Lemma penalty_capped (w : Q) (c : N) : 0 <= w -> penalty w (N.min 5 c) == penalty w c.
Proof.
  intros Hw. destruct (N.le_gt_cases c 5) as [Hc|Hc].
  - now rewrite N.min_r.
  - rewrite N.min_l by lia. rewrite !penalty_saturated by (assumption || lia). reflexivity.
Qed.

Lemma penalties_capped (counts : string -> N) (types : list string) :
  penalties (map (fun t => (t, N.min 5 (counts t))) types)
  == penalties (map (fun t => (t, counts t)) types).
Proof.
  induction types as [|t types IH]; cbn [map penalties]; [reflexivity|].
  destruct (prop_get CONFIG.SCORE_WEIGHTS t) as [w|] eqn:Hw; [|exact IH].
  rewrite IH, penalty_capped; [reflexivity|].
  apply Qlt_le_weak. eapply weight_positive, Hw.
Qed.

Lemma penalties_nonneg (l : list (string * N)) : 0 <= penalties l.
Proof.
  induction l as [|[t c] l IH]; cbn [penalties]; [apply Qle_refl|].
  destruct (prop_get CONFIG.SCORE_WEIGHTS t) as [w|] eqn:Hw; [|exact IH].
  pose proof (penalty_nonneg w c (Qlt_le_weak _ _ (weight_positive t w Hw))). lra.
Qed.

Lemma penalties_found (l : list (string * N)) (t : string) (c : N) (w : Q) :
  In (t, c) l -> (0 < c)%N -> prop_get CONFIG.SCORE_WEIGHTS t = Some w ->
  w <= penalties l.
Proof.
  intros Hin Hc Hw. induction l as [|[t' c'] l IH]; [contradiction|].
  cbn [penalties]. destruct Hin as [[= -> ->]|Hin].
  - rewrite Hw. pose proof (penalties_nonneg l).
    pose proof (penalty_mono w 1 c (Qlt_le_weak _ _ (weight_positive t w Hw)) ltac:(lia)) as Hm.
    change (penalty w 1) with w in Hm. lra.
  - specialize (IH Hin).
    destruct (prop_get CONFIG.SCORE_WEIGHTS t') as [w'|] eqn:Hw'; [|exact IH].
    pose proof (penalty_nonneg w' c' (Qlt_le_weak _ _ (weight_positive t' w' Hw'))). lra.
Qed.

Lemma weight_of_type (t : string) :
  In t CONFIG.PII_TYPES -> exists w, prop_get CONFIG.SCORE_WEIGHTS t = Some w /\ 8 <= w.
Proof.
  unfold CONFIG.PII_TYPES. cbn [In].
  intros H. repeat (destruct H as [<-|H]; [eexists; split; [reflexivity|discriminate]|]).
  contradiction.
Qed.

Lemma raw_score_zero (l : list (string * N)) :
  Forall (fun e => snd e = 0%N) l -> forall s, fold_left score_step l s = s.
Proof.
  induction 1 as [|[t c] l Hc _ IH]; intros s; cbn [fold_left]; [reflexivity|].
  cbn in Hc. subst c. rewrite IH. unfold score_step.
  now destruct (prop_get CONFIG.SCORE_WEIGHTS t).
Qed.

End ScoreMore.

(** X7.  The score no longer changes from the fifth finding of a type on: the
    score of any counts is the score of the counts capped at 5. *)
Theorem privacy_score_saturates (counts : string -> N) :
  privacy_score (counts_of counts)
  = privacy_score (counts_of (fun t => N.min 5 (counts t))).
Proof.
  unfold privacy_score. f_equal. f_equal. apply Math_round_compat.
  unfold raw_score. rewrite !fold_score_step. unfold counts_of.
  rewrite (penalties_capped counts CONFIG.PII_TYPES). reflexivity.
Qed.

(** X8.  The score is 100 exactly when nothing is counted; as soon as one
    finding of any of the seven types is counted, it is at most 92. *)
Theorem privacy_score_full_iff_clean (counts : string -> N) :
  (privacy_score (counts_of counts) = 100%Z
   <-> forall t, In t CONFIG.PII_TYPES -> counts t = 0%N)
  /\ (forall t, In t CONFIG.PII_TYPES -> (0 < counts t)%N ->
                (privacy_score (counts_of counts) <= 92)%Z).
Proof.
  assert (forall t, In t CONFIG.PII_TYPES -> (0 < counts t)%N ->
                    (privacy_score (counts_of counts) <= 92)%Z) as Hfound.
  { intros t Ht Hc. destruct (weight_of_type t Ht) as (w & Hw & H8).
    assert (In (t, counts t) (counts_of counts)) as Hin
      by (unfold counts_of; apply in_map_iff; now exists t).
    pose proof (penalties_found _ t (counts t) w Hin Hc Hw) as Hp.
    pose proof (fold_score_step (counts_of counts) 100) as Hraw.
    assert (raw_score (counts_of counts) <= 92)%Q as Hle by (unfold raw_score; lra).
    apply Math_round_mono in Hle. change (Math_round 92) with 92%Z in Hle.
    unfold privacy_score. lia. }
  split; [|exact Hfound]. split.
  - intros H100 t Ht. destruct (N.eq_0_gt_0_cases (counts t)) as [|Hpos]; [assumption|].
    specialize (Hfound t Ht Hpos). lia.
  - intros Hzero. unfold privacy_score, raw_score.
    rewrite raw_score_zero; [reflexivity|].
    unfold counts_of. apply Forall_map. apply Forall_forall. intros t Ht. cbn.
    apply Hzero. now apply list_elem_of_In.
Qed.

(** X9.  [resetPrivacyData] followed by [calculatePrivacyScore] gives the
    score 100, whatever keys [state.piiCounts] has: the keys are kept and
    every count is 0. *)
Theorem reset_then_score (st : State) :
  privacyScore (calculatePrivacyScore (resetPrivacyData st)) = 100%Z
  /\ map fst (piiCounts (calculatePrivacyScore (resetPrivacyData st))) = map fst (piiCounts st)
  /\ Forall (fun e => snd e = 0%N) (piiCounts (calculatePrivacyScore (resetPrivacyData st))).
Proof.
  cbn [calculatePrivacyScore resetPrivacyData with_privacy privacyScore piiCounts].
  assert (Forall (fun e : string * N => snd e = 0%N)
                 (map (fun '(key, _) => (key, 0%N)) (piiCounts st))) as Hz.
  { apply Forall_map. apply Forall_forall. now intros [k c] _. }
  split; [|split; [|exact Hz]].
  - unfold privacy_score, raw_score. now rewrite raw_score_zero.
  - rewrite map_map. apply map_ext. now intros [k c].
Qed.

(** ** More on the detector *)

Section DetectorMore.

Lemma trimStart_nil_white (s : list N) :
  trimStart s = [] -> Forall (fun c => is_white_space c = true) s.
Proof.
  induction s as [|c s IH]; cbn [trimStart]; [constructor|].
  destruct (is_white_space c) eqn:Hc; [|discriminate]. intros H. constructor; auto.
Qed.

Lemma trimStart_head (s : list N) :
  match trimStart s with
  | [] => True
  | c :: _ => is_white_space c = false
  end.
Proof.
  induction s as [|c s IH]; cbn [trimStart]; [exact I|].
  destruct (is_white_space c) eqn:Hc; [exact IH | exact Hc].
Qed.

Lemma trim_nil_white (s : list N) :
  trim s = [] -> Forall (fun c => is_white_space c = true) s.
Proof.
  unfold trim, trimEnd. intros H.
  assert (trimStart (rev (trimStart s)) = []) as H1.
  { rewrite <- (rev_involutive (trimStart (rev (trimStart s)))), H. reflexivity. }
  apply trimStart_nil_white in H1. apply Forall_rev in H1. rewrite rev_involutive in H1.
  apply trimStart_nil_white. pose proof (trimStart_head s) as Hh.
  destruct (trimStart s) as [|c s']; [reflexivity|].
  apply Forall_cons in H1 as [Hc _]. congruence.
Qed.

Lemma is_blank_blank_input (text : JsText) : is_blank text = true -> blank_input text.
Proof.
  destruct text as [| |s]; cbn; try tauto.
  destruct s as [|c s]; [constructor|].
  destruct (trim (c :: s)) eqn:Ht; [|discriminate]. intros _. now apply trim_nil_white.
Qed.

Lemma detectPII_initialised (h : Host) (d : PiiDetector) (text : JsText) :
  detectorInitialized d = true ->
  detectPII h d text
  = if is_blank text then ([], d, [])
    else match text with
         | Str s =>
             match (if useRegexFallback d then None else session d) with
             | None => (regexFallback s, d, [CallRegexFallback s])
             | Some sess =>
                 match try_prompt h sess s with
                 | Some items => (items, d, [CallPrompt (prompt_input s)])
                 | None => (regexFallback s, d,
                            [CallPrompt (prompt_input s); CallRegexFallback s])
                 end
             end
         | _ => ([], d, [])
         end.
Proof.
  intros Hi. unfold detectPII. rewrite Hi.
  destruct (is_blank text); [reflexivity|].
  destruct text as [| |s]; reflexivity.
Qed.

Lemma init_failure (h : Host) (d : PiiDetector) :
  init_fails h ->
  init h d = ({| session := session d; useRegexFallback := true;
                 detectorInitialized := true |},
              snd (init h d)).
Proof.
  unfold init_fails, init. intros [->|[->|Hc]]; [reflexivity|reflexivity|].
  destruct (availability h) as [a|]; [|reflexivity].
  destruct (String.eqb a "unavailable"); [reflexivity|]. now rewrite Hc.
Qed.

End DetectorMore.

(** X10.  [detectPII] skips the detection exactly for the inputs that are
    undefined, null, empty or made of white space: with an initialised
    detector, any other text is sent to the model or run through the
    patterns. *)
Theorem detectPII_skips_iff_blank (h : Host) (d : PiiDetector) (text : JsText) :
  detectorInitialized d = true ->
  (snd (detectPII h d text) = [] <-> blank_input text).
Proof.
  intros Hi. rewrite (detectPII_initialised h d text Hi). split.
  - destruct (is_blank text) eqn:Hb; [intros _; now apply is_blank_blank_input|].
    destruct text as [| |s]; [discriminate Hb|discriminate Hb|].
    destruct (if useRegexFallback d then None else session d); [|discriminate].
    destruct (try_prompt h n s); discriminate.
  - intros Hb. now rewrite (blank_input_is_blank text Hb).
Qed.

Lemma detectPII_skips_iff_blank_witness :
  snd (detectPII host_garbled detector_ready (Str [32; 10]%N)) = []
  /\ snd (detectPII host_garbled detector_ready (Str [32; 97; 10]%N)) <> [].
Proof.
  split.
  - apply (detectPII_skips_iff_blank host_garbled detector_ready _ eq_refl).
    repeat constructor.
  - intros H. apply (detectPII_skips_iff_blank host_garbled detector_ready _ eq_refl) in H.
    cbn in H. apply Forall_cons in H as [_ H]. apply Forall_cons in H as [H _].
    discriminate H.
Defined.

(** X11.  The detector is initialised once: after any call of [detectPII] it
    is initialised, and a later call, on whatever host and text, leaves it as
    it is and calls neither [LanguageModel.availability] nor
    [LanguageModel.create] again. *)
Theorem detectPII_initialises_once (h h' : Host) (d : PiiDetector) (text text' : JsText) :
  let d1 := snd (fst (detectPII h d text)) in
  detectorInitialized d1 = true
  /\ snd (fst (detectPII h' d1 text')) = d1
  /\ Forall (fun c => ~ init_call c) (snd (detectPII h' d1 text')).
Proof.
  cbn zeta.
  assert (detectorInitialized (snd (fst (detectPII h d text))) = true) as Hi.
  { destruct (detectorInitialized d) eqn:Hd.
    - rewrite (detectPII_initialised h d text Hd).
      destruct (is_blank text); [exact Hd|].
      destruct text as [| |s]; try exact Hd.
      destruct (if useRegexFallback d then None else session d); [|exact Hd].
      destruct (try_prompt h n s); exact Hd.
    - unfold detectPII. rewrite Hd. pose proof (init_initialized h d) as Hin.
      destruct (init h d) as [d0 calls]. cbn [fst] in Hin.
      destruct (is_blank text); [exact Hin|].
      destruct text as [| |s]; try exact Hin.
      destruct (if useRegexFallback d0 then None else session d0); [|exact Hin].
      destruct (try_prompt h n s); exact Hin. }
  split; [exact Hi|].
  rewrite (detectPII_initialised h' _ text' Hi).
  destruct (is_blank text'); [split; [reflexivity|constructor]|].
  destruct text' as [| |s]; try (split; [reflexivity|constructor]).
  destruct (if useRegexFallback _ then None else session _);
    [|split; [reflexivity|repeat constructor; tauto]].
  destruct (try_prompt h' n s); (split; [reflexivity|repeat constructor; tauto]).
Qed.

(** X12.  A failed [init()] is for good: when the model is unavailable or the
    session cannot be created, the detector switches to the patterns, and
    every later call of [detectPII], whatever the host answers then, returns
    the findings of the patterns without any call to the host. *)
Theorem init_failure_is_permanent (h h' : Host) (d : PiiDetector) (s : list N) :
  init_fails h ->
  useRegexFallback (fst (init h d)) = true
  /\ detectPII h' (fst (init h d)) (Str s)
     = if is_blank (Str s) then ([], fst (init h d), [])
       else (regexFallback s, fst (init h d), [CallRegexFallback s]).
Proof.
  intros Hf. rewrite (init_failure h d Hf). cbn [fst]. split; [reflexivity|].
  rewrite detectPII_initialised by reflexivity. reflexivity.
Qed.

Lemma init_failure_is_permanent_witness :
  useRegexFallback (fst (init host_unavailable new_PiiDetector)) = true
  /\ detectPII host_garbled (fst (init host_unavailable new_PiiDetector)) (Str text_email)
     = (regexFallback text_email, detector_fallback, [CallRegexFallback text_email]).
Proof.
  apply (init_failure_is_permanent host_unavailable host_garbled new_PiiDetector text_email).
  right. left. reflexivity.
Defined.

(** X13.  After [destroy()] an initialised detector answers from the patterns
    alone: a non-blank text gives the findings of [regexFallback], no prompt
    is sent and no session is created again; [destroy()] twice is
    [destroy()] once. *)
Theorem destroy_then_detect (h : Host) (d : PiiDetector) (s : list N) :
  detectorInitialized d = true ->
  is_blank (Str s) = false ->
  detectPII h (destroy d) (Str s) = (regexFallback s, destroy d, [CallRegexFallback s])
  /\ destroy (destroy d) = destroy d.
Proof.
  intros Hi Hb.
  assert (detectorInitialized (destroy d) = true /\ session (destroy d) = None) as [Hi' Hs].
  { unfold destroy. destruct (session d) eqn:E; cbn; auto. }
  split.
  - rewrite (detectPII_initialised h _ _ Hi'), Hb, Hs.
    now destruct (useRegexFallback (destroy d)).
  - unfold destroy at 1. now rewrite Hs.
Qed.

Lemma destroy_then_detect_witness :
  detectPII host_garbled (destroy detector_ready) (Str text_email)
  = (regexFallback text_email, destroy detector_ready, [CallRegexFallback text_email])
  /\ destroy (destroy detector_ready) = destroy detector_ready.
Proof. apply (destroy_then_detect host_garbled detector_ready text_email); reflexivity. Defined.

(** ** The overlays of the body and the registry *)

Section Preserved.

(** A property of the overlay registry, the overlays of the body and the
    overlay elements that the three operations on masks keep is kept by
    every event. *)
Context (h : Host) (P : Page -> Prop).

Hypothesis P_same :
  forall pg pg',
    maskedElements (state pg') = maskedElements (state pg) ->
    nextOverlay pg' = nextOverlay pg ->
    bodyOverlays pg' = bodyOverlays pg ->
    overlayElements pg' = overlayElements pg ->
    P pg -> P pg'.
Hypothesis P_add : forall pg element rect type, P pg -> P (addOverlay pg element rect type).
Hypothesis P_clear : forall pg, P pg -> P (clearAllMasks pg).
Hypothesis P_reposition :
  forall pg n overlays,
    maskedElements (state pg) !! n = Some overlays ->
    P pg -> P (reposition_entry pg (n, overlays)).

Lemma maskElement_preserves (pg : Page) (element : nat) (piiItems : list Finding) :
  P pg -> P (maskElement pg element piiItems).
Proof.
  unfold maskElement. generalize (textContent (document pg) element). intros text.
  revert pg. induction piiItems as [|pii items IH]; intros pg HP; cbn [fold_left].
  - exact HP.
  - apply IH. unfold mask_finding.
    destruct (indexOf text (value pii)) as [i|]; [|exact HP].
    generalize (rangeClientRects (document pg) element i (i + length (value pii))).
    intros rects. unfold mask_rects. clear IH. revert pg HP.
    induction rects as [|rect rects IHr]; intros pg HP; cbn [fold_left]; [exact HP|].
    apply IHr. destruct (visible rect); [now apply P_add | exact HP].
Qed.

Lemma scan_node_result_preserves (pg : Page) (n : nat) (piiItems : list Finding)
    (total : nat) :
  P pg -> P (scan_node_result pg n piiItems total).1.
Proof.
  intros HP. unfold scan_node_result.
  destruct (List.filter (filter_enabled (state pg)) piiItems) as [|item items].
  - cbn. eapply P_same; [| | | |exact HP]; reflexivity.
  - cbn [fst].
    eapply P_same; [| | | |apply (maskElement_preserves pg n (item :: items) HP)];
      reflexivity.
Qed.

Lemma scan_finish_preserves (pg : Page) (total : nat) : P pg -> P (scan_finish pg total).
Proof.
  intros HP. eapply P_same; [| | | |exact HP]; unfold scan_finish, updatePrivacyBadge;
    cbn [state with_state]; destruct (isEnabled _); reflexivity.
Qed.

Lemma scan_loop_preserves (nodes : list nat) :
  forall pg total, P pg -> P (scan_loop h pg nodes total).1.
Proof.
  induction nodes as [|n nodes IH]; intros pg total HP; cbn [scan_loop].
  - now apply scan_finish_preserves.
  - destruct (bool_decide _); [now apply IH|].
    destruct (_ <? _)%nat; [now apply IH|].
    destruct (detector (state pg)) as [d|]; [|exact HP].
    destruct (detectPII h d _) as [[piiItems d'] calls].
    set (pg1 := with_state pg (with_detector (state pg) (Some d'))).
    assert (P pg1) as HP1 by (eapply P_same; [| | | |exact HP]; reflexivity).
    destruct (existsb is_host_call calls); [exact HP1|].
    pose proof (scan_node_result_preserves pg1 n piiItems total HP1) as HP2.
    destruct (scan_node_result pg1 n piiItems total) as [pg2 total2]. now apply IH.
Qed.

Lemma updateOverlayPositions_preserves (pg : Page) :
  P pg -> P (updateOverlayPositions pg).
Proof.
  unfold updateOverlayPositions.
  assert (forall l pg,
             NoDup l.*1 ->
             (forall n overlays, (n, overlays) ∈ l ->
                                 maskedElements (state pg) !! n = Some overlays) ->
             P pg -> P (fold_left reposition_entry l pg)) as Hfold.
  { clear pg. induction l as [|[n overlays] l IH]; intros pg Hnd Hl HP; cbn [fold_left].
    - exact HP.
    - cbn in Hnd. apply NoDup_cons in Hnd as [Hn Hnd].
      apply IH; [exact Hnd| |apply P_reposition; [apply Hl; apply list_elem_of_here|exact HP]].
      intros k ov Hk.
      assert (k <> n) as Hkn.
      { intros ->. apply Hn. apply list_elem_of_fmap. exists (n, ov). now split. }
      destruct (reposition_entry_effect pg n overlays) as (_ & _ & _ & SM & _).
      cbn zeta in SM. rewrite SM. rewrite bool_decide_eq_false_2 by assumption.
      cbn [andb]. apply Hl. now apply list_elem_of_further. }
  apply Hfold; [apply NoDup_fst_map_to_list|].
  intros n overlays Hin. now apply elem_of_map_to_list.
Qed.

Lemma step_preserves (s : Sys) (e : Event) : P (page s) -> P (page (step h s e)).
Proof.
  intros HP.
  assert (forall s', P (page s') -> P (page (start_scan h s'))) as Hstart.
  { intros s' HP'. unfold start_scan.
    assert (P (scanPage h (page s')).1) as H.
    { unfold scanPage. destruct (_ || _); [exact HP'|].
      apply scan_loop_preserves.
      eapply P_same; [| | | |apply (P_clear (page s') HP')]; reflexivity. }
    now destruct (scanPage h (page s')). }
  destruct e as [ |[ |enabled| |piiType enabled]|i| |d]; cbn [step on_message].
  - now apply Hstart.
  - exact HP.
  - destruct enabled.
    + apply Hstart. cbn [page]. eapply P_same; [| | | |exact HP]; reflexivity.
    + cbn [page]. apply P_clear. eapply P_same; [| | | |exact HP]; reflexivity.
  - now apply Hstart.
  - eapply P_same; [| | | |exact HP]; reflexivity.
  - destruct (running s !! i) as [p|]; [|exact HP]. unfold scan_resume.
    pose proof (scan_node_result_preserves (page s) (awaited p) (answer p) (totalFound p) HP)
      as H1.
    destruct (scan_node_result _ _ _ _) as [pg1 total1].
    pose proof (scan_loop_preserves (todo p) pg1 total1 H1) as H2.
    now destruct (scan_loop h pg1 (todo p) total1).
  - now apply updateOverlayPositions_preserves.
  - eapply P_same; [| | | |exact HP]; reflexivity.
Qed.

Lemma run_preserves (events : list Event) :
  forall s, P (page s) -> P (page (run h s events)).
Proof.
  unfold run. induction events as [|e events IH]; intros s HP; cbn [fold_left].
  - exact HP.
  - apply IH. now apply step_preserves.
Qed.

End Preserved.

Lemma all_overlays_elem (m : gmap nat (list nat)) (o : nat) :
  o ∈ all_overlays m <-> exists n overlays, m !! n = Some overlays /\ o ∈ overlays.
Proof.
  unfold all_overlays. rewrite list_elem_of_In, in_concat. split.
  - intros (overlays & Hin & Ho). apply in_map_iff in Hin as ([n ov] & <- & Hin).
    exists n, ov. split; [|now apply list_elem_of_In].
    apply elem_of_map_to_list. now apply list_elem_of_In.
  - intros (n & overlays & Hn & Ho). exists overlays. split; [|now apply list_elem_of_In].
    apply in_map_iff. exists (n, overlays). split; [reflexivity|].
    apply list_elem_of_In. now apply elem_of_map_to_list.
Qed.

Lemma NoDup_filter_list {A} (f : A -> bool) (l : list A) :
  NoDup l -> NoDup (List.filter f l).
Proof.
  induction 1 as [|a l Ha _ IH]; cbn [List.filter]; [constructor|].
  destruct (f a); [|exact IH]. constructor; [|exact IH].
  rewrite list_elem_of_In, filter_In, <- list_elem_of_In. tauto.
Qed.

Lemma page_wf_same (pg pg' : Page) :
  maskedElements (state pg') = maskedElements (state pg) ->
  nextOverlay pg' = nextOverlay pg ->
  bodyOverlays pg' = bodyOverlays pg ->
  overlayElements pg' = overlayElements pg ->
  page_wf pg -> page_wf pg'.
Proof.
  intros Hm Hn Hb He (Hwf & Hnd & Hbd & Hiff & Hel). unfold page_wf.
  rewrite Hm, Hb, He.
  split; [eapply registry_wf_same; eassumption|].
  split; [exact Hnd|]. split; [exact Hbd|]. split; [exact Hiff | exact Hel].
Qed.

Lemma addOverlay_page_wf (pg : Page) (element : nat) (rect : Rect) (type : string) :
  page_wf pg -> page_wf (addOverlay pg element rect type).
Proof.
  intros (Hwf & Hnd & Hbd & Hiff & Hel).
  pose proof (addOverlay_wf pg element rect type Hwf) as Hwf'.
  destruct Hwf as [Hlt _].
  split; [exact Hwf'|].
  cbn [addOverlay state maskedElements with_maskedElements nextOverlay bodyOverlays
       overlayElements].
  assert (nextOverlay pg ∉ bodyOverlays pg) as Hfresh.
  { intros Hin. apply Hiff in Hin as (n & ov & Hn & Ho). specialize (Hlt n ov _ Hn Ho). lia. }
  split; [|split; [|split]].
  - intros n overlays Hn. destruct (decide (element = n)) as [<-|Hne].
    + rewrite lookup_insert_eq in Hn. injection Hn as <-.
      apply NoDup_app. split; [|split].
      * destruct (maskedElements (state pg) !! element) as [ov|] eqn:E; cbn;
          [now apply (Hnd element) | constructor].
      * intros o Ho Ho'. apply list_elem_of_singleton in Ho'. subst o.
        destruct (maskedElements (state pg) !! element) as [ov|] eqn:E; cbn in Ho;
          [|now apply elem_of_nil in Ho].
        specialize (Hlt element ov _ E Ho). lia.
      * apply NoDup_singleton.
    + rewrite lookup_insert_ne in Hn by assumption. now apply (Hnd n).
  - apply NoDup_app. split; [exact Hbd|]. split; [|apply NoDup_singleton].
    intros o Ho Ho'. apply list_elem_of_singleton in Ho'. now subst o.
  - intros o. rewrite elem_of_app, list_elem_of_singleton. split.
    + intros [Ho| ->].
      * apply Hiff in Ho as (n & ov & Hn & Ho).
        destruct (decide (element = n)) as [<-|Hne].
        -- eexists element, _. rewrite lookup_insert_eq. split; [reflexivity|].
           rewrite Hn. cbn. apply elem_of_app. now left.
        -- exists n, ov. now rewrite lookup_insert_ne.
      * eexists element, _. rewrite lookup_insert_eq. split; [reflexivity|].
        apply elem_of_app. right. now apply list_elem_of_singleton.
    + intros (n & ov & Hn & Ho). destruct (decide (element = n)) as [<-|Hne].
      * rewrite lookup_insert_eq in Hn. injection Hn as <-.
        apply elem_of_app in Ho as [Ho|Ho]; [|right; now apply list_elem_of_singleton].
        left. destruct (maskedElements (state pg) !! element) as [ov|] eqn:E; cbn in Ho;
          [|now apply elem_of_nil in Ho].
        apply Hiff. now exists element, ov.
      * rewrite lookup_insert_ne in Hn by assumption. left. apply Hiff. now exists n, ov.
  - intros o. rewrite elem_of_app, list_elem_of_singleton. intros [Ho| ->].
    + destruct (decide (nextOverlay pg = o)) as [<-|Hne];
        [now rewrite lookup_insert_eq | rewrite lookup_insert_ne by assumption; now apply Hel].
    + now rewrite lookup_insert_eq.
Qed.

Lemma clearAllMasks_body (pg : Page) :
  page_wf pg -> bodyOverlays (clearAllMasks pg) = [].
Proof.
  intros (_ & _ & _ & Hiff & _). cbn [clearAllMasks bodyOverlays]. apply filter_none.
  apply Forall_forall. intros o Ho. apply negb_false_iff, bool_decide_eq_true.
  apply all_overlays_elem. now apply Hiff.
Qed.

Lemma clearAllMasks_page_wf (pg : Page) : page_wf pg -> page_wf (clearAllMasks pg).
Proof.
  intros Hpg. pose proof (clearAllMasks_body pg Hpg) as Hb.
  split; [apply clearAllMasks_wf|]. rewrite Hb.
  cbn [clearAllMasks state maskedElements with_processedNodes with_maskedElements].
  split; [|split; [|split]].
  - intros n ov Hn. now rewrite lookup_empty in Hn.
  - constructor.
  - intros o. split.
    + intros Ho. now apply elem_of_nil in Ho.
    + intros (n & ov & Hn & _). now rewrite lookup_empty in Hn.
  - intros o Ho. now apply elem_of_nil in Ho.
Qed.

Lemma reposition_entry_page_wf (pg : Page) (n : nat) (overlays : list nat) :
  maskedElements (state pg) !! n = Some overlays ->
  page_wf pg -> page_wf (reposition_entry pg (n, overlays)).
Proof.
  intros Hn (Hwf & Hnd & Hbd & Hiff & Hel).
  pose proof (reposition_entry_wf pg (n, overlays) Hwf) as Hwf'.
  destruct Hwf as [_ Huniq].
  split; [exact Hwf'|]. clear Hwf'. rewrite reposition_entry_cases.
  destruct (isAttached (document pg) n).
  - assert (forall rect o, o ∈ bodyOverlays pg ->
                           is_Some (move_overlays rect overlays (overlayElements pg) !! o))
      as Hmove.
    { intros rect o Ho. apply elem_of_dom. rewrite move_overlays_dom. apply elem_of_dom.
      now apply Hel. }
    destruct (target_rect (document pg) n) as [rect|]; cbn; repeat split;
      try assumption; try apply Hiff; try (intros o Ho; now apply Hmove).
  - cbn [state maskedElements with_bodyOverlays with_state with_maskedElements
         bodyOverlays overlayElements].
    split; [|split; [|split]].
    + intros k ov Hk. apply lookup_delete_Some in Hk as [_ Hk]. now apply (Hnd k).
    + now apply NoDup_filter_list.
    + intros o. rewrite removeChildren_elem, Hiff. split.
      * intros [(k & ov & Hk & Ho) Hno]. exists k, ov. split; [|exact Ho].
        apply lookup_delete_Some. split; [|exact Hk]. intros <-.
        rewrite Hn in Hk. injection Hk as <-. contradiction.
      * intros (k & ov & Hk & Ho). apply lookup_delete_Some in Hk as [Hne Hk].
        split; [now exists k, ov|]. intros Ho'. apply Hne.
        eapply Huniq; eassumption.
    + intros o Ho. apply removeChildren_elem in Ho as [Ho _]. now apply Hel.
Qed.

Lemma run_page_wf (h : Host) (events : list Event) (s : Sys) :
  page_wf (page s) -> page_wf (page (run h s events)).
Proof.
  apply run_preserves.
  - exact page_wf_same.
  - exact addOverlay_page_wf.
  - exact clearAllMasks_page_wf.
  - exact reposition_entry_page_wf.
Qed.





Lemma page_wf_no_masks (pg : Page) : no_masks pg -> page_wf pg.
Proof.
  intros [Hm Hb]. unfold page_wf, registry_wf. rewrite Hm, Hb.
  split; [split|split; [|split; [|split]]].
  - intros n ov o Hn. now rewrite lookup_empty in Hn.
  - intros n n' ov ov' o Hn. now rewrite lookup_empty in Hn.
  - intros n ov Hn. now rewrite lookup_empty in Hn.
  - constructor.
  - intros o. split.
    + intros Ho. now apply elem_of_nil in Ho.
    + intros (n & ov & Hn & _). now rewrite lookup_empty in Hn.
  - intros o Ho. now apply elem_of_nil in Ho.
Qed.





(** X16.  [clearAllMasks] leaves no overlay in the body: after the toggle to
    the disabled state, and at the start of every pass, the overlays of the
    passes before are gone, also those of passes that are still suspended. *)
Theorem toggle_off_leaves_no_overlay (h : Host) (s : Sys) (events : list Event) :
  no_masks (page s) ->
  let s' := step h (run h s events) (Message (toggle false)) in
  bodyOverlays (page s') = []
  /\ s_maskedCount (get_status_response (page s')) = 0%nat
  /\ bodyOverlays (clearAllMasks (page (run h s events))) = [].
Proof.
  intros H0. cbn zeta.
  pose proof (run_page_wf h events s (page_wf_no_masks _ H0)) as Hwf.
  split; [|split].
  - cbn [step on_message page]. apply clearAllMasks_body.
    eapply page_wf_same; [| | | |exact Hwf]; reflexivity.
  - cbn [step on_message page get_status_response s_maskedCount clearAllMasks state
         with_processedNodes with_maskedElements maskedElements].
    now rewrite map_to_list_empty.
  - now apply clearAllMasks_body.
Qed.

Lemma toggle_off_leaves_no_overlay_witness :
  let s := run host_garbled (sys_model text_email) [ScanTimer; Message rescan; Resolve 0] in
  length (bodyOverlays (page s)) = 1%nat
  /\ length (running s) = 1%nat
  /\ bodyOverlays (page (step host_garbled s (Message (toggle false)))) = [].
Proof.
  cbn zeta. split; [vm_compute; reflexivity|]. split; [vm_compute; reflexivity|].
  destruct (toggle_off_leaves_no_overlay host_garbled (sys_model text_email)
              [ScanTimer; Message rescan; Resolve 0]) as (H & _).
  - split; reflexivity.
  - exact H.
Defined.

(** ** Passes without the model *)

Section Local.

Context (h : Host) (d : PiiDetector).
Hypothesis d_local : answers_locally d.

Lemma detectPII_local (text : JsText) :
  detectPII h d text
  = (match text with
     | Str s => if is_blank text then [] else regexFallback s
     | _ => []
     end,
     d,
     match text with
     | Str s => if is_blank text then [] else [CallRegexFallback s]
     | _ => []
     end).
Proof.
  destruct d_local as [Hi Hf]. rewrite (detectPII_initialised h d text Hi).
  destruct text as [| |s]; try reflexivity.
  destruct (is_blank (Str s)); [reflexivity|].
  destruct Hf as [Hf|Hf]; rewrite Hf; [reflexivity|].
  now destruct (useRegexFallback d).
Qed.

Lemma detectPII_local_quiet (text : JsText) :
  (detectPII h d text).1.2 = d /\ existsb is_host_call (detectPII h d text).2 = false.
Proof.
  rewrite detectPII_local. split; [reflexivity|]. cbn [snd].
  destruct text as [| |s]; try reflexivity. now destruct (is_blank (Str s)).
Qed.

Lemma maskElement_state (pg : Page) (n : nat) (piiItems : list Finding) :
  state (maskElement pg n piiItems)
  = with_maskedElements (state pg) (maskedElements (state (maskElement pg n piiItems))).
Proof.
  apply (maskElement_adds (fun _ => True) pg n piiItems).
  apply Forall_forall. now intros.
Qed.

Lemma scan_node_result_detector (pg : Page) (n : nat) (piiItems : list Finding)
    (total : nat) :
  detector (state (scan_node_result pg n piiItems total).1) = detector (state pg).
Proof.
  unfold scan_node_result.
  destruct (List.filter (filter_enabled (state pg)) piiItems) as [|item items].
  - reflexivity.
  - cbn [fst state with_state with_processedNodes with_privacy detector].
    now rewrite maskElement_state.
Qed.

Lemma scan_finish_detector (pg : Page) (total : nat) :
  detector (state (scan_finish pg total)) = detector (state pg).
Proof.
  unfold scan_finish, updatePrivacyBadge. cbn [state with_state].
  now destruct (isEnabled _).
Qed.

Lemma scan_loop_local (nodes : list nat) :
  forall pg total,
    detector (state pg) = Some d ->
    (scan_loop h pg nodes total).2 = None
    /\ detector (state (scan_loop h pg nodes total).1) = Some d.
Proof.
  induction nodes as [|n nodes IH]; intros pg total Hd; cbn [scan_loop].
  - split; [reflexivity|]. cbn [fst]. now rewrite scan_finish_detector.
  - destruct (bool_decide _); [now apply IH|].
    destruct (_ <? _)%nat; [now apply IH|].
    rewrite Hd.
    destruct (detectPII_local_quiet (Str (textContent (document pg) n))) as [Hd' Hq].
    destruct (detectPII h d _) as [[piiItems d'] calls]. cbn in Hd', Hq. subst d'.
    rewrite Hq.
    set (pg1 := with_state pg (with_detector (state pg) (Some d))).
    pose proof (scan_node_result_detector pg1 n piiItems total) as H1.
    destruct (scan_node_result pg1 n piiItems total) as [pg2 total2].
    apply IH. exact H1.
Qed.

Lemma scanPage_local (pg : Page) :
  detector (state pg) = Some d ->
  (scanPage h pg).2 = None /\ detector (state (scanPage h pg).1) = Some d.
Proof.
  intros Hd. unfold scanPage. destruct (_ || _); [now split|].
  apply scan_loop_local. exact Hd.
Qed.

Lemma updateOverlayPositions_detector (pg : Page) :
  detector (state (updateOverlayPositions pg)) = detector (state pg).
Proof.
  unfold updateOverlayPositions. generalize (map_to_list (maskedElements (state pg))).
  intros l. revert pg. induction l as [|[n overlays] l IH]; intros pg; cbn [fold_left].
  - reflexivity.
  - rewrite IH, reposition_entry_cases. destruct (isAttached (document pg) n).
    + now destruct (target_rect (document pg) n).
    + reflexivity.
Qed.

Lemma step_local (s : Sys) (e : Event) :
  detector (state (page s)) = Some d -> running s = [] ->
  detector (state (page (step h s e))) = Some d /\ running (step h s e) = [].
Proof.
  intros Hd Hr.
  assert (forall s', detector (state (page s')) = Some d -> running s' = [] ->
                     detector (state (page (start_scan h s'))) = Some d
                     /\ running (start_scan h s') = []) as Hstart.
  { intros s' Hd' Hr'. unfold start_scan.
    destruct (scanPage_local (page s') Hd') as [Hnone Hdet].
    destruct (scanPage h (page s')) as [pg' p]. cbn in Hnone, Hdet. subst p.
    cbn [page running option_list]. rewrite Hr'. now split. }
  destruct e as [ |[ |enabled| |piiType enabled]|i| |d']; cbn [step on_message].
  - now apply Hstart.
  - now split.
  - destruct enabled; [now apply Hstart|]. now split.
  - now apply Hstart.
  - now split.
  - replace (running s !! i) with (@None Pass) by (rewrite Hr; symmetry; apply lookup_nil).
    now split.
  - cbn [page running]. now rewrite updateOverlayPositions_detector.
  - now split.
Qed.

Lemma run_local (events : list Event) :
  forall s,
    detector (state (page s)) = Some d -> running s = [] ->
    detector (state (page (run h s events))) = Some d /\ running (run h s events) = [].
Proof.
  unfold run. induction events as [|e events IH]; intros s Hd Hr; cbn [fold_left].
  - now split.
  - destruct (step_local s e Hd Hr) as [Hd' Hr']. now apply IH.
Qed.

End Local.

(** X18.  With a detector that answers from the patterns, a pass of [scanPage]
    never waits: every call runs to its end within the event that made it.
    Started with no pass in flight, the script then never has one, whatever
    the events are, and the detector stays as it is: passes cannot overlap in
    this mode. *)
Theorem fallback_passes_never_overlap
    (h : Host) (d : PiiDetector) (s : Sys) (events : list Event) :
  answers_locally d ->
  detector (state (page s)) = Some d ->
  running s = [] ->
  running (run h s events) = []
  /\ detector (state (page (run h s events))) = Some d
  /\ (scanPage h (page (run h s events))).2 = None.
Proof.
  intros Hl Hd Hr. destruct (run_local h d Hl events s Hd Hr) as [Hd' Hr'].
  split; [exact Hr'|]. split; [exact Hd'|].
  now apply (scanPage_local h d Hl).
Qed.

Lemma fallback_passes_never_overlap_witness :
  running (run host_garbled (sys_fallback text_email)
               [ScanTimer; Message rescan; Resolve 0; Message (toggle true)]) = []
  /\ length (bodyOverlays (page (run host_garbled (sys_fallback text_email)
                                     [ScanTimer; Message rescan; Resolve 0;
                                      Message (toggle true)]))) = 1%nat.
Proof.
  split; [|vm_compute; reflexivity].
  destruct (fallback_passes_never_overlap host_garbled detector_fallback
              (sys_fallback text_email)
              [ScanTimer; Message rescan; Resolve 0; Message (toggle true)]) as (H & _).
  - split; [reflexivity | now left].
  - reflexivity.
  - reflexivity.
  - exact H.
Defined.

(** ** What [maskElement] makes *)

Section Plan.

Context (element : nat).

Lemma add_all_app (plan1 plan2 : list (Rect * string)) (pg : Page) :
  add_all pg element (plan1 ++ plan2) = add_all (add_all pg element plan1) element plan2.
Proof. unfold add_all. apply fold_left_app. Qed.

Lemma add_all_document (plan : list (Rect * string)) :
  forall pg, document (add_all pg element plan) = document pg.
Proof.
  unfold add_all. induction plan as [|[rect type] plan IH]; intros pg; cbn [fold_left].
  - reflexivity.
  - now rewrite IH.
Qed.

Lemma mask_rects_add_all (type : string) (rects : list Rect) :
  forall pg,
    mask_rects element type pg rects
    = add_all pg element (map (fun rect => (rect, type)) (List.filter visible rects)).
Proof.
  unfold mask_rects, add_all.
  induction rects as [|rect rects IH]; intros pg; cbn [fold_left List.filter].
  - reflexivity.
  - rewrite IH. now destruct (visible rect).
Qed.

Lemma fold_mask_finding_add_all (d : Dom) (text : list N) (piiItems : list Finding) :
  forall pg,
    document pg = d ->
    fold_left (mask_finding element text) piiItems pg
    = add_all pg element (mask_plan d element text piiItems).
Proof.
  induction piiItems as [|pii items IH]; intros pg Hd; cbn [fold_left mask_plan flat_map].
  - reflexivity.
  - fold (mask_plan d element text items). rewrite add_all_app.
    assert (mask_finding element text pg pii
            = add_all pg element
                (match indexOf text (value pii) with
                 | Some index =>
                     map (fun rect => (rect, type pii))
                       (List.filter visible
                          (rangeClientRects d element index (index + length (value pii))))
                 | None => []
                 end)) as ->.
    { unfold mask_finding. destruct (indexOf text (value pii)) as [index|]; [|reflexivity].
      now rewrite mask_rects_add_all, Hd. }
    apply IH. now rewrite add_all_document.
Qed.

Lemma maskElement_add_all (pg : Page) (piiItems : list Finding) :
  maskElement pg element piiItems
  = add_all pg element
      (mask_plan (document pg) element (textContent (document pg) element) piiItems).
Proof. unfold maskElement. now apply fold_mask_finding_add_all. Qed.

Lemma add_all_spec (plan : list (Rect * string)) :
  forall pg,
    let pg' := add_all pg element plan in
    let m := maskedElements (state pg) in
    let ids := seq (nextOverlay pg) (length plan) in
    bodyOverlays pg' = bodyOverlays pg ++ ids
    /\ nextOverlay pg' = (nextOverlay pg + length plan)%nat
    /\ maskedElements (state pg')
       = match plan with
         | [] => m
         | _ => <[element := default [] (m !! element) ++ ids]> m
         end
    /\ (forall o, (o < nextOverlay pg)%nat ->
                  overlayElements pg' !! o = overlayElements pg !! o)
    /\ (forall i rect type,
           plan !! i = Some (rect, type) ->
           overlayElements pg' !! (nextOverlay pg + i)%nat = Some (createOverlay rect type)).
Proof.
  induction plan as [|[rect type] plan IH]; intros pg; cbn zeta.
  - cbn. rewrite app_nil_r, Nat.add_0_r. repeat split; try reflexivity.
    intros i r t H. now rewrite lookup_nil in H.
  - change (add_all pg element ((rect, type) :: plan))
      with (add_all (addOverlay pg element rect type) element plan).
    destruct (IH (addOverlay pg element rect type)) as (Hb & Hn & Hm & Hold & Hnew).
    cbn zeta in Hb, Hn, Hm, Hold, Hnew.
    cbn [addOverlay bodyOverlays nextOverlay state maskedElements with_maskedElements
         overlayElements] in Hb, Hn, Hm, Hold, Hnew.
    split; [|split; [|split; [|split]]].
    + rewrite Hb, <- app_assoc. reflexivity.
    + rewrite Hn. cbn [length]. lia.
    + rewrite Hm. cbn [length seq]. destruct plan as [|p plan].
      * reflexivity.
      * rewrite lookup_insert_eq. cbn [from_option id]. rewrite insert_insert_eq.
        now rewrite <- app_assoc.
    + intros o Ho. rewrite Hold by lia. apply lookup_insert_ne. lia.
    + intros i r t Hi. destruct i as [|i].
      * cbn in Hi. injection Hi as <- <-. rewrite Nat.add_0_r, Hold by lia.
        apply lookup_insert_eq.
      * cbn in Hi. replace (nextOverlay pg + S i)%nat with (S (nextOverlay pg) + i)%nat by lia.
        now apply Hnew.
Qed.

End Plan.

(** X19.  [maskElement] makes one overlay for each rectangle with a width and
    a height of the first occurrence of each finding whose value occurs in
    the text of the unit, in the order of the findings and of the
    rectangles; each carries the type of its finding and lies on its
    rectangle.  The overlays are numbered on from the ones made before,
    appended to the body and to the list of the unit; the other units and
    the overlays made before are as they were, and when there is nothing to
    mask the page is as it was. *)
Theorem maskElement_overlays (pg : Page) (element : nat) (piiItems : list Finding) :
  let plan :=
    mask_plan (document pg) element (textContent (document pg) element) piiItems in
  let pg' := maskElement pg element piiItems in
  let m := maskedElements (state pg) in
  let ids := seq (nextOverlay pg) (length plan) in
  bodyOverlays pg' = bodyOverlays pg ++ ids
  /\ nextOverlay pg' = (nextOverlay pg + length plan)%nat
  /\ (plan <> [] ->
      maskedElements (state pg') = <[element := default [] (m !! element) ++ ids]> m)
  /\ (plan = [] -> pg' = pg)
  /\ (forall o, (o < nextOverlay pg)%nat ->
                overlayElements pg' !! o = overlayElements pg !! o)
  /\ (forall i rect type,
         plan !! i = Some (rect, type) ->
         overlayElements pg' !! (nextOverlay pg + i)%nat = Some (createOverlay rect type)).
Proof.
  cbn zeta. rewrite maskElement_add_all.
  destruct (add_all_spec element
              (mask_plan (document pg) element (textContent (document pg) element) piiItems)
              pg) as (Hb & Hn & Hm & Hold & Hnew).
  cbn zeta in Hb, Hn, Hm, Hold, Hnew.
  split; [exact Hb|]. split; [exact Hn|]. split; [|split; [|split; [exact Hold|exact Hnew]]].
  - intros Hne. rewrite Hm. now destruct (mask_plan _ _ _ _).
  - intros ->. reflexivity.
Qed.

(** Two findings with the same value: both overlays lie on the first
    occurrence. *)
Example maskElement_plan_twice :
  let pg := page_line text_twice None in
  mask_plan (document pg) 1 text_twice [finding_second; finding_second]
  = [ ({| left := 0; top := 0; width := 2; height := 1 |}, "email");
      ({| left := 0; top := 0; width := 2; height := 1 |}, "email") ]
  /\ maskedElements (state (maskElement pg 1 [finding_second; finding_second]))
     = {[ 1%nat := [0%nat; 1%nat] ]}
  /\ bodyOverlays (maskElement pg 1 [finding_second; finding_second]) = [0%nat; 1%nat].
Proof. cbn zeta. repeat split; vm_compute; reflexivity. Qed.

(** ** A pass with the patterns *)

Section FallbackPass.

Context (h : Host) (d : PiiDetector).
Hypothesis d_local : answers_locally d.

Lemma with_detector_same (st : State) (o : option PiiDetector) :
  detector st = o -> with_detector st o = st.
Proof. intros <-. now destruct st. Qed.

Lemma with_privacy_same (st : State) : with_privacy st (privacyScore st) (piiCounts st) = st.
Proof. now destruct st. Qed.

(** The body of the loop, for the findings [piiItems] of the unit [n]. *)
Lemma scan_node_result_spec (pg : Page) (n : nat) (piiItems : list Finding) (total : nat) :
  let kept := List.filter (filter_enabled (state pg)) piiItems in
  let plan := mask_plan (document pg) n (textContent (document pg) n) kept in
  let pg' := (scan_node_result pg n piiItems total).1 in
  (scan_node_result pg n piiItems total).2 = (total + length kept)%nat
  /\ document pg' = document pg
  /\ detector (state pg') = detector (state pg)
  /\ isEnabled (state pg') = isEnabled (state pg)
  /\ isInitialized (state pg') = isInitialized (state pg)
  /\ enabledFilters (state pg') = enabledFilters (state pg)
  /\ piiCounts (state pg') = fold_left count_finding kept (piiCounts (state pg))
  /\ processedNodes (state pg') = {[ n ]} ∪ processedNodes (state pg)
  /\ sent pg' = sent pg
  /\ badge pg' = badge pg
  /\ bodyOverlays pg' = bodyOverlays pg ++ seq (nextOverlay pg) (length plan)
  /\ nextOverlay pg' = (nextOverlay pg + length plan)%nat.
Proof.
  cbn zeta. unfold scan_node_result.
  destruct (List.filter (filter_enabled (state pg)) piiItems) as [|item items].
  - cbn. rewrite app_nil_r, !Nat.add_0_r. repeat split; reflexivity.
  - set (kept := item :: items).
    destruct (maskElement_adds (fun _ => True) pg n kept) as (HS & HD & HB & HT & _).
    { apply Forall_forall. now intros. }
    destruct (add_all_spec n (mask_plan (document pg) n (textContent (document pg) n) kept)
                pg) as (Hbody & Hnext & _).
    cbn zeta in Hbody, Hnext. rewrite <- maskElement_add_all in Hbody, Hnext.
    cbn [fst snd state with_state with_processedNodes with_privacy document detector
         isEnabled isInitialized enabledFilters piiCounts processedNodes sent badge
         bodyOverlays nextOverlay].
    rewrite HS, HD, HB, HT, Hbody, Hnext. repeat split; reflexivity.
Qed.

Lemma scan_finish_spec (pg : Page) (total : nat) :
  let pg' := scan_finish pg total in
  let score := privacy_score (piiCounts (state pg)) in
  piiCounts (state pg') = piiCounts (state pg)
  /\ privacyScore (state pg') = score
  /\ sent pg'
     = sent pg ++ [ {| t_count := total; t_privacyScore := score;
                       t_piiCounts := piiCounts (state pg) |} ]
  /\ badge pg'
     = (if isEnabled (state pg) then Some (badge_of score (piiCounts (state pg)))
        else badge pg)
  /\ processedNodes (state pg') = processedNodes (state pg)
  /\ document pg' = document pg
  /\ bodyOverlays pg' = bodyOverlays pg
  /\ nextOverlay pg' = nextOverlay pg
  /\ isEnabled (state pg') = isEnabled (state pg)
  /\ isInitialized (state pg') = isInitialized (state pg)
  /\ enabledFilters (state pg') = enabledFilters (state pg).
Proof.
  cbn zeta. unfold scan_finish, updateBadge, updatePrivacyBadge, calculatePrivacyScore.
  cbn [state with_state with_privacy isEnabled privacyScore piiCounts].
  destruct (isEnabled (state pg)) eqn:E; repeat split; try reflexivity; exact E.
Qed.

Lemma scan_loop_fallback (nodes : list nat) :
  forall pg total,
    detector (state pg) = Some d ->
    NoDup nodes ->
    (forall n, n ∈ nodes ->
               (CONFIG.MIN_TEXT_LENGTH <= length (trim (textContent (document pg) n)))%nat
               /\ n ∉ processedNodes (state pg)) ->
    let pg' := (scan_loop h pg nodes total).1 in
    let filters := enabledFilters (state pg) in
    let found := pass_findings filters (document pg) nodes in
    let plan := pass_plan filters (document pg) nodes in
    let counts := fold_left count_finding found (piiCounts (state pg)) in
    (scan_loop h pg nodes total).2 = None
    /\ piiCounts (state pg') = counts
    /\ privacyScore (state pg') = privacy_score counts
    /\ sent pg'
       = sent pg ++ [ {| t_count := (total + length found)%nat;
                         t_privacyScore := privacy_score counts;
                         t_piiCounts := counts |} ]
    /\ badge pg'
       = (if isEnabled (state pg) then Some (badge_of (privacy_score counts) counts)
          else badge pg)
    /\ processedNodes (state pg') = list_to_set nodes ∪ processedNodes (state pg)
    /\ document pg' = document pg
    /\ bodyOverlays pg' = bodyOverlays pg ++ seq (nextOverlay pg) (length plan)
    /\ nextOverlay pg' = (nextOverlay pg + length plan)%nat
    /\ isEnabled (state pg') = isEnabled (state pg)
    /\ isInitialized (state pg') = isInitialized (state pg)
    /\ enabledFilters (state pg') = enabledFilters (state pg).
Proof.
  induction nodes as [|n nodes IH]; intros pg total Hd Hnd Hnodes; cbn zeta.
  - cbn [scan_loop fst snd pass_findings pass_plan flat_map fold_left length seq].
    destruct (scan_finish_spec pg total)
      as (H1 & H2 & H3 & H4 & H5 & H6 & H7 & H8 & H9 & H10 & H11).
    cbn zeta in H1, H2, H3, H4, H5, H6, H7, H8, H9, H10, H11.
    rewrite H1, H2, H3, H4, H5, H6, H7, H8, H9, H10, H11, app_nil_r, !Nat.add_0_r.
    repeat split; try reflexivity. cbn [list_to_set]. now rewrite (left_id_L ∅ (∪)).
  - cbn [scan_loop].
    apply NoDup_cons in Hnd as [Hn Hnd].
    destruct (Hnodes n (list_elem_of_here _ _)) as [Hlen Hproc].
    rewrite bool_decide_eq_false_2 by exact Hproc.
    replace (length (trim (textContent (document pg) n)) <? CONFIG.MIN_TEXT_LENGTH)%nat
      with false by (symmetry; apply Nat.ltb_ge; exact Hlen).
    rewrite Hd, (detectPII_local h d d_local).
    rewrite (long_text_not_blank _ Hlen). cbn [existsb is_host_call orb].
    rewrite (with_detector_same _ _ Hd), with_state_same.
    destruct (scan_node_result_spec pg n (regexFallback (textContent (document pg) n)) total)
      as (Ht & HD & Hdet & Hen & Hini & Hf & Hc & Hp & Hs & Hb & Hbody & Hnext).
    cbn zeta in Ht, HD, Hdet, Hen, Hini, Hf, Hc, Hp, Hs, Hb, Hbody, Hnext.
    destruct (scan_node_result pg n (regexFallback (textContent (document pg) n)) total)
      as [pg1 total1].
    cbn [fst snd] in Ht, HD, Hdet, Hen, Hini, Hf, Hc, Hp, Hs, Hb, Hbody, Hnext. subst total1.
    destruct (IH pg1 (total + length
                        (List.filter (filter_enabled (state pg))
                           (regexFallback (textContent (document pg) n))))%nat)
      as (I1 & I2 & I3 & I4 & I5 & I6 & I7 & I8 & I9 & I10 & I11 & I12).
    { now rewrite Hdet. }
    { exact Hnd. }
    { intros k Hk. rewrite HD, Hp.
      destruct (Hnodes k (list_elem_of_further _ _ _ Hk)) as [Hl Hpk].
      split; [exact Hl|]. intros Hin. apply elem_of_union in Hin as [Hin|Hin]; [|contradiction].
      apply elem_of_singleton in Hin. now subst k. }
    cbn zeta in I1, I2, I3, I4, I5, I6, I7, I8, I9, I10, I11, I12.
    rewrite HD, Hf, Hc, Hs, Hb, Hen, Hini, Hbody, Hnext in *.
    cbn [pass_findings pass_plan flat_map].
    fold (pass_findings (enabledFilters (state pg)) (document pg) nodes).
    fold (pass_plan (enabledFilters (state pg)) (document pg) nodes).
    change (List.filter (filter_enabled (state pg))
              (regexFallback (textContent (document pg) n)))
      with (kept_findings (enabledFilters (state pg)) (document pg) n) in *.
    rewrite fold_left_app, !length_app, seq_app, app_assoc, !Nat.add_assoc.
    rewrite I1, I2, I3, I4, I5, I6, I7, I8, I9, I10, I11, I12, Hp.
    repeat split; try reflexivity.
    cbn [list_to_set]. now rewrite (assoc_L (∪)), (comm_L (∪) {[n]}).
Qed.

Lemma zeroed_fold_count (items : list Finding) :
  forall counts, zeroed (fold_left count_finding items counts) = zeroed counts.
Proof.
  assert (forall (counts : list (string * N)) k,
             zeroed (prop_update N.succ counts k) = zeroed counts) as Hupd.
  { induction counts as [|[k' v] counts IHc]; intros k; cbn [prop_update]; [reflexivity|].
    destruct (String.eqb k' k); [reflexivity|]. cbn [zeroed map]. f_equal. apply IHc. }
  induction items as [|item items IH]; intros counts; cbn [fold_left]; [reflexivity|].
  rewrite IH. unfold count_finding. destruct (hasOwnProperty counts (type item)); [|reflexivity].
  apply Hupd.
Qed.

Lemma zeroed_idem (counts : list (string * N)) : zeroed (zeroed counts) = zeroed counts.
Proof. unfold zeroed. rewrite map_map. apply map_ext. now intros [k v]. Qed.

End FallbackPass.

Lemma getTextNodes_long (d : Dom) (n : nat) :
  n ∈ getTextNodes d -> (CONFIG.MIN_TEXT_LENGTH <= length (trim (textContent d n)))%nat.
Proof.
  intros Hin. apply list_elem_of_In, filter_In in Hin as [_ Hacc]. unfold acceptNode in Hacc.
  destruct (parentElement d n); [|discriminate].
  apply andb_true_iff in Hacc as [_ Hacc]. now apply Nat.leb_le.
Qed.

(** A call of [scanPage] with a detector that answers from the patterns. *)
Lemma scanPage_fallback (h : Host) (d : PiiDetector) (pg : Page) :
  answers_locally d ->
  detector (state pg) = Some d ->
  isEnabled (state pg) = true ->
  isInitialized (state pg) = true ->
  NoDup (bodyTextNodes (document pg)) ->
  let nodes := getTextNodes (document pg) in
  let filters := enabledFilters (state pg) in
  let found := pass_findings filters (document pg) nodes in
  let plan := pass_plan filters (document pg) nodes in
  let counts := fold_left count_finding found (zeroed (piiCounts (state pg))) in
  let pg' := (scanPage h pg).1 in
  (scanPage h pg).2 = None
  /\ piiCounts (state pg') = counts
  /\ privacyScore (state pg') = privacy_score counts
  /\ sent pg'
     = sent pg ++ [ {| t_count := length found; t_privacyScore := privacy_score counts;
                       t_piiCounts := counts |} ]
  /\ badge pg' = Some (badge_of (privacy_score counts) counts)
  /\ processedNodes (state pg') = list_to_set nodes
  /\ document pg' = document pg
  /\ bodyOverlays pg'
     = bodyOverlays (clearAllMasks pg) ++ seq (nextOverlay pg) (length plan)
  /\ nextOverlay pg' = (nextOverlay pg + length plan)%nat
  /\ isEnabled (state pg') = true
  /\ isInitialized (state pg') = true
  /\ enabledFilters (state pg') = filters.
Proof.
  intros Hl Hd Hen Hini Hnd. cbn zeta. unfold scanPage. rewrite Hen, Hini. cbn [negb orb].
  set (pg0 := with_state (clearAllMasks pg) (resetPrivacyData (state (clearAllMasks pg)))).
  destruct (scan_loop_fallback h d Hl (getTextNodes (document pg0)) pg0 0%nat)
    as (H1 & H2 & H3 & H4 & H5 & H6 & H7 & H8 & H9 & H10 & H11 & H12).
  - exact Hd.
  - apply NoDup_filter_list. exact Hnd.
  - intros n Hn. split; [now apply getTextNodes_long|]. apply not_elem_of_empty.
  - cbn zeta in H1, H2, H3, H4, H5, H6, H7, H8, H9, H10, H11, H12.
    change (document pg0) with (document pg) in *.
    change (enabledFilters (state pg0)) with (enabledFilters (state pg)) in *.
    change (piiCounts (state pg0)) with (zeroed (piiCounts (state pg))) in *.
    change (isEnabled (state pg0)) with (isEnabled (state pg)) in *.
    change (isInitialized (state pg0)) with (isInitialized (state pg)) in *.
    change (sent pg0) with (sent pg) in *.
    change (nextOverlay pg0) with (nextOverlay pg) in *.
    change (bodyOverlays pg0) with (bodyOverlays (clearAllMasks pg)) in *.
    change (processedNodes (state pg0)) with (∅ : gset nat) in *.
    rewrite Hen in H5, H10. rewrite Hini in H11. rewrite (right_id_L ∅ (∪)) in H6.
    repeat split; assumption.
Qed.

Lemma scanPage_page_wf (h : Host) (pg : Page) : page_wf pg -> page_wf (scanPage h pg).1.
Proof.
  intros Hwf.
  pose proof (step_preserves h page_wf page_wf_same addOverlay_page_wf
                clearAllMasks_page_wf reposition_entry_page_wf
                {| page := pg; running := [] |} ScanTimer Hwf) as H.
  cbn [step] in H. unfold start_scan in H. cbn [page] in H.
  now destruct (scanPage h pg).
Qed.

(** X20.  A pass with the patterns in closed form.  With a detector that
    answers from the patterns, a call of [scanPage] on an enabled page runs
    to its end at once.  The findings it keeps are those of the patterns on
    the text units that [getTextNodes] extracts, in their order, that pass
    the filters; the counts are those findings counted from zero, the score
    is the score of these counts, the badge shows them, one [pii_detected]
    message is sent with their number, the processed units are the
    extracted ones, and the overlays of the body are new ones, one for each
    rectangle to mask. *)
Theorem fallback_scan_closed_form (h : Host) (d : PiiDetector) (pg : Page) :
  answers_locally d ->
  detector (state pg) = Some d ->
  isEnabled (state pg) = true ->
  isInitialized (state pg) = true ->
  NoDup (bodyTextNodes (document pg)) ->
  let nodes := getTextNodes (document pg) in
  let filters := enabledFilters (state pg) in
  let found := pass_findings filters (document pg) nodes in
  let plan := pass_plan filters (document pg) nodes in
  let counts := fold_left count_finding found (zeroed (piiCounts (state pg))) in
  let pg' := (scanPage h pg).1 in
  (scanPage h pg).2 = None
  /\ piiCounts (state pg') = counts
  /\ privacyScore (state pg') = privacy_score counts
  /\ sent pg'
     = sent pg ++ [ {| t_count := length found; t_privacyScore := privacy_score counts;
                       t_piiCounts := counts |} ]
  /\ badge pg' = Some (badge_of (privacy_score counts) counts)
  /\ processedNodes (state pg') = list_to_set nodes
  /\ bodyOverlays pg'
     = removeChildren (all_overlays (maskedElements (state pg))) (bodyOverlays pg)
       ++ seq (nextOverlay pg) (length plan).
Proof.
  intros Hl Hd Hen Hini Hnd.
  destruct (scanPage_fallback h d pg Hl Hd Hen Hini Hnd)
    as (H1 & H2 & H3 & H4 & H5 & H6 & _ & H8 & _).
  cbn zeta in *. repeat split; assumption.
Qed.

Lemma fallback_scan_closed_form_witness :
  let pg := page_line text_email (Some detector_fallback) in
  privacyScore (state (scanPage host_garbled pg).1)
  = privacy_score (fold_left count_finding
                     (pass_findings (enabledFilters (state pg)) (document pg) [1%nat])
                     (zeroed (piiCounts (state pg))))
  /\ privacyScore (state (scanPage host_garbled pg).1) = 90%Z
  /\ bodyOverlays (scanPage host_garbled pg).1 = [0%nat].
Proof.
  cbn zeta. split; [|split; vm_compute; reflexivity].
  destruct (fallback_scan_closed_form host_garbled detector_fallback
              (page_line text_email (Some detector_fallback))) as (_ & _ & H & _).
  - split; [reflexivity | now left].
  - reflexivity.
  - reflexivity.
  - reflexivity.
  - constructor; [apply not_elem_of_nil | constructor].
  - exact H.
Defined.

(** X21.  Scanning again changes nothing that is shown.  With a detector that
    answers from the patterns, a second call of [scanPage] on the same
    document and filters leaves the counts, the score, the badge and the
    processed units as the first left them, sends the same [pii_detected]
    message again, and replaces the overlays of the body by as many new
    ones: nothing adds up from pass to pass. *)
Theorem rescan_is_stable (h : Host) (d : PiiDetector) (pg : Page) :
  answers_locally d ->
  detector (state pg) = Some d ->
  isEnabled (state pg) = true ->
  isInitialized (state pg) = true ->
  NoDup (bodyTextNodes (document pg)) ->
  page_wf pg ->
  let pg1 := (scanPage h pg).1 in
  let pg2 := (scanPage h pg1).1 in
  piiCounts (state pg2) = piiCounts (state pg1)
  /\ privacyScore (state pg2) = privacyScore (state pg1)
  /\ badge pg2 = badge pg1
  /\ processedNodes (state pg2) = processedNodes (state pg1)
  /\ last (sent pg2) = last (sent pg1)
  /\ bodyOverlays pg1 = seq (nextOverlay pg) (length (bodyOverlays pg1))
  /\ bodyOverlays pg2 = seq (nextOverlay pg1) (length (bodyOverlays pg1)).
Proof.
  intros Hl Hd Hen Hini Hnd Hwf. cbn zeta.
  destruct (scanPage_fallback h d pg Hl Hd Hen Hini Hnd)
    as (_ & A2 & A3 & A4 & A5 & A6 & A7 & A8 & A9 & A10 & A11 & A12).
  destruct (scanPage_local h d Hl pg Hd) as [_ Hd1].
  cbn zeta in A2, A3, A4, A5, A6, A7, A8, A9, A10, A11, A12.
  pose proof (scanPage_page_wf h pg Hwf) as Hwf1.
  set (pg1 := (scanPage h pg).1) in *.
  assert (NoDup (bodyTextNodes (document pg1))) as Hnd1 by now rewrite A7.
  destruct (scanPage_fallback h d pg1 Hl Hd1 A10 A11 Hnd1)
    as (_ & B2 & B3 & B4 & B5 & B6 & _ & B8 & _).
  cbn zeta in B2, B3, B4, B5, B6, B8.
  rewrite A7 in B2, B3, B4, B5, B6, B8. rewrite A12 in B2, B3, B4, B5, B8.
  rewrite A2, zeroed_fold_count, zeroed_idem in B2, B3, B4, B5.
  rewrite (clearAllMasks_body pg Hwf) in A8. rewrite (clearAllMasks_body pg1 Hwf1) in B8.
  cbn [app] in A8, B8.
  split; [now rewrite B2, A2|]. split; [now rewrite B3, A3|]. split; [now rewrite B5, A5|].
  split; [now rewrite B6, A6|]. split; [now rewrite B4, A4, !last_snoc|].
  rewrite B8, A8, length_seq. split; reflexivity.
Qed.

Lemma rescan_is_stable_witness :
  let pg := page_line text_email (Some detector_fallback) in
  let pg1 := (scanPage host_garbled pg).1 in
  let pg2 := (scanPage host_garbled pg1).1 in
  privacyScore (state pg2) = privacyScore (state pg1)
  /\ bodyOverlays pg1 = [0%nat]
  /\ bodyOverlays pg2 = [1%nat].
Proof.
  cbn zeta. split; [|split; vm_compute; reflexivity].
  destruct (rescan_is_stable host_garbled detector_fallback
              (page_line text_email (Some detector_fallback))) as (_ & H & _).
  - split; [reflexivity | now left].
  - reflexivity.
  - reflexivity.
  - reflexivity.
  - constructor; [apply not_elem_of_nil | constructor].
  - apply page_wf_no_masks. split; reflexivity.
  - exact H.
Defined.
